(** * LaTeX-to-Markmap: the structural extraction pipeline of
      [latex_to_mindmap.py], embedded and verified.

    Python [str] values are sequences of Unicode code points; they are modelled
    as [list N].  The regular expressions of the program are values of the
    type [regex] below, interpreted by a backtracking matcher that follows the
    search order of Python's [re] module (leftmost match, alternatives tried
    left to right, greedy and lazy repetition).  [MindMapNode] objects are
    mutable and shared between the section stack and their parents' child
    lists, so the parser is modelled over an explicit store of nodes. *)

From Stdlib Require Import ZArith NArith String Ascii Permutation DecimalString.
From stdpp Require Import gmap list.

Local Open Scope nat_scope.

(** ** Strings *)

Abbreviation str := (list N).

Definition chr (a : ascii) : N := N_of_ascii a.
Arguments chr a%_char.

Definition lit (s : string) : str := map N_of_ascii (list_ascii_of_string s).
Arguments lit s%_string.

Definition NL : N := 10.
Definition SPACE : N := 32.
Definition BACKSLASH : N := 92.
Definition DOLLAR : N := 36.
Definition LBRACE : N := 123.
Definition RBRACE : N := 125.
Definition TILDE : N := 126.

Definition str_eqb (a b : str) : bool := bool_decide (a = b).

(** [str.isspace] for one character, which is also the class [\s] of [re] on
    [str] patterns. *)
Definition is_space (c : N) : bool :=
  ((9 <=? c) && (c <=? 13) || (28 <=? c) && (c <=? 32) || (c =? 133) || (c =? 160)
   || (c =? 5760) || (8192 <=? c) && (c <=? 8202) || (c =? 8232) || (c =? 8233)
   || (c =? 8239) || (c =? 8287) || (c =? 12288))%N.

Definition is_upper (c : N) : bool := ((65 <=? c) && (c <=? 90))%N.
Definition is_lower (c : N) : bool := ((97 <=? c) && (c <=? 122))%N.
(** The class [[a-zA-Z]]. *)
Definition is_letter (c : N) : bool := is_upper c || is_lower c.

Fixpoint lstrip (s : str) : str :=
  match s with
  | c :: tl => if is_space c then lstrip tl else s
  | [] => []
  end.

Definition rstrip (s : str) : str := reverse (lstrip (reverse s)).

(** [s.strip()] *)
Definition strip (s : str) : str := rstrip (lstrip s).

(** [s[a:b]] for [0 <= a], [0 <= b] *)
Definition slice (s : str) (a b : nat) : str := take (b - a) (drop a s).

Fixpoint starts_with (p s : str) : bool :=
  match p, s with
  | [], _ => true
  | a :: p', b :: s' => (a =? b)%N && starts_with p' s'
  | _ :: _, [] => false
  end.

(** [sub in s] *)
Fixpoint contains (sub s : str) : bool :=
  starts_with sub s || match s with [] => false | _ :: tl => contains sub tl end.

(** [s.replace(old, new)] for a non-empty [old]: the occurrences are replaced
    from left to right, without overlap. *)
Fixpoint replace_fuel (fuel : nat) (old new s : str) : str :=
  match fuel with
  | O => s
  | S f =>
      match s with
      | [] => []
      | c :: tl =>
          if starts_with old s then new ++ replace_fuel f old new (drop (length old) s)
          else c :: replace_fuel f old new tl
      end
  end.

Definition replace (old new s : str) : str := replace_fuel (S (length s)) old new s.

(** [s.split(sep)] for a non-empty [sep] *)
Fixpoint split_fuel (fuel : nat) (sep s cur : str) : list str :=
  match fuel with
  | O => [reverse cur ++ s]
  | S f =>
      match s with
      | [] => [reverse cur]
      | c :: tl =>
          if starts_with sep s then reverse cur :: split_fuel f sep (drop (length sep) s) []
          else split_fuel f sep tl (c :: cur)
      end
  end.

Definition split (sep s : str) : list str := split_fuel (S (length s)) sep s [].

(** [sep.join(parts)] *)
Fixpoint join (sep : str) (parts : list str) : str :=
  match parts with
  | [] => []
  | [p] => p
  | p :: tl => p ++ sep ++ join sep tl
  end.

(** [str(n)] for a natural number *)
Definition str_of_nat (n : nat) : str := lit (NilEmpty.string_of_uint (Nat.to_uint n)).

Definition to_lower (c : N) : N := if is_upper c then (c + 32)%N else c.
Definition to_upper (c : N) : N := if is_lower c then (c - 32)%N else c.

(** [s.title()] on text made of the letters a-z and A-Z and of uncased
    characters: a letter is put in upper case after an uncased character or at
    the beginning, in lower case after a letter. *)
Fixpoint title_case_from (after_letter : bool) (s : str) : str :=
  match s with
  | [] => []
  | c :: tl =>
      (if is_letter c then (if after_letter then to_lower c else to_upper c) else c)
        :: title_case_from (is_letter c) tl
  end.

Definition title_case (s : str) : str := title_case_from false s.

(** ** Regular expressions *)

Inductive regex : Type :=
| Eps                                   (* the empty pattern *)
| Cls (p : N -> bool)                   (* one character of a class *)
| Seq (a b : regex)
| Alt (a b : regex)                     (* a|b *)
| Star (greedy : bool) (a : regex)      (* a* and a*? *)
| Grp (n : nat) (a : regex)             (* the n-th capturing group *)
| Ref (n : nat)                         (* \n *)
| Ahead (positive : bool) (a : regex)   (* (?=a) and (?!a) *)
| Behind (p : N -> bool)                (* (?<=[...]) for one character *)
| Bos                                   (* ^ without MULTILINE *)
| Eos.                                  (* \Z *)

Definition Chr (c : N) : regex := Cls (N.eqb c).
Definition NotChr (c : N) : regex := Cls (fun x => negb (x =? c)%N).
(** [.] with DOTALL, and without *)
Definition AnyChar : regex := Cls (fun _ => true).
Definition NotNewline : regex := Cls (fun x => negb (x =? NL)%N).
Definition Plus (greedy : bool) (a : regex) : regex := Seq a (Star greedy a).
Definition Opt (a : regex) : regex := Alt a Eps.
Fixpoint Lits (s : str) : regex :=
  match s with
  | [] => Eps
  | [c] => Chr c
  | c :: tl => Seq (Chr c) (Lits tl)
  end.
Definition Word (s : string) : regex := Lits (lit s).
Arguments Word s%_string.
Fixpoint Alts (l : list regex) : regex :=
  match l with
  | [] => Eps
  | [a] => a
  | a :: tl => Alt a (Alts tl)
  end.

Declare Scope regex_scope.
Delimit Scope regex_scope with re.
Bind Scope regex_scope with regex.
Infix "+>" := Seq (at level 60, right associativity) : regex_scope.

(** The state of a match attempt: the position in the text, the character
    before it, the text from there on, and the groups closed so far (the last
    one closed first). *)
Record mstate : Type := MState {
  ms_pos : nat;
  ms_prev : option N;
  ms_rest : str;
  ms_groups : list (nat * str)
}.

Definition matcher : Type := mstate -> (mstate -> option mstate) -> option mstate.

Definition advance (c : N) (tl : str) (st : mstate) : mstate :=
  MState (S (ms_pos st)) (Some c) tl (ms_groups st).

Fixpoint skip (n : nat) (st : mstate) : mstate :=
  match n, ms_rest st with
  | S n', c :: tl => skip n' (advance c tl st)
  | _, _ => st
  end.

Fixpoint group_lookup (n : nat) (gs : list (nat * str)) : option str :=
  match gs with
  | [] => None
  | (k, w) :: tl => if k =? n then Some w else group_lookup n tl
  end.

Definition close_group (n : nat) (opened closed : mstate) : mstate :=
  MState (ms_pos closed) (ms_prev closed) (ms_rest closed)
         ((n, take (ms_pos closed - ms_pos opened) (ms_rest opened)) :: ms_groups closed).

(** Repetition.  An iteration that consumes nothing is abandoned, so at most
    one iteration per remaining character takes place. *)
Fixpoint rstar (body : matcher) (greedy : bool) (fuel : nat) : matcher :=
  fun st k =>
    match fuel with
    | O => k st
    | S f =>
        if greedy then
          match body st (fun st' => if ms_pos st <? ms_pos st' then rstar body greedy f st' k
                                    else None) with
          | Some e => Some e
          | None => k st
          end
        else
          match k st with
          | Some e => Some e
          | None => body st (fun st' => if ms_pos st <? ms_pos st' then rstar body greedy f st' k
                                        else None)
          end
    end.

Fixpoint rmatch (r : regex) : matcher :=
  fun st k =>
    match r with
    | Eps => k st
    | Cls p =>
        match ms_rest st with
        | c :: tl => if p c then k (advance c tl st) else None
        | [] => None
        end
    | Seq a b => rmatch a st (fun st' => rmatch b st' k)
    | Alt a b =>
        match rmatch a st k with
        | Some e => Some e
        | None => rmatch b st k
        end
    | Star greedy a => rstar (rmatch a) greedy (S (length (ms_rest st))) st k
    | Grp n a => rmatch a st (fun st' => k (close_group n st st'))
    | Ref n =>
        match group_lookup n (ms_groups st) with
        | Some w => if starts_with w (ms_rest st) then k (skip (length w) st) else None
        | None => None
        end
    | Ahead positive a =>
        match rmatch a st Some with
        | Some _ => if positive then k st else None
        | None => if positive then None else k st
        end
    | Behind p =>
        match ms_prev st with
        | Some c => if p c then k st else None
        | None => None
        end
    | Bos => if ms_pos st =? 0 then k st else None
    | Eos => match ms_rest st with [] => k st | _ :: _ => None end
    end.

(** A match object: [start()], [end()], [group(0)] and the groups. *)
Record rematch : Type := ReMatch {
  m_start : nat;
  m_end : nat;
  m_text : str;
  m_groups : list (nat * str)
}.

(** [m.group(n)] for a group that took part in the match *)
Definition group (n : nat) (m : rematch) : str := default [] (group_lookup n (m_groups m)).

(** [m.lastindex]: the group closed last *)
Definition lastindex (m : rematch) : nat :=
  match m_groups m with
  | (k, _) :: _ => k
  | [] => 0
  end.

Definition mk_match (b e : mstate) : rematch :=
  ReMatch (ms_pos b) (ms_pos e) (take (ms_pos e - ms_pos b) (ms_rest b)) (ms_groups e).

(** One attempt at the position of [st], as [pattern.match(text, pos)]. *)
Definition match_here (r : regex) (pos : nat) (prev : option N) (rest : str) : option rematch :=
  let b := MState pos prev rest [] in
  match rmatch r b Some with
  | Some e => Some (mk_match b e)
  | None => None
  end.

(** [re.match(r, text)] *)
Definition re_match (r : regex) (text : str) : option rematch := match_here r 0 None text.

(** The leftmost match at or after a position. *)
Fixpoint search_at (r : regex) (pos : nat) (prev : option N) (rest : str) : option rematch :=
  match match_here r pos prev rest with
  | Some m => Some m
  | None =>
      match rest with
      | [] => None
      | c :: tl => search_at r (S pos) (Some c) tl
      end
  end.

(** [re.search(r, text)] *)
Definition re_search (r : regex) (text : str) : option rematch := search_at r 0 None text.

Definition last_char (s : str) : option N := last s.

(** [re.finditer(r, text)]: the matches from left to right, each search
    starting where the previous match ended.  None of the patterns of the
    program matches the empty string; after an empty match the scan moves on
    by one character. *)
Fixpoint finditer_from (r : regex) (fuel : nat) (pos : nat) (prev : option N) (rest : str)
  : list rematch :=
  match fuel with
  | O => []
  | S f =>
      match search_at r pos prev rest with
      | None => []
      | Some m =>
          let consumed := m_end m - pos in
          let rest' := drop consumed rest in
          let prev' := match consumed with
                       | O => prev
                       | S i => rest !! i
                       end in
          m :: (if m_start m <? m_end m then finditer_from r f (m_end m) prev' rest'
                else match rest' with
                     | [] => []
                     | c :: tl => finditer_from r f (S (m_end m)) (Some c) tl
                     end)
      end
  end.

Definition finditer (r : regex) (text : str) : list rematch :=
  finditer_from r (S (length text)) 0 None text.

(** [re.sub(r, repl, text)] where [repl] is a function that carries a state
    from one match to the next. *)
Fixpoint sub_matches {S : Type} (repl : S -> rematch -> S * str) (s : S)
    (text : str) (cur : nat) (ms : list rematch) : S * str :=
  match ms with
  | [] => (s, drop cur text)
  | m :: tl =>
      let '(s1, new) := repl s m in
      let '(s2, out) := sub_matches repl s1 text (m_end m) tl in
      (s2, slice text cur (m_start m) ++ new ++ out)
  end.

Definition re_sub_with {S : Type} (r : regex) (repl : S -> rematch -> S * str) (s : S)
    (text : str) : S * str :=
  sub_matches repl s text 0 (finditer r text).

(** [re.sub(r, repl, text)] for a replacement that depends on the match only *)
Definition re_sub (r : regex) (repl : rematch -> str) (text : str) : str :=
  snd (re_sub_with r (fun (_ : unit) m => (tt, repl m)) tt text).

(** ** The text sanitizer: [LatexParser._clean_latex_text] *)

(** Each pattern is given with its source text; there a blank is put between
    a star and a closing parenthesis that follows it in the source. *)
Module Pat.
Local Open Scope regex_scope.

(** [\$([^$]+)\$] *)
Definition dollar_math : regex :=
  Chr DOLLAR +> Grp 1 (Plus true (NotChr DOLLAR)) +> Chr DOLLAR.

(** [\\?\\\(([^)]+)\\\)] *)
Definition paren_math : regex :=
  Opt (Chr BACKSLASH) +> Chr BACKSLASH +> Chr (chr "(")
    +> Grp 1 (Plus true (NotChr (chr ")"))) +> Chr BACKSLASH +> Chr (chr ")").

(** [\\[a-zA-Z]+\*?\{([^}]* )\}] *)
Definition command_with_arg : regex :=
  Chr BACKSLASH +> Plus true (Cls is_letter) +> Opt (Chr (chr "*")) +> Chr LBRACE
    +> Grp 1 (Star true (NotChr RBRACE)) +> Chr RBRACE.

(** [\\[a-zA-Z]+\*?(?!\()] *)
Definition bare_command : regex :=
  Chr BACKSLASH +> Plus true (Cls is_letter) +> Opt (Chr (chr "*"))
    +> Ahead false (Chr (chr "(")).

(** [\{([^}]* )\}] *)
Definition braces : regex :=
  Chr LBRACE +> Grp 1 (Star true (NotChr RBRACE)) +> Chr RBRACE.

(** [\\\\] *)
Definition line_break : regex := Chr BACKSLASH +> Chr BACKSLASH.

(** [[~]] *)
Definition tilde : regex := Chr TILDE.

(** [\s+] *)
Definition spaces : regex := Plus true (Cls is_space).
End Pat.

(** [f"__MATH_PLACEHOLDER_{i}__"] *)
Definition placeholder (i : nat) : str :=
  lit "__MATH_PLACEHOLDER_" ++ str_of_nat i ++ lit "__".

(** The local function [replace_math]: the match is appended to
    [math_expressions] and replaced by the placeholder of its index. *)
Definition replace_math (math_expressions : list str) (m : rematch) : list str * str :=
  (math_expressions ++ [m_text m], placeholder (length math_expressions)).

(** The loop that puts the protected expressions back, from index [i] on. *)
Fixpoint restore_math (i : nat) (math_expressions : list str) (text : str) : str :=
  match math_expressions with
  | [] => text
  | math_expr :: tl => restore_math (S i) tl (replace (placeholder i) math_expr text)
  end.

(** The command-stripping substitutions, in the order of the source. *)
Definition strip_commands (text : str) : str :=
  let t := re_sub Pat.command_with_arg (group 1) text in
  let t := re_sub Pat.bare_command (fun _ => []) t in
  let t := re_sub Pat.braces (group 1) t in
  let t := re_sub Pat.line_break (fun _ => [SPACE]) t in
  let t := re_sub Pat.tilde (fun _ => [SPACE]) t in
  re_sub Pat.spaces (fun _ => [SPACE]) t.

Definition _clean_latex_text (text : str) : str :=
  let '(maths, t) := re_sub_with Pat.dollar_math replace_math [] text in
  let '(maths, t) := re_sub_with Pat.paren_math replace_math maths t in
  strip (restore_math 0 maths (strip_commands t)).

(** ** The mind map: [MindMapNode] objects in a store

    A node is referred to by its index in the store; [children] holds the
    indices of the child objects, in insertion order. *)

Record MindMapNode : Type := mkNode {
  title : str;
  content : str;
  node_type : str;
  children : list nat;
  level : Z
}.

Abbreviation store := (list MindMapNode).

(** [MindMapNode(title=..., content=..., node_type=..., level=...)]: the new
    object is put at the end of the store; its index is the length before. *)
Definition new_node (t c ty : str) (lv : Z) (h : store) : store := h ++ [mkNode t c ty [] lv].

Definition with_child (c : nat) (n : MindMapNode) : MindMapNode :=
  mkNode (title n) (content n) (node_type n) (children n ++ [c]) (level n).

(** [parent.add_child(child)] *)
Definition add_child (parent child : nat) (h : store) : store := alter (with_child child) parent h.

Definition with_definition (c : str) (n : MindMapNode) : MindMapNode :=
  mkNode (title n) c (lit "section_with_definition") (children n) (level n).

(** [SECTION_LEVELS] *)
Definition SECTION_LEVELS : list (str * Z) :=
  [ (lit "part", 0%Z); (lit "chapter", 1%Z); (lit "section", 2%Z); (lit "subsection", 3%Z);
    (lit "subsubsection", 4%Z); (lit "paragraph", 5%Z); (lit "subparagraph", 6%Z) ].

(** [d.get(key, default)] on a dictionary given by its items *)
Fixpoint dict_get (d : list (str * Z)) (key : str) (dflt : Z) : Z :=
  match d with
  | [] => dflt
  | (k, v) :: tl => if str_eqb k key then v else dict_get tl key dflt
  end.

(** [THEOREM_ENVS].  The source joins this set with [|] into an alternation;
    every alternative is followed by a closing brace in the patterns, so the
    order of the alternatives cannot change what is matched. *)
Definition THEOREM_ENVS : list str :=
  [ lit "theorem"; lit "lemma"; lit "proposition"; lit "corollary"; lit "definition";
    lit "example"; lit "remark"; lit "note"; lit "proof"; lit "claim"; lit "fact" ].

Module BlockPat.
Local Open Scope regex_scope.

Definition theorem_envs : regex := Alts (map Lits THEOREM_ENVS).
Definition math_envs : regex := Alts [Word "align"; Word "equation"; Word "gather"].

(** [\\begin\{(align|equation|gather)\}] *)
Definition begin_math : regex := Word "\begin{" +> Grp 1 math_envs +> Chr RBRACE.
(** [\\\[] *)
Definition open_bracket : regex := Word "\[".
(** [\$\$] *)
Definition double_dollar : regex := Word "$$".
(** [\\paragraph\{] *)
Definition paragraph_start : regex := Word "\paragraph{".
(** [\\begin\{(theorem|...|fact)\}] *)
Definition begin_theorem : regex := Word "\begin{" +> Grp 1 theorem_envs +> Chr RBRACE.

(** [\\begin\{(align|equation|gather)\}(.*?)\\end\{\1\}], DOTALL *)
Definition math_env : regex :=
  Word "\begin{" +> Grp 1 math_envs +> Chr RBRACE +> Grp 2 (Star false AnyChar)
    +> Word "\end{" +> Ref 1 +> Chr RBRACE.
(** [\\\[(.*?)\\\]], DOTALL *)
Definition bracket_math : regex := Word "\[" +> Grp 1 (Star false AnyChar) +> Word "\]".
(** [\$\$(.*?)\$\$], DOTALL *)
Definition dollar_display : regex := Word "$$" +> Grp 1 (Star false AnyChar) +> Word "$$".
(** [\\begin\{(theorem|...|fact)\}(.*?)\\end\{\1\}], DOTALL *)
Definition theorem_env : regex :=
  Word "\begin{" +> Grp 1 theorem_envs +> Chr RBRACE +> Grp 2 (Star false AnyChar)
    +> Word "\end{" +> Ref 1 +> Chr RBRACE.
(** [\\paragraph\{([^}]* )\}([^\\]*?)(?=\\|\Z)], DOTALL *)
Definition paragraph : regex :=
  Word "\paragraph{" +> Grp 1 (Star true (NotChr RBRACE)) +> Chr RBRACE
    +> Grp 2 (Star false (NotChr BACKSLASH)) +> Ahead true (Alt (Chr BACKSLASH) Eos).
(** [^\\[a-zA-Z]+] *)
Definition command_start : regex := Bos +> Chr BACKSLASH +> Plus true (Cls is_letter).
(** [\\begin\{equation\}(.*?)\\end\{equation\}], DOTALL *)
Definition equation_env : regex :=
  Word "\begin{equation}" +> Grp 1 (Star false AnyChar) +> Word "\end{equation}".

(** [\\((?:sub)*(?:sub)*section)\{([^}]+)\}] *)
Definition section_pattern : regex :=
  Chr BACKSLASH +> Grp 1 (Star true (Word "sub") +> Star true (Word "sub") +> Word "section")
    +> Chr LBRACE +> Grp 2 (Plus true (NotChr RBRACE)) +> Chr RBRACE.

(** [\\title\{([^}]+)\}] *)
Definition title_decl : regex :=
  Word "\title{" +> Grp 1 (Plus true (NotChr RBRACE)) +> Chr RBRACE.
(** [\\(?:sub)*section\{([^}]+)\}] *)
Definition first_section : regex :=
  Chr BACKSLASH +> Star true (Word "sub") +> Word "section{"
    +> Grp 1 (Plus true (NotChr RBRACE)) +> Chr RBRACE.

(** [\\begin\{document\}(.*?)\\end\{document\}], DOTALL *)
Definition document_env : regex :=
  Word "\begin{document}" +> Grp 1 (Star false AnyChar) +> Word "\end{document}".
(** [\\documentclass.*?\n], [\\usepackage.*?\n], [\\newtheorem.*?\n] *)
Definition line_of (command : string) : regex :=
  Chr BACKSLASH +> Word command +> Star false NotNewline +> Chr NL.
(** [\\title\{.*?\}\n?], [\\author\{.*?\}\n?], [\\date\{.*?\}\n?], DOTALL *)
Definition declaration (command : string) : regex :=
  Chr BACKSLASH +> Word command +> Chr LBRACE +> Star false AnyChar +> Chr RBRACE
    +> Opt (Chr NL).
(** [\\maketitle\n?] *)
Definition maketitle : regex := Word "\maketitle" +> Opt (Chr NL).
End BlockPat.

(** ** The body extractor *)

Definition erase (r : regex) (text : str) : str := re_sub r (fun _ => []) text.

(** [LatexParser._extract_document_body] *)
Definition _extract_document_body (tex_content : str) : str :=
  match re_search BlockPat.document_env tex_content with
  | Some m => group 1 m
  | None =>
      let c := erase (BlockPat.line_of "documentclass") tex_content in
      let c := erase (BlockPat.line_of "usepackage") c in
      let c := erase (BlockPat.declaration "title") c in
      let c := erase (BlockPat.declaration "author") c in
      let c := erase (BlockPat.declaration "date") c in
      let c := erase BlockPat.maketitle c in
      let c := erase (BlockPat.line_of "newtheorem") c in
      strip c
  end.

(** [LatexParser._extract_document_title]; [None] is Python's [None]. *)
Definition _extract_document_title (tex_content : str) : option str :=
  match re_search BlockPat.title_decl tex_content with
  | Some m => Some (_clean_latex_text (group 1 m))
  | None =>
      match re_search BlockPat.first_section tex_content with
      | Some m => Some (_clean_latex_text (group 1 m))
      | None => None
      end
  end.

(** [x or y] for an optional string [x]: [None] and the empty string are
    both false. *)
Definition or_else (x : option str) (y : str) : str :=
  match x with
  | Some (c :: s) => c :: s
  | Some [] | None => y
  end.

Definition document_title (tex_content : str) : str :=
  or_else (_extract_document_title tex_content) (lit "LaTeX Document").

(** ** The block extractor: [_add_structured_content_to_section] *)

Inductive etype : Type := EEquation | ETheorem | EParagraph | EExplanation.

(** The dictionaries of [all_elements] and [enhanced_elements];
    [e_explanation] is [None] when the key is absent. *)
Record element : Type := mkElement {
  e_type : etype;
  e_content : str;
  e_start : nat;
  e_end : nat;
  e_title : str;
  e_explanation : option str
}.

Definition is_empty (s : str) : bool := match s with [] => true | _ :: _ => false end.

(** [eq_content]: the inner text of a match of an equation pattern, stripped *)
Definition inner_text (m : rematch) : str :=
  strip (if 2 <=? lastindex m then group 2 m else group 1 m).

(** The body of the loop over the matches of one equation pattern. *)
Definition equation_element (m : rematch) : list element :=
  let eq_content := inner_text m in
  if is_empty eq_content then []
  else [mkElement EEquation eq_content (m_start m) (m_end m) (lit "Key Equation") None].

Definition equation_patterns : list regex :=
  [BlockPat.math_env; BlockPat.bracket_math; BlockPat.dollar_display].

(** The matches of the three equation patterns, pattern after pattern. *)
Definition equation_matches (content : str) : list rematch :=
  flat_map (fun pattern => finditer pattern content) equation_patterns.

Definition equation_elements (content : str) : list element :=
  flat_map equation_element (equation_matches content).

Definition theorem_element (m : rematch) : element :=
  mkElement ETheorem (_clean_latex_text (group 2 m)) (m_start m) (m_end m)
            (title_case (group 1 m)) None.

Definition theorem_elements (content : str) : list element :=
  map theorem_element (finditer BlockPat.theorem_env content).

Definition paragraph_element (m : rematch) : list element :=
  let para_title := or_else (Some (_clean_latex_text (group 1 m))) (lit "Note") in
  let para_content := _clean_latex_text (group 2 m) in
  if is_empty para_content then []
  else [mkElement EParagraph para_content (m_start m) (m_end m) para_title None].

Definition paragraph_elements (content : str) : list element :=
  flat_map paragraph_element (finditer BlockPat.paragraph content).

(** [all_elements.sort(key=lambda x: x['start'])]: the sort of Python is
    stable; so is this insertion sort. *)
Fixpoint insert_by_start (x : element) (l : list element) : list element :=
  match l with
  | [] => [x]
  | y :: tl => if e_start x <=? e_start y then x :: y :: tl else y :: insert_by_start x tl
  end.

Definition sort_by_start (l : list element) : list element := foldr insert_by_start [] l.

Definition all_elements (content : str) : list element :=
  sort_by_start (equation_elements content ++ theorem_elements content
                 ++ paragraph_elements content).

(** [text and not re.match(r'^\\[a-zA-Z]+', text)] *)
Definition is_prose (text : str) : bool :=
  negb (is_empty text)
  && match re_match BlockPat.command_start text with Some _ => false | None => true end.

Definition with_explanation (x : str) (e : element) : element :=
  mkElement (e_type e) (e_content e) (e_start e) (e_end e) (e_title e) (Some x).

(** An update of [enhanced_elements[-1]] *)
Definition update_last (f : element -> element) (l : list element) : list element :=
  match reverse l with
  | [] => []
  | e :: tl => reverse (f e :: tl)
  end.

(** The text before an element: it extends the explanation of a preceding
    equation. *)
Definition attach_before (content : str) (last_end : nat) (e : element)
    (enhanced : list element) : list element :=
  if last_end <? e_start e then
    let text_before := strip (slice content last_end (e_start e)) in
    if is_prose text_before then
      let text_before_clean := _clean_latex_text text_before in
      if is_empty text_before_clean then enhanced
      else
        match last enhanced with
        | Some prev =>
            match e_type prev with
            | EEquation =>
                match e_explanation prev with
                | None => update_last (with_explanation text_before_clean) enhanced
                | Some x =>
                    update_last (with_explanation (x ++ [SPACE] ++ text_before_clean)) enhanced
                end
            | _ => enhanced
            end
        | None => enhanced
        end
    else enhanced
  else enhanced.

(** The text after an element, up to the next one. *)
Definition attach_after (content : str) (e : element) (next_start : nat)
    (enhanced : list element) : list element :=
  let text_after := strip (slice content (e_end e) next_start) in
  if is_prose text_after then
    let text_after_clean := _clean_latex_text text_after in
    if is_empty text_after_clean then enhanced
    else
      match e_type e with
      | EEquation => update_last (with_explanation text_after_clean) enhanced
      | _ => enhanced ++ [mkElement EExplanation text_after_clean (e_end e) next_start
                                    (lit "Explanation") None]
      end
  else enhanced.

(** The loop that builds [enhanced_elements]; [elements] is the part of
    [all_elements] still to visit. *)
Fixpoint enhance (content : str) (elements : list element) (last_end : nat)
    (enhanced : list element) : list element :=
  match elements with
  | [] => enhanced
  | e :: rest =>
      let enhanced := attach_before content last_end e enhanced in
      let enhanced := enhanced ++ [e] in
      let next_start := match rest with
                        | e' :: _ => e_start e'
                        | [] => length content
                        end in
      let enhanced := attach_after content e next_start enhanced in
      enhance content rest next_start enhanced
  end.

Definition enhanced_elements (content : str) : list element :=
  enhance content (all_elements content) 0 [].

Definition display (s : str) : str := lit "$$" ++ s ++ lit "$$".

(** The node made from one enhanced element, at a given level. *)
Definition element_node (lv : Z) (e : element) : MindMapNode :=
  match e_type e with
  | EEquation =>
      match e_explanation e with
      | Some (c :: x) =>
          mkNode (lit "Key Equation") (display (e_content e) ++ [SPACE] ++ c :: x)
                 (lit "equation_with_explanation") [] lv
      | Some [] | None =>
          mkNode (lit "Key Equation") (display (e_content e)) (lit "equation") [] lv
      end
  | ETheorem => mkNode (e_title e) (e_content e) (lit "theorem") [] lv
  | EParagraph => mkNode (e_title e) (e_content e) (lit "paragraph") [] lv
  | EExplanation => mkNode (e_title e) (e_content e) (lit "explanation") [] lv
  end.

(** A new object for [n], appended to the children of [parent]. *)
Definition attach (parent : nat) (n : MindMapNode) (h : store) : store :=
  add_child parent (length h) (h ++ [n]).

Definition level_of (h : store) (i : nat) : Z :=
  match h !! i with
  | Some n => level n
  | None => 0
  end.

(** [_add_structured_content_to_section(content, section_node)]; the level of
    the section is read once per node, and never changes. *)
Definition _add_structured_content_to_section (content : str) (section_node : nat)
    (h : store) : store :=
  foldl (fun h e => attach section_node (element_node (level_of h section_node + 1) e) h)
        h (enhanced_elements content).

(** ** The structural segmenter *)

Definition math_patterns : list regex :=
  [ BlockPat.begin_math; BlockPat.open_bracket; BlockPat.double_dollar;
    BlockPat.paragraph_start; BlockPat.begin_theorem ].

(** The loop over [math_patterns] shared by [_extract_main_text] and
    [_extract_remaining_content]. *)
Definition first_math_pos (content : str) : nat :=
  foldl (fun pos pattern =>
           match re_search pattern content with
           | Some m => if m_start m <? pos then m_start m else pos
           | None => pos
           end)
        (length content) math_patterns.

Definition _extract_main_text (content : str) : str :=
  let main_text := strip (take (first_math_pos content) content) in
  if is_empty main_text then [] else _clean_latex_text main_text.

Definition _extract_remaining_content (content : str) : str :=
  if first_math_pos content <? length content
  then strip (drop (first_math_pos content) content)
  else [].

(** The section stack: a dictionary from levels to node objects. *)
Abbreviation stack := (gmap Z nat).

(** [max(section_stack.keys())]; [None] for an empty dictionary, where Python
    raises [ValueError].  The stack always holds the root at level 0. *)
Definition max_key (s : stack) : option Z :=
  match (map_to_list s).*1 with
  | [] => None
  | k :: tl => Some (foldr Z.max k tl)
  end.

(** [section_stack.get(max(section_stack.keys()))] *)
Definition current_section (s : stack) : option nat :=
  match max_key s with
  | Some k => s !! k
  | None => None
  end.

(** One theorem-like environment of loose content. *)
Definition loose_theorem (cur : nat) (m : rematch) (h : store) : store :=
  let env_name := group 1 m in
  let env_content := _clean_latex_text (group 2 m) in
  match h !! cur with
  | Some n =>
      if str_eqb env_name (lit "definition") && is_empty (content n)
         && bool_decide (children n = [])
      then alter (with_definition env_content) cur h
      else attach cur (mkNode (title_case env_name) env_content env_name [] (level n + 1)) h
  | None => h
  end.

Definition loose_equation (cur : nat) (m : rematch) (h : store) : store :=
  attach cur (mkNode (lit "Equation") (display (strip (group 1 m))) (lit "equation") []
                     (level_of h cur + 1)) h.

(** [_add_content_to_current_section(content, section_stack)] *)
Definition _add_content_to_current_section (content : str) (s : stack) (h : store) : store :=
  match current_section s with
  | None => h
  | Some cur =>
      let h := foldl (fun h m => loose_theorem cur m h) h
                     (finditer BlockPat.theorem_env content) in
      foldl (fun h m => loose_equation cur m h) h (finditer BlockPat.equation_env content)
  end.

(** [while parent_level >= 0 and parent_level not in section_stack:
       parent_level -= 1] *)
Fixpoint find_parent (s : stack) (fuel : nat) (parent_level : Z) : Z :=
  match fuel with
  | O => parent_level
  | S f =>
      if (0 <=? parent_level)%Z && bool_decide (s !! parent_level = None)
      then find_parent s f (parent_level - 1)
      else parent_level
  end.

(** [for l in list(section_stack.keys()): if l > level: del section_stack[l]] *)
Definition clear_deeper (lv : Z) (s : stack) : stack :=
  filter (fun kv : Z * nat => (kv.1 <= lv)%Z) s.

Record seg_state : Type := SegState {
  sg_store : store;
  sg_stack : stack;
  current_pos : nat
}.

(** The first part of a turn of the loop of [_parse_with_regex_fallback]: the
    text before the match [m] goes to the current section. *)
Definition pre_content_step (content : str) (m : rematch) (st : seg_state) : store :=
  if current_pos st <? m_start m then
    let pre_content := strip (slice content (current_pos st) (m_start m)) in
    if is_empty pre_content then sg_store st
    else _add_content_to_current_section pre_content (sg_stack st) (sg_store st)
  else sg_store st.

(** The rest of the turn: the section node is created, put below its parent
    and on the stack, and given the structured content that follows it. *)
Definition open_section (section_content : str) (m : rematch) (s : stack) (h : store)
  : store * stack :=
  let section_type := group 1 m in
  let section_title := _clean_latex_text (group 2 m) in
  let lv := dict_get SECTION_LEVELS section_type 2 in
  let main_text := _extract_main_text section_content in
  let section_node := length h in
  let h := new_node section_title main_text section_type lv h in
  let parent_level := find_parent s (Z.to_nat lv) (lv - 1) in
  let h :=
    if (0 <=? parent_level)%Z then
      match s !! parent_level with
      | Some p => add_child p section_node h
      | None => h
      end
    else h in
  let s := clear_deeper lv (<[lv := section_node]> s) in
  let remaining_content := _extract_remaining_content section_content in
  let h :=
    if is_empty remaining_content then h
    else _add_structured_content_to_section remaining_content section_node h in
  (h, s).

(** One turn of the loop, for the match [m]; [next_match_start] is the start
    of the next match, or the length of the text for the last one. *)
Definition section_step (content : str) (m : rematch) (next_match_start : nat)
    (st : seg_state) : seg_state :=
  let h := pre_content_step content m st in
  let section_content := strip (slice content (m_end m) next_match_start) in
  let '(h, s) := open_section section_content m (sg_stack st) h in
  SegState h s next_match_start.

Fixpoint section_loop (content : str) (matches : list rematch) (st : seg_state) : seg_state :=
  match matches with
  | [] => st
  | m :: rest =>
      let next_match_start := match rest with
                              | m' :: _ => m_start m'
                              | [] => length content
                              end in
      section_loop content rest (section_step content m next_match_start st)
  end.

(** [_parse_with_regex_fallback(content, root)], the root being the object 0
    of the store [h]. *)
Definition _parse_with_regex_fallback (content : str) (h : store) : store :=
  let matches := finditer BlockPat.section_pattern content in
  let st := section_loop content matches (SegState h {[ 0%Z := 0 ]} 0) in
  if current_pos st <? length content then
    let remaining_content := strip (drop (current_pos st) content) in
    if is_empty remaining_content then sg_store st
    else _add_content_to_current_section remaining_content (sg_stack st) (sg_store st)
  else sg_store st.

(** [LatexParser.parse]: the store it leaves; the root it returns is the
    object 0. *)
Definition parse (tex_content : str) : store :=
  let body := _extract_document_body tex_content in
  let root := mkNode (document_title tex_content) [] (lit "document") [] 0 in
  _parse_with_regex_fallback body [root].

(** The tree below an object of the store, as [to_dict] reads it. *)
#[warnings="-register-all"]
Inductive tree : Type :=
| Tree (t c ty : str) (lv : Z) (kids : list tree).

Fixpoint to_tree (fuel : nat) (h : store) (i : nat) : option tree :=
  match fuel with
  | O => None
  | S f =>
      match h !! i with
      | Some n =>
          match mapM (to_tree f h) (children n) with
          | Some kids => Some (Tree (title n) (content n) (node_type n) (level n) kids)
          | None => None
          end
      | None => None
      end
  end.

(** ** The outline renderer: [MindMapFormatter] *)

(** [re.split(r, text)] for a pattern without groups *)
Fixpoint split_at (text : str) (cur : nat) (ms : list rematch) : list str :=
  match ms with
  | [] => [drop cur text]
  | m :: tl => slice text cur (m_start m) :: split_at text (m_end m) tl
  end.

Definition re_split (r : regex) (text : str) : list str := split_at text 0 (finditer r text).

Definition one_of (cs : list N) (c : N) : bool := existsb (N.eqb c) cs.

(** [(?<=[.!?])\s+] *)
Definition sentence_break : regex :=
  Seq (Behind (one_of [chr "."; chr "!"; chr "?"])) (Plus true (Cls is_space)).

Definition discourse_markers : list str :=
  [lit "therefore"; lit "thus"; lit "however"; lit "moreover"; lit "furthermore"].

(** [any(word in sentence.lower() for word in [...])].  The markers are made
    of ASCII letters that no other character has as its lower case, so
    lowering the letters A-Z decides the test. *)
Definition has_marker (sentence : str) : bool :=
  existsb (fun word => contains word (map to_lower sentence)) discourse_markers.

(** The loop of [_format_text_for_display] over the sentences. *)
Fixpoint group_sentences (sentences : list str) (current_paragraph : list str)
    (formatted : list str) : list str :=
  match sentences with
  | [] =>
      match current_paragraph with
      | [] => formatted
      | _ :: _ => formatted ++ [join [SPACE] current_paragraph]
      end
  | sentence :: tl =>
      let current_paragraph := current_paragraph ++ [strip sentence] in
      if (3 <=? length current_paragraph) || has_marker sentence
      then group_sentences tl [] (formatted ++ [join [SPACE] current_paragraph])
      else group_sentences tl current_paragraph formatted
  end.

Definition _format_text_for_display (text : str) : str :=
  join (lit "<br><br>") (group_sentences (re_split sentence_break text) [] []).

(** The two symbols that open the summary labels, as the source file has
    them: four characters each. *)
Definition chart_mark : str := [240; 376; 8220; 352]%N.
Definition book_mark : str := [240; 376; 8220; 8211]%N.

(** [<details><summary>{label}</summary><div style=...>{body}</div></details>] *)
Definition details (label body : str) : str :=
  lit "<details><summary>" ++ label ++
  lit "</summary><div style='max-width:400px;text-align:left;line-height:1.4;'>" ++
  body ++ lit "</div></details>".

(** [title if len(title) <= 50 else title[:47] + "..."] *)
Definition short_title (t : str) : str :=
  if length t <=? 50 then t else take 47 t ++ lit "...".

(** [s.split(sep, 1)] *)
Fixpoint split_once (sep s cur : str) : list str :=
  match s with
  | [] => [reverse cur]
  | c :: tl =>
      if starts_with sep s then [reverse cur; drop (length sep) s]
      else split_once sep tl (c :: cur)
  end.

(** The title line of a node in [format_node]. *)
Definition format_title (markmap_mode : bool) (truncate_at : Z) (t c ty : str) : str :=
  if negb (is_empty c) && negb (str_eqb c t) then
    if str_eqb ty (lit "equation_with_explanation") && markmap_mode then
      if contains (lit "$$") c then
        match split (lit "$$") c with
        | _ :: formula :: p :: parts =>
            let formula := display formula in
            let explanation := strip (join (lit "$$") (p :: parts)) in
            if is_empty explanation then t ++ [SPACE] ++ formula
            else t ++ [SPACE] ++ formula ++ [SPACE]
                   ++ details (chart_mark ++ lit " Explanation")
                              (_format_text_for_display explanation)
        | _ => t ++ [SPACE] ++ c
        end
      else t
    else if markmap_mode && (truncate_at <? Z.of_nat (length c))%Z then
      if starts_with [DOLLAR] c then short_title t ++ [SPACE] ++ c
      else if str_eqb ty (lit "equation_with_explanation") then
        match split_once (lit "$$ ") c [] with
        | [formula; explanation] =>
            short_title t ++ [SPACE] ++ formula ++ lit "$$" ++ [SPACE]
              ++ details (chart_mark ++ lit " Explanation")
                         (_format_text_for_display (strip explanation))
        | _ =>
            short_title t ++ [SPACE]
              ++ details (chart_mark ++ lit " Details")
                         (_format_text_for_display (strip (replace (lit "\n") [SPACE] c)))
        end
      else
        let content_clean := strip (replace [NL] [SPACE] c) in
        let summary_label :=
          if str_eqb ty (lit "section_with_definition")
          then book_mark ++ lit " Definition" else book_mark ++ lit " Details" in
        short_title t ++ [SPACE] ++ details summary_label (_format_text_for_display content_clean)
    else if 200 <? length c then
      if starts_with [DOLLAR] c then t ++ [SPACE] ++ c
      else t ++ lit ": " ++ take 200 c ++ lit "..."
    else
      if starts_with [DOLLAR] c then t ++ [SPACE] ++ c
      else t ++ lit ": " ++ c
  else t.

(** [format_node(node, depth)] *)
Fixpoint format_node (max_depth : Z) (markmap_mode : bool) (truncate_at : Z)
    (node : tree) (depth : nat) : str :=
  match node with
  | Tree t c ty _ kids =>
      if (max_depth <? Z.of_nat depth)%Z then []
      else
        concat (replicate depth (lit "  ")) ++ lit "- "
          ++ format_title markmap_mode truncate_at t c ty ++ [NL]
          ++ concat (map (fun child => format_node max_depth markmap_mode truncate_at child
                                                   (S depth)) kids)
  end.

(** [MindMapFormatter.to_markdown(root, max_depth, markmap_mode, truncate_at)] *)
Definition to_markdown (root : tree) (max_depth : Z) (markmap_mode : bool)
    (truncate_at : Z) : str :=
  match root with
  | Tree t _ _ _ kids =>
      lit "# " ++ t ++ [NL; NL]
        ++ concat (map (fun child => format_node max_depth markmap_mode truncate_at child 0) kids)
  end.

(** ** The list handler of the full-parser path: [_handle_list_environment]

    The nodes of the external parser are taken by what the program reads of
    them: their class, [chars], [macroname], the result of [latex_verbatim()]
    and [nodelist]. *)

#[warnings="-register-all"]
Inductive latex_node : Type :=
| LatexCharsNode (chars : str)
| LatexMathNode (latex_verbatim : str)
| LatexMacroNode (macroname : str) (latex_verbatim : str)
| LatexVerbatimNode (latex_verbatim : str)      (* another object with [latex_verbatim] *)
| LatexListNode (nodelist : list latex_node).   (* an object that has a [nodelist] only *)

(** [_nodes_to_text([node])] and [_nodes_to_text(nodes)] *)
Fixpoint node_to_text (node : latex_node) : str :=
  match node with
  | LatexCharsNode chars => chars
  | LatexMathNode v => v
  | LatexMacroNode _ v => v
  | LatexVerbatimNode v => v
  | LatexListNode nodelist => concat (map node_to_text nodelist)
  end.

Definition _nodes_to_text (nodes : list latex_node) : str := concat (map node_to_text nodes).

(** [isinstance(child, LatexMacroNode) and child.macroname == 'item'] *)
Definition is_item (child : latex_node) : bool :=
  match child with
  | LatexMacroNode macroname _ => str_eqb macroname (lit "item")
  | _ => false
  end.

(** The item node for the text gathered in [current_item]. *)
Definition item_node (lv : Z) (current_item : str) : MindMapNode :=
  mkNode (if 100 <? length current_item
          then take 100 (_clean_latex_text current_item) ++ lit "..."
          else _clean_latex_text current_item)
         (_clean_latex_text current_item) (lit "item") [] lv.

(** [if current_item.strip(): ... list_node.add_child(item_node)] *)
Definition flush_item (list_node : nat) (current_item : str) (h : store) : store :=
  if is_empty (strip current_item) then h
  else attach list_node (item_node (level_of h list_node + 1) current_item) h.

(** The loop over [node.nodelist], and the last item after it. *)
Fixpoint items_loop (list_node : nat) (nodelist : list latex_node) (current_item : str)
    (h : store) : store :=
  match nodelist with
  | [] => flush_item list_node current_item h
  | child :: rest =>
      if is_item child then items_loop list_node rest [] (flush_item list_node current_item h)
      else items_loop list_node rest (current_item ++ _nodes_to_text [child]) h
  end.

Definition _handle_list_environment (environmentname : str) (nodelist : list latex_node)
    (parent : nat) (h : store) : store :=
  let list_node := length h in
  let h := attach parent (mkNode (title_case environmentname ++ lit " List") []
                                 environmentname [] (level_of h parent + 1)) h in
  match nodelist with
  | [] => h
  | _ :: _ => items_loop list_node nodelist [] h
  end.

(** ** Notions used in the statements *)

(** The objects a call has added to the store [h]. *)
Definition new_nodes (h h' : store) : list MindMapNode := drop (length h) h'.


Definition has_kind (kind : str) (n : MindMapNode) : bool := str_eqb (node_type n) kind.

(** The kinds of the nodes the block extractor makes. *)
Definition block_kinds : list str :=
  [lit "equation"; lit "equation_with_explanation"; lit "theorem"; lit "paragraph";
   lit "explanation"].

Definition is_explanation (e : element) : bool :=
  match e_type e with
  | EExplanation => true
  | _ => false
  end.

(** An element without its explanation. *)
Definition core (e : element) : etype * str * str := (e_type e, e_content e, e_title e).

Definition count {A : Type} (p : A -> bool) (l : list A) : nat := length (List.filter p l).

(** The elements of [enhanced_elements] that are no explanations, without
    their explanation. *)
Definition kept (l : list element) : list (etype * str * str) :=
  map core (List.filter (fun e => negb (is_explanation e)) l).

Definition with_children (cs : list nat) (n : MindMapNode) : MindMapNode :=
  mkNode (title n) (content n) (node_type n) (children n ++ cs) (level n).

(** Several new objects appended to the children of one parent. *)
Definition attach_all (parent : nat) (ns : list MindMapNode) (h : store) : store :=
  foldl (fun h n => attach parent n h) h ns.


(** A node list cut at its [\item] macros: the nodes before the first one,
    then each macro (given by its verbatim text) with the nodes that follow
    it. *)
Definition item_macro (v : str) : latex_node := LatexMacroNode (lit "item") v.

Definition with_items (first : list latex_node) (items : list (str * list latex_node))
  : list latex_node :=
  first ++ concat (map (fun it => item_macro it.1 :: it.2) items).

Definition no_item (nodes : list latex_node) : Prop := Forall (fun n => is_item n = false) nodes.

Definition is_blank (s : str) : bool := is_empty (strip s).

(** The texts between the macros that are not blank. *)
Definition item_texts (first : list latex_node) (items : list (str * list latex_node))
  : list str :=
  List.filter (fun r => negb (is_blank r))
              (_nodes_to_text first :: map (fun it => _nodes_to_text it.2) items).

Definition flush_all (list_node : nat) (runs : list str) (h : store) : store :=
  foldl (fun h r => flush_item list_node r h) h runs.

(** *** What a match of a pattern is

    [Matches r st w st']: from the state [st], the pattern [r] can match the
    text [w] and leave the state [st'].  The matcher only returns matches of
    this relation; which one it returns is fixed by its search order.  A
    negative look-ahead is not constrained here. *)
Inductive Matches : regex -> mstate -> str -> mstate -> Prop :=
| M_eps st : Matches Eps st [] st
| M_cls p c tl st :
    ms_rest st = c :: tl -> p c = true -> Matches (Cls p) st [c] (advance c tl st)
| M_seq a b st w1 st1 w2 st2 :
    Matches a st w1 st1 -> Matches b st1 w2 st2 -> Matches (Seq a b) st (w1 ++ w2) st2
| M_alt_l a b st w st' : Matches a st w st' -> Matches (Alt a b) st w st'
| M_alt_r a b st w st' : Matches b st w st' -> Matches (Alt a b) st w st'
| M_star_stop g a st : Matches (Star g a) st [] st
| M_star_step g a st w1 st1 w2 st2 :
    Matches a st w1 st1 -> Matches (Star g a) st1 w2 st2 ->
    Matches (Star g a) st (w1 ++ w2) st2
| M_grp n a st w st' : Matches a st w st' -> Matches (Grp n a) st w (close_group n st st')
| M_ref n st w :
    group_lookup n (ms_groups st) = Some w -> starts_with w (ms_rest st) = true ->
    Matches (Ref n) st w (skip (length w) st)
| M_ahead a st w st' : Matches a st w st' -> Matches (Ahead true a) st [] st
| M_not_ahead a st : Matches (Ahead false a) st [] st
| M_behind p c st : ms_prev st = Some c -> p c = true -> Matches (Behind p) st [] st
| M_bos st : ms_pos st = 0 -> Matches Bos st [] st
| M_eos st : ms_rest st = [] -> Matches Eos st [] st.

(** A matcher that only returns matches of [a]. *)
Definition sound (a : regex) (body : matcher) : Prop :=
  forall st k e, body st k = Some e -> exists w st', Matches a st w st' /\ k st' = Some e.

(** A pattern without capturing groups. *)
Fixpoint groupless (r : regex) : bool :=
  match r with
  | Seq a b | Alt a b => groupless a && groupless b
  | Star _ a => groupless a
  | Grp _ _ => false
  | Ahead _ _ => true
  | _ => true
  end.

(** The name of a command of the section family: [sub] any number of times,
    then [section]. *)
Definition section_name (k : nat) : str := concat (replicate k (lit "sub")) ++ lit "section".

(** The level of such a command: [SECTION_LEVELS.get(name, 2)]. *)
Definition section_level (k : nat) : Z :=
  match k with
  | 0 => 2
  | 1 => 3
  | 2 => 4
  | _ => 2
  end.

(** [m] is a match of [r] in [text]: the pattern matches the text of [m] at
    the place of [m], and the groups of [m] are those of that match. *)
Definition match_of (r : regex) (text : str) (m : rematch) : Prop :=
  exists b e,
    Matches r b (m_text m) e /\ ms_groups b = [] /\ ms_pos b = m_start m
    /\ ms_rest b = drop (m_start m) text /\ m_end m = m_start m + length (m_text m)
    /\ m_groups m = ms_groups e /\ m_end m <= length text.

(** *** Invariants of the store *)

(** Every child is an object of the store, at a level strictly greater than
    the level of its parent. *)
Definition levels_increase (h : store) : Prop :=
  forall i n c, h !! i = Some n -> c ∈ children n ->
                exists m, h !! c = Some m /\ (level n < level m)%Z.

(** The section stack holds the root at level 0, and at every level an
    object of that level. *)
Definition stack_ok (h : store) (s : stack) : Prop :=
  s !! 0%Z = Some 0
  /\ forall l j, s !! l = Some j -> exists n, h !! j = Some n /\ level n = l.

(** [h'] has the objects of [h], with the same titles and levels, and with
    the same children, possibly followed by new ones. *)
Definition grows (h h' : store) : Prop :=
  length h <= length h'
  /\ forall i n, h !! i = Some n ->
       exists n', h' !! i = Some n' /\ title n' = title n /\ level n' = level n
                  /\ children n `prefix_of` children n'.

(** The object [i] of [h] has the same title, content, kind and level in
    [h']. *)
Definition keeps (i : nat) (h h' : store) : Prop :=
  forall n, h !! i = Some n ->
    exists n', h' !! i = Some n' /\ title n' = title n /\ content n' = content n
               /\ node_type n' = node_type n /\ level n' = level n.

(** A node fresh from its constructor, to be put below a parent. *)
Definition fresh_below (lv : Z) (n : MindMapNode) : Prop :=
  children n = [] /\ (lv < level n)%Z.

(** The object [i] of the store [h] is the section node of the match [m] in
    [body]: the match is the text of a command of the section family with its
    argument, and the node has the name of the command as kind, its level,
    the sanitized argument as title, and a parent. *)
Definition section_node_of (body : str) (h : store) (m : rematch) (i : nat) : Prop :=
  exists k node p parent,
    slice body (m_start m) (m_end m)
    = [BACKSLASH] ++ section_name k ++ [LBRACE] ++ group 2 m ++ [RBRACE]
    /\ group 1 m = section_name k
    /\ h !! i = Some node
    /\ node_type node = section_name k
    /\ level node = section_level k
    /\ title node = _clean_latex_text (group 2 m)
    /\ h !! p = Some parent /\ i ∈ children parent.


(** *** Plain text and whitespace normalization *)

Definition is_markup (c : N) : bool :=
  ((c =? BACKSLASH) || (c =? LBRACE) || (c =? RBRACE) || (c =? DOLLAR))%N.

(** Text without backslash, brace or dollar sign: no command, no group, no
    math delimiter. *)
Definition plain (t : str) : Prop := Forall (fun c => is_markup c = false) t.

Definition detilde (c : N) : N := if (c =? TILDE)%N then SPACE else c.

(** Every run of whitespace becomes one space; [in_run] tells that the
    character before was whitespace. *)
Fixpoint collapse (in_run : bool) (t : str) : str :=
  match t with
  | [] => []
  | c :: tl =>
      if is_space c then (if in_run then collapse true tl else SPACE :: collapse true tl)
      else c :: collapse false tl
  end.

(** Whitespace normalization: a tilde counts as a space, runs of whitespace
    become one space, and the ends are trimmed. *)
Definition normalize (t : str) : str := strip (collapse false (map detilde t)).

(** The length of the run of characters of a class at the beginning. *)
Fixpoint run_length (p : N -> bool) (t : str) : nat :=
  match t with
  | c :: tl => if p c then S (run_length p tl) else 0
  | [] => 0
  end.

(** Leftmost non-overlapping replacement, for a pattern whose matches at the
    beginning of a text have the length [mlen] gives. *)
Fixpoint replace_runs (mlen : str -> option nat) (new : str) (fuel : nat) (t : str) : str :=
  match fuel with
  | O => t
  | S f =>
      match mlen t with
      | Some n => new ++ replace_runs mlen new f (drop n t)
      | None =>
          match t with
          | [] => []
          | c :: tl => c :: replace_runs mlen new f tl
          end
      end
  end.

(** A pattern without groups whose match at a place depends on the text from
    there on only. *)
Definition scans_by (r : regex) (mlen : str -> option nat) : Prop :=
  (forall pos prev rest,
      match_here r pos prev rest
      = match mlen rest with
        | Some n => Some (ReMatch pos (pos + n) (take n rest) [])
        | None => None
        end)
  /\ (forall rest n, mlen rest = Some n -> 0 < n <= length rest).

Definition tilde_length (t : str) : option nat :=
  match t with
  | c :: _ => if (TILDE =? c)%N then Some 1 else None
  | [] => None
  end.

Definition spaces_length (t : str) : option nat :=
  match run_length is_space t with
  | O => None
  | S n => Some (S n)
  end.

(** Text in which whitespace is made of single spaces; [after_space] tells
    that the character before is a space. *)
Fixpoint tidy (after_space : bool) (s : str) : Prop :=
  match s with
  | [] => True
  | c :: tl =>
      if is_space c then c = SPACE /\ after_space = false /\ tidy true tl
      else tidy false tl
  end.

Definition starts_black (s : str) : Prop :=
  match s with
  | c :: _ => is_space c = false
  | [] => True
  end.

(** The text does not begin with a character of the class. *)
Definition starts_black_for (p : N -> bool) (s : str) : Prop :=
  match s with
  | c :: _ => p c = false
  | [] => True
  end.

(** ** The shape of the store *)

(** [built h h']: the store [h'] comes from [h] by the two updates the
    parser makes: a fresh object without children is appended and listed
    last among the children of an object already there, or a definition is
    merged into an object. *)
Inductive built : store -> store -> Prop :=
| built_refl h : built h h
| built_attach h h' p node :
    built h h' -> p < length h' -> children node = [] -> built h (attach p node h')
| built_merge h h' c i : built h h' -> built h (alter (with_definition c) i h').

(** All the child references of a store, object after object. *)
Definition child_refs (h : store) : list nat := concat (map children h).

(** Every child was created after its parent, and is in the store. *)
Definition children_later (h : store) : Prop :=
  forall i n c, h !! i = Some n -> c ∈ children n -> i < c < length h.

(** ** The shape of the outline *)


(** A list of positions in ascending order. *)
Fixpoint ascending (l : list nat) : Prop :=
  match l with
  | [] => True
  | a :: tl => Forall (fun b => a <= b) tl /\ ascending tl
  end.

(** ** The controls of the page: [add_markmap_controls.py]

    [add_controls_to_html] reads the page, puts a block of HTML and script
    into it, and writes it back.  This is the step in between, on the text of
    the page.  The source holds the block as a literal; here it is the
    argument [controls_html], and what is proved holds for every block. *)
Definition body_end : str := lit "</body>".

Definition add_controls (controls_html html_content : str) : str :=
  if contains body_end html_content
  then replace body_end (controls_html ++ [NL] ++ body_end) html_content
  else html_content ++ controls_html.

(** The text of a section command with its argument, and what follows it. *)
Definition section_then (arg post : str) : str :=
  [BACKSLASH] ++ lit "section" ++ [LBRACE] ++ arg ++ [RBRACE] ++ post.

(** The text of a command with a brace argument, and what follows it. *)
Definition command_then (name arg post : str) : str :=
  [BACKSLASH] ++ name ++ [LBRACE] ++ arg ++ [RBRACE] ++ post.

(** The sectioning commands of [SECTION_LEVELS] outside the section family. *)
Definition other_sectioning_commands : list str :=
  [lit "part"; lit "chapter"; lit "paragraph"; lit "subparagraph"].





(** * Properties *)

(** ** The pipeline on concrete documents *)

(** Scenario 1 of the specification: a section with a subsection. *)
Example parse_scenario_1 :
  parse (lit "\section{Intro}Hello world.\subsection{Background}More text.")
  = [ mkNode (lit "Intro") [] (lit "document") [1] 0;
      mkNode (lit "Intro") (lit "Hello world.") (lit "section") [2] 2;
      mkNode (lit "Background") (lit "More text.") (lit "subsection") [] 3 ].
Proof. vm_compute. reflexivity. Qed.

(** Scenario 2: an equation alone in a section. *)
Example parse_scenario_2 :
  parse (lit "\section{S}\begin{equation}E=mc^2\end{equation}")
  = [ mkNode (lit "S") [] (lit "document") [1] 0;
      mkNode (lit "S") [] (lit "section") [2] 2;
      mkNode (lit "Key Equation") (lit "$$E=mc^2$$") (lit "equation") [] 3 ].
Proof. vm_compute. reflexivity. Qed.

(** Scenario 4: an environment that is never closed is left out. *)
Example parse_scenario_4 :
  parse (lit "\section{S}\begin{theorem}X")
  = [ mkNode (lit "S") [] (lit "document") [1] 0;
      mkNode (lit "S") [] (lit "section") [] 2 ].
Proof. vm_compute. reflexivity. Qed.

(** The outline of Scenario 1, in plain and in compact mode. *)
Example outline_scenario_1 :
  (fun root => to_markdown root 10 false 100)
    <$> to_tree 3 (parse (lit "\section{Intro}Hello world.\subsection{Background}More text.")) 0
  = Some (lit "# Intro" ++ [NL; NL] ++ lit "- Intro: Hello world." ++ [NL]
            ++ lit "  - Background: More text." ++ [NL]).
Proof. vm_compute. reflexivity. Qed.

(** C3, at the input of Scenario 3: a section whose whole content is one
    definition environment keeps the kind [section] and an empty content, and
    the definition becomes a child of kind [theorem]; nothing is merged. *)
Theorem section_definition_not_merged :
  parse (lit "\section{W}\begin{definition}A widget is...\end{definition}")
  = [ mkNode (lit "W") [] (lit "document") [1] 0;
      mkNode (lit "W") [] (lit "section") [2] 2;
      mkNode (lit "Definition") (lit "A widget is...") (lit "theorem") [] 3 ].
Proof. vm_compute. reflexivity. Qed.

(** C4, at a lemma environment inside a section: the node made by the block
    extractor has the title [Lemma] and the sanitized body as content, but its
    kind is [theorem], not [lemma]. *)
Theorem lemma_node_has_kind_theorem :
  parse (lit "\section{S}\begin{lemma}Every \emph{x} is.\end{lemma}")
  = [ mkNode (lit "S") [] (lit "document") [1] 0;
      mkNode (lit "S") [] (lit "section") [2] 2;
      mkNode (lit "Lemma") (lit "Every x is.") (lit "theorem") [] 3 ].
Proof. vm_compute. reflexivity. Qed.

(** The same environment as loose text before any section keeps its name as
    kind: [_add_content_to_current_section] does what the block extractor
    does not. *)
Example loose_lemma_keeps_its_kind :
  parse (lit "intro \begin{lemma}L\end{lemma}\section{S}")
  = [ mkNode (lit "S") [] (lit "document") [1; 2] 0;
      mkNode (lit "Lemma") (lit "L") (lit "lemma") [] 1;
      mkNode (lit "S") [] (lit "section") [] 2 ].
Proof. vm_compute. reflexivity. Qed.

(** C5, at two inline math spans: a span with a parenthesis inside is not
    protected and loses part of a command; a dollar span inside a
    parenthesis span is replaced by its placeholder for good. *)
Theorem inline_math_not_preserved :
  _clean_latex_text (lit "\(\sin(x)\)") = lit "\(n(x)\)"
  /\ _clean_latex_text (lit "\($x$\)") = lit "\(__MATH_PLACEHOLDER_0__\)".
Proof. split; vm_compute; reflexivity. Qed.

(** C6, at a document whose loose text is a definition: the root ends with
    the kind [section_with_definition]. *)
Theorem root_kind_after_loose_definition :
  parse (lit "\begin{definition}A widget is...\end{definition}")
  = [ mkNode (lit "LaTeX Document") (lit "A widget is...")
             (lit "section_with_definition") [] 0 ].
Proof. vm_compute. reflexivity. Qed.

(** ** The outline renderer in compact mode *)






(** ** The block extractor: elements and nodes *)



Lemma count_map {A B : Type} (f : A -> B) (p : B -> bool) (l : list A) :
  count p (map f l) = count (fun x => p (f x)) l.
Proof.
  unfold count. induction l as [|x l IH]; simpl; [reflexivity|].
  destruct (p (f x)); simpl; congruence.
Qed.

Lemma count_ext {A : Type} (p q : A -> bool) (l : list A) :
  (forall x, x ∈ l -> p x = q x) -> count p l = count q l.
Proof.
  unfold count. induction l as [|x l IH]; intros H; simpl; [reflexivity|].
  rewrite (H x) by constructor.
  destruct (q x); simpl; rewrite IH; auto; intros; apply H; constructor; assumption.
Qed.



Lemma insert_by_start_perm (x : element) (l : list element) :
  Permutation (insert_by_start x l) (x :: l).
Proof.
  induction l as [|y l IH]; simpl; [reflexivity|].
  destruct (e_start x <=? e_start y); [reflexivity|].
  rewrite IH. apply perm_swap.
Qed.

Lemma sort_by_start_perm (l : list element) : Permutation (sort_by_start l) l.
Proof.
  unfold sort_by_start. induction l as [|x l IH]; simpl; [reflexivity|].
  rewrite insert_by_start_perm. constructor. exact IH.
Qed.

Lemma all_elements_perm (content : str) :
  Permutation (all_elements content)
              (equation_elements content ++ theorem_elements content
               ++ paragraph_elements content).
Proof. apply sort_by_start_perm. Qed.

Lemma equation_elements_type (content : str) (e : element) :
  e ∈ equation_elements content -> e_type e = EEquation.
Proof.
  unfold equation_elements. rewrite list_elem_of_In, in_flat_map.
  intros (m & _ & H). unfold equation_element in H.
  destruct (is_empty (inner_text m)); simpl in H; [tauto|].
  destruct H as [<-|[]]. reflexivity.
Qed.

Lemma theorem_elements_type (content : str) (e : element) :
  e ∈ theorem_elements content -> e_type e = ETheorem.
Proof.
  unfold theorem_elements. rewrite list_elem_of_In, in_map_iff.
  intros (m & <- & _). reflexivity.
Qed.

Lemma paragraph_elements_type (content : str) (e : element) :
  e ∈ paragraph_elements content -> e_type e = EParagraph.
Proof.
  unfold paragraph_elements. rewrite list_elem_of_In, in_flat_map.
  intros (m & _ & H). unfold paragraph_element in H.
  destruct (is_empty _); simpl in H; [tauto|].
  destruct H as [<-|[]]. reflexivity.
Qed.

Lemma all_elements_type (content : str) (e : element) :
  e ∈ all_elements content -> is_explanation e = false.
Proof.
  rewrite (all_elements_perm content), !elem_of_app. unfold is_explanation.
  intros [H|[H|H]].
  - rewrite (equation_elements_type _ _ H). reflexivity.
  - rewrite (theorem_elements_type _ _ H). reflexivity.
  - rewrite (paragraph_elements_type _ _ H). reflexivity.
Qed.

Lemma equation_elements_length (content : str) :
  length (equation_elements content)
  = count (fun m => negb (is_empty (inner_text m))) (equation_matches content).
Proof.
  unfold equation_elements, count.
  induction (equation_matches content) as [|m l IH]; simpl; [reflexivity|].
  rewrite length_app, IH. unfold equation_element.
  destruct (is_empty (inner_text m)); reflexivity.
Qed.

(** *** The enhancement loop keeps every element, once and in order *)

Lemma kept_app (l1 l2 : list element) : kept (l1 ++ l2) = kept l1 ++ kept l2.
Proof. unfold kept. rewrite List.filter_app, map_app. reflexivity. Qed.

Lemma update_last_snoc (f : element -> element) (l : list element) (e : element) :
  update_last f (l ++ [e]) = l ++ [f e].
Proof.
  unfold update_last. rewrite reverse_app. simpl.
  rewrite reverse_cons, reverse_involutive. reflexivity.
Qed.

Lemma update_last_nil (f : element -> element) : update_last f [] = [].
Proof. reflexivity. Qed.

Lemma kept_update_last (x : str) (l : list element) :
  kept (update_last (with_explanation x) l) = kept l.
Proof.
  destruct l as [|e l] using rev_ind; [reflexivity|].
  rewrite update_last_snoc, !kept_app. f_equal.
  unfold kept, is_explanation. simpl. destruct (e_type e); reflexivity.
Qed.

Lemma length_update_last (f : element -> element) (l : list element) :
  length (update_last f l) = length l.
Proof.
  destruct l as [|e l] using rev_ind; [reflexivity|].
  rewrite update_last_snoc, !length_app. reflexivity.
Qed.

Lemma kept_attach_before (content : str) (last_end : nat) (e : element) (enh : list element) :
  kept (attach_before content last_end e enh) = kept enh.
Proof.
  unfold attach_before.
  repeat match goal with
         | |- context [if ?b then _ else _] => destruct b
         | |- context [match ?x with _ => _ end] => destruct x
         end; try reflexivity; apply kept_update_last.
Qed.

Lemma kept_attach_after (content : str) (e : element) (next_start : nat) (enh : list element) :
  kept (attach_after content e next_start enh) = kept enh.
Proof.
  unfold attach_after.
  repeat match goal with
         | |- context [if ?b then _ else _] => destruct b
         | |- context [match ?x with _ => _ end] => destruct x
         end; try reflexivity; try apply kept_update_last;
    rewrite kept_app; unfold kept; simpl; apply app_nil_r.
Qed.

Lemma kept_enhance (content : str) (els : list element) (last_end : nat) (enh : list element) :
  (forall e, e ∈ els -> is_explanation e = false) ->
  kept (enhance content els last_end enh) = kept enh ++ map core els.
Proof.
  revert last_end enh. induction els as [|e els IH]; intros last_end enh Hty; simpl.
  - rewrite app_nil_r. reflexivity.
  - rewrite IH by (intros; apply Hty; constructor; assumption).
    rewrite kept_attach_after, kept_app, kept_attach_before, <- app_assoc.
    f_equal. unfold kept. simpl. rewrite (Hty e) by constructor. reflexivity.
Qed.

Lemma kept_enhanced_elements (content : str) :
  kept (enhanced_elements content) = map core (all_elements content).
Proof.
  unfold enhanced_elements. rewrite kept_enhance; [reflexivity|].
  apply all_elements_type.
Qed.

(** *** What a call adds to the store *)

Lemma attach_valid (i : nat) (node : MindMapNode) (h : store) :
  i < length h -> attach i node h = alter (with_child (length h)) i h ++ [node].
Proof. intros Hi. unfold attach, add_child. apply alter_app_l. exact Hi. Qed.

Lemma with_children_nil (n : MindMapNode) : with_children [] n = n.
Proof. destruct n. unfold with_children. simpl. rewrite app_nil_r. reflexivity. Qed.

Lemma with_children_child (cs : list nat) (c : nat) (n : MindMapNode) :
  with_children cs (with_child c n) = with_children (c :: cs) n.
Proof. unfold with_children, with_child. simpl. rewrite <- app_assoc. reflexivity. Qed.

Lemma attach_all_valid (i : nat) (ns : list MindMapNode) (h : store) :
  i < length h ->
  attach_all i ns h = alter (with_children (seq (length h) (length ns))) i h ++ ns.
Proof.
  unfold attach_all. revert h. induction ns as [|nd ns IH]; intros h Hi; simpl.
  - rewrite app_nil_r. symmetry. apply list_alter_id. apply with_children_nil.
  - rewrite attach_valid by exact Hi.
    rewrite IH by (rewrite length_app, length_alter; simpl; lia).
    rewrite length_app, length_alter. simpl.
    rewrite alter_app_l by (rewrite length_alter; exact Hi).
    rewrite <- app_assoc. simpl. f_equal.
    rewrite list_alter_alter_eq. apply list_alter_ext; [|reflexivity].
    intros n _. simpl. rewrite with_children_child.
    replace (length h + 1) with (S (length h)) by lia. reflexivity.
Qed.

Lemma level_of_attach (i j : nat) (node : MindMapNode) (h : store) :
  i < length h -> level_of (attach j node h) i = level_of h i.
Proof.
  intros Hi. unfold level_of, attach, add_child.
  destruct (decide (j = i)) as [->|Hne].
  - rewrite list_lookup_alter_eq, lookup_app_l by exact Hi.
    destruct (h !! i); reflexivity.
  - rewrite list_lookup_alter_ne, lookup_app_l by assumption. reflexivity.
Qed.

Lemma length_attach (i : nat) (node : MindMapNode) (h : store) :
  length (attach i node h) = S (length h).
Proof. unfold attach, add_child. rewrite length_alter, length_app. simpl. lia. Qed.

(** The block extractor appends the nodes of the enhanced elements, all at
    the level below the section, and lists them as children of the section. *)
Lemma add_structured_content_spec (content : str) (i : nat) (h : store) :
  i < length h ->
  _add_structured_content_to_section content i h
  = attach_all i (map (element_node (level_of h i + 1)) (enhanced_elements content)) h.
Proof.
  intros Hi. unfold _add_structured_content_to_section, attach_all.
  generalize (enhanced_elements content) as es.
  intros es. remember (level_of h i) as lv eqn:Hlv.
  assert (Hinv : level_of h i = lv) by congruence. clear Hlv.
  revert h Hi Hinv. induction es as [|e es IH]; intros h Hi Hinv; simpl; [reflexivity|].
  rewrite Hinv. apply IH.
  - rewrite length_attach. lia.
  - rewrite level_of_attach by exact Hi. exact Hinv.
Qed.

Lemma new_nodes_structured (content : str) (i : nat) (h : store) :
  i < length h ->
  new_nodes h (_add_structured_content_to_section content i h)
  = map (element_node (level_of h i + 1)) (enhanced_elements content).
Proof.
  intros Hi. unfold new_nodes.
  rewrite add_structured_content_spec, attach_all_valid by exact Hi.
  rewrite drop_app_length'; [reflexivity|]. symmetry. apply length_alter.
Qed.

(** *** The kind of the node of an element *)

Lemma element_node_kind (lv : Z) (e : element) :
  node_type (element_node lv e)
  = match e_type e with
    | EEquation =>
        match e_explanation e with
        | Some (_ :: _) => lit "equation_with_explanation"
        | _ => lit "equation"
        end
    | ETheorem => lit "theorem"
    | EParagraph => lit "paragraph"
    | EExplanation => lit "explanation"
    end.
Proof.
  unfold element_node. destruct (e_type e); try reflexivity.
  destruct (e_explanation e) as [[|c x]|]; reflexivity.
Qed.


Lemma element_node_block_kind (lv : Z) (e : element) :
  node_type (element_node lv e) ∈ block_kinds.
Proof.
  rewrite element_node_kind. unfold block_kinds.
  destruct (e_type e); [destruct (e_explanation e) as [[|c x]|]| | |];
    rewrite !elem_of_cons; auto 10.
Qed.

Lemma element_node_level (lv : Z) (e : element) : level (element_node lv e) = lv.
Proof.
  unfold element_node.
  destruct (e_type e); [destruct (e_explanation e) as [[|c x]|]| | |]; reflexivity.
Qed.




Lemma clean_empty : _clean_latex_text [] = [].
Proof. reflexivity. Qed.



(** The same content, evaluated: the blank equation leaves no node, the empty
    theorem a node with an empty content. *)
Example blank_equation_and_empty_theorem :
  _add_structured_content_to_section (lit "$$ $$\begin{theorem}\end{theorem}") 0
    [mkNode (lit "S") [] (lit "section") [] 2]
  = [ mkNode (lit "S") [] (lit "section") [1] 2;
      mkNode (lit "Theorem") [] (lit "theorem") [] 3 ].
Proof. vm_compute. reflexivity. Qed.

(** ** The list handler *)

Lemma nodes_to_text_cons (child : latex_node) (nodes : list latex_node) :
  _nodes_to_text (child :: nodes) = _nodes_to_text [child] ++ _nodes_to_text nodes.
Proof. unfold _nodes_to_text. simpl. rewrite app_nil_r. reflexivity. Qed.

Lemma items_loop_no_item (L : nat) (first rest : list latex_node) (cur : str) (h : store) :
  no_item first ->
  items_loop L (first ++ rest) cur h = items_loop L rest (cur ++ _nodes_to_text first) h.
Proof.
  intros Hno. revert cur. induction Hno as [|child first Hc _ IH]; intros cur; simpl.
  - unfold _nodes_to_text. simpl. rewrite app_nil_r. reflexivity.
  - rewrite Hc, IH, (nodes_to_text_cons child first), app_assoc. reflexivity.
Qed.

Lemma items_loop_runs (L : nat) (items : list (str * list latex_node))
    (first : list latex_node) (cur : str) (h : store) :
  no_item first -> Forall (fun it => no_item it.2) items ->
  items_loop L (with_items first items) cur h
  = flush_all L ((cur ++ _nodes_to_text first) :: map (fun it => _nodes_to_text it.2) items) h.
Proof.
  intros Hfirst Hitems. revert first cur h Hfirst.
  induction Hitems as [|[v seg] items Hseg _ IH]; intros first cur h Hfirst;
    unfold with_items; rewrite items_loop_no_item by exact Hfirst; simpl.
  - reflexivity.
  - change (items_loop L (with_items seg items) [] (flush_item L (cur ++ _nodes_to_text first) h)
            = flush_all L (_nodes_to_text seg :: map (fun it => _nodes_to_text it.2) items)
                (flush_item L (cur ++ _nodes_to_text first) h)).
    rewrite IH by exact Hseg. reflexivity.
Qed.

Lemma flush_all_attach (L : nat) (lv : Z) (runs : list str) (h : store) :
  L < length h -> level_of h L = lv ->
  flush_all L runs h
  = attach_all L (map (item_node (lv + 1)) (List.filter (fun r => negb (is_blank r)) runs)) h.
Proof.
  unfold flush_all, attach_all. revert h.
  induction runs as [|r runs IH]; intros h HL Hlv; simpl; [reflexivity|].
  unfold flush_item at 2. unfold is_blank at 1.
  destruct (is_empty (strip r)); simpl.
  - apply IH; assumption.
  - rewrite Hlv. apply IH.
    + rewrite length_attach. lia.
    + rewrite level_of_attach by exact HL. exact Hlv.
Qed.

(** What [_handle_list_environment] leaves in the store. *)
Lemma handle_list_environment_spec (env : str) (first : list latex_node)
    (items : list (str * list latex_node)) (parent : nat) (h : store) :
  parent < length h -> no_item first -> Forall (fun it => no_item it.2) items ->
  _handle_list_environment env (with_items first items) parent h
  = alter (with_child (length h)) parent h
      ++ [mkNode (title_case env ++ lit " List") [] env
                 (seq (S (length h)) (length (item_texts first items)))
                 (level_of h parent + 1)]
      ++ map (item_node (level_of h parent + 1 + 1)) (item_texts first items).
Proof.
  intros Hp Hfirst Hitems. unfold _handle_list_environment.
  set (list_node := mkNode (title_case env ++ lit " List") [] env [] (level_of h parent + 1)).
  assert (Hloop : items_loop (length h) (with_items first items) [] (attach parent list_node h)
                  = alter (with_child (length h)) parent h
                      ++ [with_children (seq (S (length h)) (length (item_texts first items)))
                                        list_node]
                      ++ map (item_node (level_of h parent + 1 + 1)) (item_texts first items)).
  { rewrite items_loop_runs by assumption. rewrite app_nil_l.
    rewrite (flush_all_attach _ (level_of h parent + 1)).
    - rewrite attach_all_valid by (rewrite length_attach; lia).
      rewrite length_attach, length_map, attach_valid by exact Hp.
      rewrite alter_app_r_alt by (rewrite length_alter; lia).
      rewrite length_alter, Nat.sub_diag, <- app_assoc. reflexivity.
    - rewrite length_attach. lia.
    - unfold level_of. rewrite attach_valid by exact Hp.
      rewrite lookup_app_r by (rewrite length_alter; lia).
      rewrite length_alter, Nat.sub_diag. reflexivity. }
  destruct (with_items first items) as [|child nodes] eqn:E.
  - destruct first; [|discriminate]. destruct items; [|discriminate].
    unfold item_texts. simpl. unfold is_blank. simpl.
    rewrite attach_valid by exact Hp. reflexivity.
  - exact Hloop.
Qed.

Lemma element_node_is_explanation (lv : Z) (e : element) :
  has_kind (lit "explanation") (element_node lv e) = is_explanation e.
Proof.
  unfold has_kind, is_explanation. rewrite element_node_kind.
  destruct (e_type e); try reflexivity.
  destruct (e_explanation e) as [[|c x]|]; reflexivity.
Qed.

Lemma paragraph_elements_length (span : str) :
  length (paragraph_elements span)
  = count (fun m => negb (is_empty (_clean_latex_text (group 2 m))))
          (finditer BlockPat.paragraph span).
Proof.
  unfold paragraph_elements, count.
  induction (finditer BlockPat.paragraph span) as [|m l IH]; simpl; [reflexivity|].
  rewrite length_app, IH. unfold paragraph_element.
  destruct (is_empty (_clean_latex_text (group 2 m))); reflexivity.
Qed.

Lemma count_elements_enhanced (span : str) :
  count (fun e => negb (is_explanation e)) (enhanced_elements span)
  = length (all_elements span).
Proof.
  transitivity (length (kept (enhanced_elements span))).
  - unfold kept, count. rewrite length_map. reflexivity.
  - rewrite kept_enhanced_elements, length_map. reflexivity.
Qed.

(** A list alone in a section is folded into the text of the section. *)
Example list_alone_in_section :
  parse (lit "\section{S}\begin{itemize}\item a\item b\end{itemize}")
  = [ mkNode (lit "S") [] (lit "document") [1] 0;
      mkNode (lit "S") (lit "itemize a bitemize") (lit "section") [] 2 ].
Proof. vm_compute. reflexivity. Qed.

(** X23.  The list handler, given the node list of a list
    environment cut at its item macros, appends the list container to the
    parent (kind: the environment name, level: one below the parent) and
    gives it one item child per text between the macros that is not blank, in
    order, one level below the container, with the sanitized text as content
    and as title, the title cut after 100 characters and followed by an
    ellipsis when the raw text has more than 100.  The block extractor creates
    nodes of five kinds only, none of them a list or an item, and exactly one
    node that is no explanation for every equation match with a non-blank
    inner text, every theorem-like match and every paragraph match with a
    non-empty sanitized body. *)
Theorem list_handler_and_block_nodes
    (env : str) (first : list latex_node) (items : list (str * list latex_node))
    (parent section_node : nat) (span : str) (h : store) :
  parent < length h -> no_item first -> Forall (fun it => no_item it.2) items ->
  section_node < length h ->
  _handle_list_environment env (with_items first items) parent h
  = alter (with_child (length h)) parent h
      ++ [mkNode (title_case env ++ lit " List") [] env
                 (seq (S (length h)) (length (item_texts first items)))
                 (level_of h parent + 1)]
      ++ map (fun text =>
                mkNode (if 100 <? length text
                        then take 100 (_clean_latex_text text) ++ lit "..."
                        else _clean_latex_text text)
                       (_clean_latex_text text) (lit "item") [] (level_of h parent + 1 + 1))
             (item_texts first items)
  /\ (forall node,
        node ∈ new_nodes h (_add_structured_content_to_section span section_node h) ->
        node_type node ∈ block_kinds)
  /\ count (fun node => negb (has_kind (lit "explanation") node))
           (new_nodes h (_add_structured_content_to_section span section_node h))
     = count (fun m => negb (is_empty (inner_text m))) (equation_matches span)
       + length (finditer BlockPat.theorem_env span)
       + count (fun m => negb (is_empty (_clean_latex_text (group 2 m))))
               (finditer BlockPat.paragraph span).
Proof.
  intros Hp Hfirst Hitems Hs. split; [|split].
  - apply handle_list_environment_spec; assumption.
  - intros node. rewrite new_nodes_structured by exact Hs.
    intros Hin. apply list_elem_of_fmap_1 in Hin as (e & -> & _).
    apply element_node_block_kind.
  - rewrite new_nodes_structured, count_map by exact Hs.
    rewrite (count_ext _ (fun e => negb (is_explanation e)))
      by (intros; rewrite element_node_is_explanation; reflexivity).
    rewrite count_elements_enhanced.
    rewrite (Permutation_length (all_elements_perm span)), !length_app.
    rewrite equation_elements_length, paragraph_elements_length.
    unfold theorem_elements. rewrite length_map. lia.
Qed.

Lemma list_handler_and_block_nodes_witness :
  _handle_list_environment (lit "itemize")
    [ item_macro (lit "\item"); LatexCharsNode (lit " first \emph{point} ");
      item_macro (lit "\item"); LatexCharsNode (lit "  ");
      item_macro (lit "\item"); LatexCharsNode (lit " last") ]
    0 [mkNode (lit "S") [] (lit "section") [] 2]
  = [ mkNode (lit "S") [] (lit "section") [1] 2;
      mkNode (lit "Itemize List") [] (lit "itemize") [2; 3] 3;
      mkNode (lit "first point") (lit "first point") (lit "item") [] 4;
      mkNode (lit "last") (lit "last") (lit "item") [] 4 ]
  /\ Forall (fun node => node_type node ∈ block_kinds)
       (new_nodes [mkNode (lit "S") [] (lit "section") [] 2]
          (_add_structured_content_to_section (lit "$$x$$ so \[ \]") 0
             [mkNode (lit "S") [] (lit "section") [] 2]))
  /\ count (fun node => negb (has_kind (lit "explanation") node))
           (new_nodes [mkNode (lit "S") [] (lit "section") [] 2]
              (_add_structured_content_to_section (lit "$$x$$ so \[ \]") 0
                 [mkNode (lit "S") [] (lit "section") [] 2]))
     = 1.
Proof.
  destruct (list_handler_and_block_nodes (lit "itemize") []
              [ (lit "\item", [LatexCharsNode (lit " first \emph{point} ")]);
                (lit "\item", [LatexCharsNode (lit "  ")]);
                (lit "\item", [LatexCharsNode (lit " last")]) ]
              0 0 (lit "$$x$$ so \[ \]") [mkNode (lit "S") [] (lit "section") [] 2])
    as (H & Hkinds & Hcount).
  - simpl. lia.
  - constructor.
  - repeat constructor.
  - simpl. lia.
  - split; [|split].
    + etransitivity; [exact H|]. vm_compute. reflexivity.
    + apply Forall_forall. exact Hkinds.
    + rewrite Hcount. vm_compute. reflexivity.
Defined.

(** ** The matcher returns matches only *)

Lemma rstar_sound (a : regex) (body : matcher) (g : bool) :
  sound a body -> forall fuel, sound (Star g a) (rstar body g fuel).
Proof.
  intros Hbody fuel. induction fuel as [|f IH]; intros st k e H; simpl in H.
  - exists [], st. split; [constructor | exact H].
  - assert (Hmore : forall e',
        body st (fun st' => if ms_pos st <? ms_pos st' then rstar body g f st' k else None)
        = Some e' ->
        exists w st', Matches (Star g a) st w st' /\ k st' = Some e').
    { intros e' H'. apply Hbody in H' as (w1 & st1 & Hm1 & H').
      destruct (ms_pos st <? ms_pos st1); [|discriminate].
      apply IH in H' as (w2 & st2 & Hm2 & H').
      exists (w1 ++ w2), st2. split; [econstructor; eassumption | exact H']. }
    destruct g.
    + destruct (body st _) as [e'|] eqn:E.
      * injection H as <-. apply Hmore. reflexivity.
      * exists [], st. split; [constructor | exact H].
    + destruct (k st) as [e'|] eqn:E.
      * injection H as <-. exists [], st. split; [constructor | exact E].
      * apply Hmore. exact H.
Qed.

Lemma rmatch_sound (r : regex) : sound r (rmatch r).
Proof.
  induction r as [|p|a IHa b IHb|a IHa b IHb|g a IHa|n a IHa|n|positive a IHa|p| |];
    intros st k e H; cbn [rmatch] in H.
  - exists [], st. split; [constructor | exact H].
  - destruct (ms_rest st) as [|c tl] eqn:E; [discriminate|].
    destruct (p c) eqn:Ep; [|discriminate].
    exists [c], (advance c tl st). split; [constructor; assumption | exact H].
  - apply IHa in H as (w1 & st1 & Hm1 & H). apply IHb in H as (w2 & st2 & Hm2 & H).
    exists (w1 ++ w2), st2. split; [econstructor; eassumption | exact H].
  - destruct (rmatch a st k) as [e'|] eqn:E.
    + injection H as <-. apply IHa in E as (w & st' & Hm & E).
      exists w, st'. split; [apply M_alt_l; exact Hm | exact E].
    + apply IHb in H as (w & st' & Hm & H).
      exists w, st'. split; [apply M_alt_r; exact Hm | exact H].
  - exact (rstar_sound a (rmatch a) g IHa _ st k e H).
  - apply IHa in H as (w & st' & Hm & H).
    exists w, (close_group n st st'). split; [constructor; exact Hm | exact H].
  - destruct (group_lookup n (ms_groups st)) as [w|] eqn:E; [|discriminate].
    destruct (starts_with w (ms_rest st)) eqn:Es; [|discriminate].
    exists w, (skip (length w) st). split; [constructor; assumption | exact H].
  - destruct (rmatch a st Some) as [x|] eqn:E.
    + destruct positive; [|discriminate].
      apply IHa in E as (w & st' & Hm & _).
      exists [], st. split; [econstructor; exact Hm | exact H].
    + destruct positive; [discriminate|].
      exists [], st. split; [constructor | exact H].
  - destruct (ms_prev st) as [c|] eqn:E; [|discriminate].
    destruct (p c) eqn:Ep; [|discriminate].
    exists [], st. split; [econstructor; eassumption | exact H].
  - destruct (ms_pos st =? 0) eqn:E; [|discriminate]. apply Nat.eqb_eq in E.
    exists [], st. split; [constructor; exact E | exact H].
  - destruct (ms_rest st) eqn:E; [|discriminate].
    exists [], st. split; [constructor; exact E | exact H].
Qed.

(** A match consumes the text it matched. *)
Lemma skip_prefix (w : str) (st : mstate) :
  starts_with w (ms_rest st) = true ->
  ms_rest st = w ++ ms_rest (skip (length w) st)
  /\ ms_pos (skip (length w) st) = ms_pos st + length w
  /\ ms_groups (skip (length w) st) = ms_groups st.
Proof.
  revert st. induction w as [|c w IH]; intros st H; simpl.
  - split; [reflexivity | split; [lia | reflexivity]].
  - simpl in H. destruct (ms_rest st) as [|c' tl] eqn:E; [discriminate|].
    apply andb_true_iff in H as [Hc H]. apply N.eqb_eq in Hc. subst c'.
    destruct (IH (advance c tl st) H) as (H1 & H2 & H3). simpl in *.
    split; [congruence | split; [lia | exact H3]].
Qed.

Lemma Matches_consumes (r : regex) (st : mstate) (w : str) (st' : mstate) :
  Matches r st w st' ->
  ms_rest st = w ++ ms_rest st' /\ ms_pos st' = ms_pos st + length w.
Proof.
  induction 1; simpl; try (split; [reflexivity | lia]).
  - split; [assumption | lia].
  - destruct IHMatches1 as [R1 P1], IHMatches2 as [R2 P2].
    rewrite length_app, <- app_assoc. split; [congruence | lia].
  - assumption.
  - assumption.
  - destruct IHMatches1 as [R1 P1], IHMatches2 as [R2 P2].
    rewrite length_app, <- app_assoc. split; [congruence | lia].
  - assumption.
  - destruct (skip_prefix w st H0) as (H1 & H2 & _). split; assumption.
Qed.

Lemma Matches_groupless (r : regex) (st : mstate) (w : str) (st' : mstate) :
  Matches r st w st' -> groupless r = true -> ms_groups st' = ms_groups st.
Proof.
  induction 1; simpl; intros G; try reflexivity.
  - apply andb_true_iff in G as [G1 G2]. rewrite IHMatches2, IHMatches1; auto.
  - apply andb_true_iff in G as [G1 G2]. auto.
  - apply andb_true_iff in G as [G1 G2]. auto.
  - rewrite IHMatches2, IHMatches1; auto.
  - discriminate.
  - destruct (skip_prefix w st H0) as (_ & _ & H3). exact H3.
Qed.

(** The text a group captures is the text its pattern matched. *)
Lemma Matches_grp_inv (n : nat) (a : regex) (st : mstate) (w : str) (st' : mstate) :
  Matches (Grp n a) st w st' ->
  exists st1, Matches a st w st1 /\ ms_groups st' = (n, w) :: ms_groups st1
              /\ ms_rest st' = ms_rest st1 /\ ms_pos st' = ms_pos st1.
Proof.
  inversion 1 as [| | | | | | |n' a' st0 w0 st1 Hm| | | | | |]; subst.
  exists st1. split; [assumption|]. simpl.
  destruct (Matches_consumes _ _ _ _ Hm) as [R P].
  rewrite R, P, Nat.add_comm, Nat.add_sub, take_app_length. auto.
Qed.

Lemma Matches_seq_inv (a b : regex) (st : mstate) (w : str) (st' : mstate) :
  Matches (Seq a b) st w st' ->
  exists w1 st1 w2, w = w1 ++ w2 /\ Matches a st w1 st1 /\ Matches b st1 w2 st'.
Proof. inversion 1; subst. eauto 10. Qed.

Lemma Matches_cls_inv (p : N -> bool) (st : mstate) (w : str) (st' : mstate) :
  Matches (Cls p) st w st' ->
  exists c, w = [c] /\ p c = true /\ ms_groups st' = ms_groups st.
Proof. inversion 1; subst. eauto. Qed.

Lemma Matches_chr_inv (c : N) (st : mstate) (w : str) (st' : mstate) :
  Matches (Chr c) st w st' -> w = [c] /\ ms_groups st' = ms_groups st.
Proof.
  intros H. apply Matches_cls_inv in H as (c' & -> & Hc & G).
  apply N.eqb_eq in Hc. subst. auto.
Qed.

Lemma Matches_lits_inv (s : str) (st : mstate) (w : str) (st' : mstate) :
  Matches (Lits s) st w st' -> w = s /\ ms_groups st' = ms_groups st.
Proof.
  revert st w. induction s as [|c s IH]; intros st w H.
  - inversion H; subst. auto.
  - destruct s as [|c' s].
    + apply Matches_chr_inv in H. exact H.
    + change (Lits (c :: c' :: s)) with (Seq (Chr c) (Lits (c' :: s))) in H.
      apply Matches_seq_inv in H as (w1 & st1 & w2 & -> & H1 & H2).
      apply Matches_chr_inv in H1 as [-> G1]. apply IH in H2 as [-> G2].
      split; [reflexivity | congruence].
Qed.

Lemma Matches_star_lits_inv (g : bool) (s : str) (st : mstate) (w : str) (st' : mstate) :
  Matches (Star g (Lits s)) st w st' ->
  exists k, w = concat (replicate k s) /\ ms_groups st' = ms_groups st.
Proof.
  remember (Star g (Lits s)) as r eqn:Hr. induction 1; try discriminate.
  - exists 0. auto.
  - injection Hr as -> ->. destruct (IHMatches2 eq_refl) as (k & -> & G2).
    apply Matches_lits_inv in H as [-> G1].
    exists (S k). split; [reflexivity | congruence].
Qed.

(** ** The matches [finditer] returns *)

Lemma match_here_sound (r : regex) (text : str) (pos : nat) (prev : option N) (m : rematch) :
  pos <= length text ->
  match_here r pos prev (drop pos text) = Some m -> match_of r text m /\ m_start m = pos.
Proof.
  intros Hpos H. unfold match_here in H.
  destruct (rmatch r _ Some) as [e|] eqn:E; [|discriminate]. injection H as <-.
  apply rmatch_sound in E as (w & e' & Hm & He). injection He as ->.
  destruct (Matches_consumes _ _ _ _ Hm) as [R P]. simpl in R, P.
  split; [|reflexivity].
  exists (MState pos prev (drop pos text) []), e. unfold mk_match. simpl.
  assert (Htext : take (ms_pos e - pos) (drop pos text) = w).
  { rewrite R, P, Nat.add_comm, Nat.add_sub, take_app_length. reflexivity. }
  rewrite Htext. repeat split; try reflexivity; try assumption.
  apply (f_equal length) in R. rewrite length_drop, length_app in R. lia.
Qed.

Lemma search_at_sound (r : regex) (text : str) (rest : str) (pos : nat) (prev : option N)
    (m : rematch) :
  rest = drop pos text -> pos <= length text ->
  search_at r pos prev rest = Some m -> match_of r text m /\ pos <= m_start m.
Proof.
  revert pos prev. induction rest as [|c tl IH]; intros pos prev Hrest Hpos H; simpl in H.
  - destruct (match_here r pos prev []) as [m'|] eqn:E; [|discriminate].
    injection H as ->. rewrite Hrest in E.
    apply match_here_sound in E as [Hm Hs]; [|exact Hpos]. split; [exact Hm | lia].
  - destruct (match_here r pos prev (c :: tl)) as [m'|] eqn:E.
    + injection H as ->. rewrite Hrest in E.
      apply match_here_sound in E as [Hm Hs]; [|exact Hpos]. split; [exact Hm | lia].
    + assert (Hlen : pos < length text).
      { apply (f_equal length) in Hrest. rewrite length_drop in Hrest. simpl in Hrest. lia. }
      apply IH in H as [Hm Hs]; [split; [exact Hm | lia] | | lia].
      replace (S pos) with (pos + 1) by lia. rewrite <- drop_drop, <- Hrest. reflexivity.
Qed.

Lemma finditer_from_sound (r : regex) (text : str) (fuel pos : nat) (prev : option N) :
  pos <= length text ->
  Forall (fun m => match_of r text m /\ pos <= m_start m)
         (finditer_from r fuel pos prev (drop pos text)).
Proof.
  revert pos prev. induction fuel as [|f IH]; intros pos prev Hpos; simpl; [constructor|].
  destruct (search_at r pos prev (drop pos text)) as [m|] eqn:E; [|constructor].
  apply search_at_sound with (text := text) in E as [Hm Hs]; [|reflexivity|exact Hpos].
  constructor; [split; assumption|].
  assert (Hend : m_end m <= length text /\ m_start m <= m_end m).
  { destruct Hm as (b & e & _ & _ & _ & _ & He & _ & Hle). lia. }
  destruct Hend as [Hend Hse].
  rewrite drop_drop. replace (pos + (m_end m - pos)) with (m_end m) by lia.
  destruct (m_start m <? m_end m).
  - eapply Forall_impl; [apply IH; exact Hend|]. simpl. intros m' [H1 H2]. split; [exact H1|lia].
  - destruct (drop (m_end m) text) as [|c tl] eqn:Ed; [constructor|].
    assert (Hlt : m_end m < length text).
    { apply (f_equal length) in Ed. rewrite length_drop in Ed. simpl in Ed. lia. }
    assert (Htl : tl = drop (S (m_end m)) text).
    { replace (S (m_end m)) with (m_end m + 1) by lia. rewrite <- drop_drop, Ed. reflexivity. }
    rewrite Htl. eapply Forall_impl; [apply IH; lia|].
    simpl. intros m' [H1 H2]. split; [exact H1|lia].
Qed.

Lemma finditer_sound (r : regex) (text : str) : Forall (match_of r text) (finditer r text).
Proof.
  unfold finditer. eapply Forall_impl.
  - apply (finditer_from_sound r text (S (length text)) 0 None). lia.
  - simpl. tauto.
Qed.

(** *** The matches of the sectioning pattern *)

Lemma section_pattern_groups (body : str) (m : rematch) :
  match_of BlockPat.section_pattern body m ->
  exists k, m_groups m = [(2, group 2 m); (1, section_name k)]
            /\ m_text m = [BACKSLASH] ++ section_name k ++ [LBRACE] ++ group 2 m ++ [RBRACE].
Proof.
  intros (b & e & Hm & Hb & _ & _ & _ & Hg & _).
  unfold BlockPat.section_pattern in Hm.
  apply Matches_seq_inv in Hm as (w0 & s0 & w' & Hw & H0 & Hm).
  apply Matches_chr_inv in H0 as [-> G0].
  apply Matches_seq_inv in Hm as (w1 & s1 & w'' & -> & H1 & Hm).
  apply Matches_grp_inv in H1 as (s1' & H1 & G1 & _ & _).
  apply Matches_seq_inv in H1 as (wa & sa & wr & -> & Ha & H1).
  apply Matches_star_lits_inv in Ha as (ka & -> & Ga).
  apply Matches_seq_inv in H1 as (wb & sb & wc & -> & Hb' & Hc).
  apply Matches_star_lits_inv in Hb' as (kb & -> & Gb).
  apply Matches_lits_inv in Hc as [-> Gc].
  apply Matches_seq_inv in Hm as (w2 & s2 & w3 & -> & H2 & Hm).
  apply Matches_chr_inv in H2 as [-> G2].
  apply Matches_seq_inv in Hm as (w4 & s4 & w5 & -> & H4 & H5).
  apply Matches_grp_inv in H4 as (s4' & H4 & G4 & _ & _).
  apply Matches_chr_inv in H5 as [-> G5].
  assert (Hgs4 : ms_groups s4' = ms_groups s2).
  { apply (Matches_groupless _ _ _ _ H4). reflexivity. }
  exists (ka + kb).
  assert (Hname : concat (replicate ka (lit "sub")) ++ concat (replicate kb (lit "sub"))
                    ++ lit "section" = section_name (ka + kb)).
  { unfold section_name. rewrite replicate_add, concat_app, <- app_assoc. reflexivity. }
  assert (Hgroups : m_groups m = [(2, w4); (1, section_name (ka + kb))]).
  { rewrite Hg, G5, G4, Hgs4, G2, G1, Gc, Gb, Ga, G0, Hb, Hname. reflexivity. }
  unfold group. rewrite Hgroups. simpl. split; [reflexivity|].
  rewrite Hw, <- Hname. reflexivity.
Qed.

(** ** The store grows, and levels increase from parent to child *)

Lemma grows_refl (h : store) : grows h h.
Proof. split; [lia|]. intros i n H. exists n. auto. Qed.

Lemma grows_trans (h1 h2 h3 : store) : grows h1 h2 -> grows h2 h3 -> grows h1 h3.
Proof.
  intros [L1 G1] [L2 G2]. split; [lia|]. intros i n H.
  destruct (G1 i n H) as (n' & H' & T1 & V1 & C1).
  destruct (G2 i n' H') as (n'' & H'' & T2 & V2 & C2).
  exists n''. repeat split; try congruence. etransitivity; eassumption.
Qed.

Lemma keeps_refl (i : nat) (h : store) : keeps i h h.
Proof. intros n H. exists n. auto. Qed.

Lemma keeps_trans (i : nat) (h1 h2 h3 : store) : keeps i h1 h2 -> keeps i h2 h3 -> keeps i h1 h3.
Proof.
  intros K1 K2 n H. destruct (K1 n H) as (n' & H' & ? & ? & ? & ?).
  destruct (K2 n' H') as (n'' & H'' & ? & ? & ? & ?).
  exists n''. repeat split; congruence.
Qed.

Lemma grows_level_of (h h' : store) (i : nat) :
  grows h h' -> i < length h -> level_of h' i = level_of h i.
Proof.
  intros [_ G] Hi. destruct (lookup_lt_is_Some_2 h i Hi) as [n Hn].
  destruct (G i n Hn) as (n' & Hn' & _ & Hl & _).
  unfold level_of. rewrite Hn, Hn'. exact Hl.
Qed.

Lemma grows_alter (f : MindMapNode -> MindMapNode) (i : nat) (h : store) :
  (forall n, title (f n) = title n /\ level (f n) = level n
             /\ children n `prefix_of` children (f n)) ->
  grows h (alter f i h).
Proof.
  intros Hf. split; [rewrite length_alter; lia|]. intros j n H.
  destruct (decide (i = j)) as [->|Hne].
  - exists (f n). rewrite list_lookup_alter_eq, H. destruct (Hf n) as (? & ? & ?). auto.
  - exists n. rewrite list_lookup_alter_ne by exact Hne. auto.
Qed.

Lemma grows_app (h l : store) : grows h (h ++ l).
Proof.
  split; [rewrite length_app; lia|]. intros i n H. exists n.
  rewrite lookup_app_l by (eapply lookup_lt_Some; exact H). auto.
Qed.

Lemma keeps_alter (f : MindMapNode -> MindMapNode) (i j : nat) (h : store) :
  (i = j -> forall n, title (f n) = title n /\ content (f n) = content n
                      /\ node_type (f n) = node_type n /\ level (f n) = level n) ->
  keeps j h (alter f i h).
Proof.
  intros Hf n H. destruct (decide (i = j)) as [->|Hne].
  - exists (f n). rewrite list_lookup_alter_eq, H. destruct (Hf eq_refl n) as (? & ? & ? & ?). auto.
  - exists n. rewrite list_lookup_alter_ne by exact Hne. auto.
Qed.

Lemma keeps_app (j : nat) (h l : store) : keeps j h (h ++ l).
Proof.
  intros n H. exists n. rewrite lookup_app_l by (eapply lookup_lt_Some; exact H). auto.
Qed.

Lemma with_child_fields (c : nat) (n : MindMapNode) :
  title (with_child c n) = title n /\ content (with_child c n) = content n
  /\ node_type (with_child c n) = node_type n /\ level (with_child c n) = level n.
Proof. auto. Qed.

Lemma grows_add_child (p c : nat) (h : store) : grows h (add_child p c h).
Proof.
  apply grows_alter. intros n. repeat split. simpl. apply prefix_app_r. reflexivity.
Qed.

Lemma keeps_add_child (j p c : nat) (h : store) : keeps j h (add_child p c h).
Proof. apply keeps_alter. intros _ n. apply with_child_fields. Qed.

Lemma grows_attach (p : nat) (node : MindMapNode) (h : store) : grows h (attach p node h).
Proof.
  unfold attach. eapply grows_trans; [apply grows_app | apply grows_add_child].
Qed.

Lemma keeps_attach (j p : nat) (node : MindMapNode) (h : store) : keeps j h (attach p node h).
Proof.
  unfold attach. eapply keeps_trans; [apply keeps_app | apply keeps_add_child].
Qed.

Lemma grows_with_definition (c : str) (i : nat) (h : store) :
  grows h (alter (with_definition c) i h).
Proof. apply grows_alter. intros n. split; [|split]; reflexivity. Qed.

Lemma keeps_with_definition (c : str) (i j : nat) (h : store) :
  i <> j -> keeps j h (alter (with_definition c) i h).
Proof. intros Hne. apply keeps_alter. intros E. contradiction. Qed.

(** A fresh node put below a parent of a smaller level. *)
Lemma levels_increase_attach (p : nat) (node : MindMapNode) (h : store) :
  levels_increase h -> p < length h -> fresh_below (level_of h p) node ->
  levels_increase (attach p node h).
Proof.
  intros Hinv Hp [Hkids Hlv] i n c Hi Hc.
  rewrite attach_valid in Hi |- * by exact Hp.
  destruct (decide (i < length h)) as [Hlt|Hge].
  - rewrite lookup_app_l in Hi by (rewrite length_alter; exact Hlt).
    destruct (decide (p = i)) as [->|Hne].
    + rewrite list_lookup_alter_eq in Hi.
      destruct (h !! i) as [n0|] eqn:E; [|discriminate]. injection Hi as <-.
      simpl in Hc. apply elem_of_app in Hc as [Hc|Hc].
      * destruct (Hinv i n0 c E Hc) as (m & Hm & Hlt').
        destruct (grows_attach i node h) as [_ G].
        destruct (G c m Hm) as (m' & Hm' & _ & Hl & _).
        rewrite attach_valid in Hm' by exact Hp.
        exists m'. split; [exact Hm' | simpl; lia].
      * apply list_elem_of_singleton in Hc. subst c.
        exists node. split.
        -- rewrite lookup_app_r by (rewrite length_alter; lia).
           rewrite length_alter, Nat.sub_diag. reflexivity.
        -- unfold level_of in Hlv. rewrite E in Hlv. simpl. exact Hlv.
    + rewrite list_lookup_alter_ne in Hi by exact Hne.
      destruct (Hinv i n c Hi Hc) as (m & Hm & Hlt').
      destruct (grows_attach p node h) as [_ G].
      destruct (G c m Hm) as (m' & Hm' & _ & Hl & _).
      rewrite attach_valid in Hm' by exact Hp.
      exists m'. split; [exact Hm' | lia].
  - rewrite lookup_app_r in Hi by (rewrite length_alter; lia).
    rewrite length_alter in Hi.
    destruct (i - length h) as [|k] eqn:Ek; simpl in Hi; [|destruct k; discriminate].
    injection Hi as <-. rewrite Hkids in Hc. inversion Hc.
Qed.

Lemma levels_increase_attach_all (p : nat) (ns : list MindMapNode) (h : store) :
  levels_increase h -> p < length h -> Forall (fresh_below (level_of h p)) ns ->
  levels_increase (attach_all p ns h).
Proof.
  unfold attach_all. revert h. induction ns as [|node ns IH]; intros h Hinv Hp Hns; simpl.
  - exact Hinv.
  - inversion Hns as [|? ? Hnode Hrest]; subst. apply IH.
    + apply levels_increase_attach; assumption.
    + rewrite length_attach. lia.
    + rewrite level_of_attach by exact Hp. exact Hrest.
Qed.

Lemma grows_attach_all (p : nat) (ns : list MindMapNode) (h : store) :
  grows h (attach_all p ns h).
Proof.
  unfold attach_all. revert h. induction ns as [|node ns IH]; intros h; simpl.
  - apply grows_refl.
  - eapply grows_trans; [apply grows_attach | apply IH].
Qed.

Lemma keeps_attach_all (j p : nat) (ns : list MindMapNode) (h : store) :
  keeps j h (attach_all p ns h).
Proof.
  unfold attach_all. revert h. induction ns as [|node ns IH]; intros h; simpl.
  - apply keeps_refl.
  - eapply keeps_trans; [apply keeps_attach | apply IH].
Qed.

Lemma levels_increase_with_definition (c : str) (i : nat) (h : store) :
  levels_increase h -> levels_increase (alter (with_definition c) i h).
Proof.
  intros Hinv j n k Hj Hk.
  assert (Hsame : forall a x, alter (with_definition c) i h !! a = Some x ->
            exists y, h !! a = Some y /\ children y = children x /\ level y = level x).
  { intros a x Ha. destruct (decide (i = a)) as [->|Hne].
    - rewrite list_lookup_alter_eq in Ha.
      destruct (h !! a) as [y|]; [|discriminate]. injection Ha as <-. exists y. auto.
    - rewrite list_lookup_alter_ne in Ha by exact Hne. exists x. auto. }
  destruct (Hsame j n Hj) as (y & Hy & Hc & Hl).
  rewrite <- Hc in Hk. destruct (Hinv j y k Hy Hk) as (m & Hm & Hlt).
  destruct (grows_with_definition c i h) as [_ G].
  destruct (G k m Hm) as (m' & Hm' & _ & Hl' & _).
  exists m'. split; [exact Hm' | lia].
Qed.

Lemma element_node_fresh (lv : Z) (e : element) : fresh_below lv (element_node (lv + 1) e).
Proof.
  split; [|rewrite element_node_level; lia].
  unfold element_node.
  destruct (e_type e); [destruct (e_explanation e) as [[|c x]|]| | |]; reflexivity.
Qed.

Lemma structured_content_levels (span : str) (i : nat) (h : store) :
  levels_increase h -> i < length h ->
  levels_increase (_add_structured_content_to_section span i h).
Proof.
  intros Hinv Hi. rewrite add_structured_content_spec by exact Hi.
  apply levels_increase_attach_all; [assumption..|].
  apply Forall_forall. intros n Hn. apply list_elem_of_fmap_1 in Hn as (e & -> & _).
  apply element_node_fresh.
Qed.

Lemma structured_content_grows (span : str) (i : nat) (h : store) :
  i < length h -> grows h (_add_structured_content_to_section span i h).
Proof. intros Hi. rewrite add_structured_content_spec by exact Hi. apply grows_attach_all. Qed.

Lemma structured_content_keeps (span : str) (i j : nat) (h : store) :
  i < length h -> keeps j h (_add_structured_content_to_section span i h).
Proof. intros Hi. rewrite add_structured_content_spec by exact Hi. apply keeps_attach_all. Qed.

(** *** Loose content *)

Lemma loose_theorem_props (cur : nat) (m : rematch) (h : store) :
  levels_increase h -> cur < length h ->
  levels_increase (loose_theorem cur m h) /\ grows h (loose_theorem cur m h)
  /\ forall j, j <> cur -> keeps j h (loose_theorem cur m h).
Proof.
  intros Hinv Hcur. unfold loose_theorem.
  destruct (h !! cur) as [n|] eqn:E.
  2:{ split; [exact Hinv | split; [apply grows_refl | intros; apply keeps_refl]]. }
  destruct (_ && _).
  - split; [apply levels_increase_with_definition; exact Hinv|].
    split; [apply grows_with_definition|].
    intros j Hj. apply keeps_with_definition. congruence.
  - split; [|split; [apply grows_attach | intros; apply keeps_attach]].
    apply levels_increase_attach; [assumption..|].
    split; [reflexivity|]. unfold level_of. rewrite E. simpl. lia.
Qed.

Lemma loose_equation_props (cur : nat) (m : rematch) (h : store) :
  levels_increase h -> cur < length h ->
  levels_increase (loose_equation cur m h) /\ grows h (loose_equation cur m h)
  /\ forall j, keeps j h (loose_equation cur m h).
Proof.
  intros Hinv Hcur. unfold loose_equation.
  split; [|split; [apply grows_attach | intros; apply keeps_attach]].
  apply levels_increase_attach; [assumption..|].
  split; [reflexivity|]. simpl. lia.
Qed.

Lemma fold_props (A : Type) (f : store -> A -> store) (cur : nat) (l : list A) (h : store) :
  (forall h x, levels_increase h -> cur < length h ->
               levels_increase (f h x) /\ grows h (f h x)
               /\ forall j, j <> cur -> keeps j h (f h x)) ->
  levels_increase h -> cur < length h ->
  levels_increase (foldl f h l) /\ grows h (foldl f h l)
  /\ forall j, j <> cur -> keeps j h (foldl f h l).
Proof.
  intros Hf. revert h. induction l as [|x l IH]; intros h Hinv Hcur; simpl.
  - split; [exact Hinv | split; [apply grows_refl | intros; apply keeps_refl]].
  - destruct (Hf h x Hinv Hcur) as (I1 & G1 & K1).
    destruct (IH (f h x) I1) as (I2 & G2 & K2); [destruct G1; lia|].
    split; [exact I2|]. split; [eapply grows_trans; eassumption|].
    intros j Hj. eapply keeps_trans; [apply K1 | apply K2]; exact Hj.
Qed.

Lemma max_key_lookup (s : stack) (j : nat) :
  s !! 0%Z = Some j -> exists k, max_key s = Some k /\ is_Some (s !! k).
Proof.
  intros H0. unfold max_key.
  assert (Hin : forall k, k ∈ (map_to_list s).*1 -> is_Some (s !! k)).
  { intros k Hk. apply list_elem_of_fmap_1 in Hk as ([k' v] & -> & Hk).
    apply elem_of_map_to_list in Hk. simpl. eauto. }
  destruct ((map_to_list s).*1) as [|k tl] eqn:E.
  - exfalso. apply elem_of_map_to_list in H0.
    assert (H1 : (0%Z) ∈ (map_to_list s).*1)
      by (apply (list_elem_of_fmap_2 fst _ _ H0)).
    rewrite E in H1. inversion H1.
  - exists (foldr Z.max k tl). split; [reflexivity|]. apply Hin.
    clear. induction tl as [|x tl IH]; simpl.
    + constructor.
    + destruct (Z.max_spec x (foldr Z.max k tl)) as [[_ ->]|[_ ->]].
      * apply elem_of_cons in IH as [->|IH]; [constructor | do 2 constructor; exact IH].
      * do 2 constructor.
Qed.

Lemma current_section_valid (h : store) (s : stack) :
  stack_ok h s -> exists cur, current_section s = Some cur /\ cur < length h.
Proof.
  intros [H0 Hs]. destruct (max_key_lookup s 0 H0) as (k & Hk & [cur Hcur]).
  exists cur. unfold current_section. rewrite Hk. split; [exact Hcur|].
  destruct (Hs k cur Hcur) as (n & Hn & _). eapply lookup_lt_Some. exact Hn.
Qed.

Lemma add_content_props (span : str) (s : stack) (h : store) :
  levels_increase h -> stack_ok h s ->
  levels_increase (_add_content_to_current_section span s h)
  /\ grows h (_add_content_to_current_section span s h)
  /\ forall j, current_section s <> Some j ->
               keeps j h (_add_content_to_current_section span s h).
Proof.
  intros Hinv Hs. destruct (current_section_valid h s Hs) as (cur & Hcur & Hlt).
  unfold _add_content_to_current_section. rewrite Hcur.
  destruct (fold_props _ (fun h m => loose_theorem cur m h) cur
              (finditer BlockPat.theorem_env span) h) as (I1 & G1 & K1);
    [intros; apply loose_theorem_props; assumption | assumption..|].
  destruct (fold_props _ (fun h m => loose_equation cur m h) cur
              (finditer BlockPat.equation_env span)
              (foldl (fun h m => loose_theorem cur m h) h
                     (finditer BlockPat.theorem_env span))) as (I2 & G2 & K2).
  - intros h0 x Hh0 Hc0. destruct (loose_equation_props cur x h0 Hh0 Hc0) as (? & ? & ?).
    auto.
  - exact I1.
  - destruct G1. lia.
  - split; [exact I2|]. split; [eapply grows_trans; eassumption|].
    intros j Hj. assert (j <> cur) by congruence.
    eapply keeps_trans; [apply K1 | apply K2]; assumption.
Qed.

Lemma stack_ok_grows (h h' : store) (s : stack) : stack_ok h s -> grows h h' -> stack_ok h' s.
Proof.
  intros [H0 Hs] [_ G]. split; [exact H0|]. intros l j Hj.
  destruct (Hs l j Hj) as (n & Hn & Hl).
  destruct (G j n Hn) as (n' & Hn' & _ & Hl' & _). exists n'. split; [exact Hn' | congruence].
Qed.

(** ** The structural segmenter *)

(** [SECTION_LEVELS.get(name, 2)] for the names of the section family *)
Lemma section_level_get (k : nat) :
  dict_get SECTION_LEVELS (section_name k) 2 = section_level k.
Proof.
  destruct k as [|[|[|k]]]; reflexivity.
Qed.

Lemma section_level_range (k : nat) : (2 <= section_level k <= 4)%Z.
Proof. destruct k as [|[|[|k]]]; simpl; lia. Qed.

Lemma find_parent_found (s : stack) (j : nat) (fuel : nat) (x : Z) :
  s !! 0%Z = Some j -> (0 <= x)%Z -> Z.to_nat x < fuel ->
  (0 <= find_parent s fuel x <= x)%Z /\ is_Some (s !! find_parent s fuel x).
Proof.
  intros H0. revert x. induction fuel as [|f IH]; intros x Hx Hfuel; [lia|]. simpl.
  destruct (0 <=? x)%Z eqn:E0; [|apply Z.leb_gt in E0; lia]. simpl.
  destruct (bool_decide (s !! x = None)) eqn:E.
  - apply bool_decide_eq_true in E.
    assert (x <> 0%Z) by (intros ->; congruence).
    destruct (IH (x - 1)%Z) as [Hr Hs]; [lia | lia |]. split; [lia | exact Hs].
  - apply bool_decide_eq_false in E. split; [lia|].
    destruct (s !! x); [eauto | contradiction].
Qed.

Lemma clear_deeper_lookup (lv l : Z) (s : stack) (j : nat) :
  clear_deeper lv s !! l = Some j <-> s !! l = Some j /\ (l <= lv)%Z.
Proof. unfold clear_deeper. rewrite map_lookup_filter_Some. simpl. tauto. Qed.

Lemma levels_increase_new_child (p : nat) (node : MindMapNode) (h : store) (n : MindMapNode) :
  levels_increase h -> h !! p = Some n -> children node = [] -> (level n < level node)%Z ->
  levels_increase (add_child p (length h) (h ++ [node])).
Proof.
  intros Hinv Hp Hkids Hlv. apply (levels_increase_attach p node h Hinv).
  - eapply lookup_lt_Some. exact Hp.
  - split; [exact Hkids|]. unfold level_of. rewrite Hp. exact Hlv.
Qed.

(** What a turn of the loop does once the text before the match is dealt
    with. *)
Lemma open_section_spec (section_content : str) (m : rematch) (s : stack) (h : store) (k : nat) :
  levels_increase h -> stack_ok h s -> group 1 m = section_name k ->
  let r := open_section section_content m s h in
  levels_increase r.1 /\ stack_ok r.1 r.2 /\ grows h r.1 /\ (forall j, keeps j h r.1)
  /\ length h < length r.1
  /\ (exists node p parent,
        r.1 !! length h = Some node
        /\ node_type node = section_name k /\ level node = section_level k
        /\ title node = _clean_latex_text (group 2 m)
        /\ r.1 !! p = Some parent /\ length h ∈ children parent).
Proof.
  intros Hinv [H0 Hs] Hname. unfold open_section.
  rewrite Hname, section_level_get.
  pose proof (section_level_range k) as Hrange.
  set (lv := section_level k) in *.
  set (node := mkNode (_clean_latex_text (group 2 m)) (_extract_main_text section_content)
                      (section_name k) [] lv).
  destruct (find_parent_found s 0 (Z.to_nat lv) (lv - 1) H0) as [Hpl [p Hp]]; [lia | lia |].
  set (pl := find_parent s (Z.to_nat lv) (lv - 1)) in *.
  destruct (0 <=? pl)%Z eqn:Epl; [|apply Z.leb_gt in Epl; lia].
  rewrite Hp. unfold new_node. fold node.
  destruct (Hs pl p Hp) as (parent & Hparent & Hplv).
  assert (Hplt : p < length h) by (eapply lookup_lt_Some; exact Hparent).
  set (h1 := add_child p (length h) (h ++ [node])).
  assert (I1 : levels_increase h1).
  { apply (levels_increase_new_child p node h parent); auto. simpl. lia. }
  assert (G1 : grows h h1) by apply (grows_attach p node h).
  assert (K1 : forall j, keeps j h h1) by (intros; apply (keeps_attach j p node h)).
  assert (L1 : length h1 = S (length h)) by apply (length_attach p node h).
  assert (N1 : h1 !! length h = Some node).
  { unfold h1. rewrite (attach_valid p node h Hplt : add_child _ _ _ = _).
    rewrite lookup_app_r by (rewrite length_alter; lia).
    rewrite length_alter, Nat.sub_diag. reflexivity. }
  assert (P1 : h1 !! p = Some (with_child (length h) parent)).
  { unfold h1, add_child. rewrite list_lookup_alter_eq, lookup_app_l, Hparent by exact Hplt.
    reflexivity. }
  set (h2 := if is_empty (_extract_remaining_content section_content) then h1
             else _add_structured_content_to_section
                    (_extract_remaining_content section_content) (length h) h1).
  assert (Hh2 : levels_increase h2 /\ grows h1 h2 /\ forall j, keeps j h1 h2).
  { unfold h2. destruct (is_empty _).
    - split; [exact I1 | split; [apply grows_refl | intros; apply keeps_refl]].
    - split; [apply structured_content_levels; [exact I1 | lia]|].
      split; [apply structured_content_grows; lia|].
      intros j. apply structured_content_keeps. lia. }
  destruct Hh2 as (I2 & G2 & K2). simpl.
  split; [exact I2|].
  assert (G : grows h h2) by (eapply grows_trans; eassumption).
  split; [|split; [exact G|split; [|split]]].
  - split.
    + apply clear_deeper_lookup. split; [|lia].
      rewrite lookup_insert_ne by lia. exact H0.
    + intros l j Hj. apply clear_deeper_lookup in Hj as [Hj Hl].
      destruct (decide (lv = l)) as [<-|Hne].
      * rewrite lookup_insert_eq in Hj. injection Hj as <-.
        destruct (K2 (length h) node N1) as (n' & Hn' & _ & _ & _ & Hlv').
        exists n'. split; [exact Hn' | exact Hlv'].
      * rewrite lookup_insert_ne in Hj by exact Hne.
        destruct (Hs l j Hj) as (n & Hn & Hnl).
        destruct G as [_ G]. destruct (G j n Hn) as (n' & Hn' & _ & Hl' & _).
        exists n'. split; [exact Hn' | congruence].
  - intros j. eapply keeps_trans; [apply K1 | apply K2].
  - destruct G2 as [G2 _]. lia.
  - destruct (K2 (length h) node N1) as (n' & Hn' & Ht & _ & Hty & Hlv').
    destruct G2 as [_ G2].
    destruct (G2 p _ P1) as (parent' & Hparent' & _ & _ & Hpre).
    exists n', p, parent'. repeat split; try assumption.
    eapply elem_of_prefix; [|exact Hpre]. simpl. apply elem_of_app. right. constructor.
Qed.

Lemma match_of_slice (r : regex) (body : str) (m : rematch) :
  match_of r body m -> slice body (m_start m) (m_end m) = m_text m.
Proof.
  intros (b & e & Hm & _ & _ & Hrest & Hend & _ & _).
  destruct (Matches_consumes _ _ _ _ Hm) as [R _].
  unfold slice. rewrite <- Hrest, R, Hend, Nat.add_comm, Nat.add_sub, take_app_length.
  reflexivity.
Qed.

Lemma section_node_of_later (body : str) (h h' : store) (m : rematch) (i : nat) :
  section_node_of body h m i -> grows h h' -> keeps i h h' -> section_node_of body h' m i.
Proof.
  intros (k & node & p & parent & Hs & Hg & Hn & Hty & Hlv & Ht & Hp & Hc) [_ G] K.
  destruct (K node Hn) as (node' & Hn' & Ht' & _ & Hty' & Hlv').
  destruct (G p parent Hp) as (parent' & Hp' & _ & _ & Hpre).
  exists k, node', p, parent'. repeat split; try congruence.
  eapply elem_of_prefix; eassumption.
Qed.

Lemma pre_content_step_props (body : str) (m : rematch) (st : seg_state) :
  levels_increase (sg_store st) -> stack_ok (sg_store st) (sg_stack st) ->
  levels_increase (pre_content_step body m st)
  /\ grows (sg_store st) (pre_content_step body m st)
  /\ forall j, m_start m <= current_pos st \/ current_section (sg_stack st) <> Some j ->
               keeps j (sg_store st) (pre_content_step body m st).
Proof.
  intros Hinv Hs. unfold pre_content_step.
  destruct (current_pos st <? m_start m) eqn:E.
  - apply Nat.ltb_lt in E. destruct (is_empty _).
    + split; [exact Hinv | split; [apply grows_refl | intros; apply keeps_refl]].
    + destruct (add_content_props (strip (slice body (current_pos st) (m_start m)))
                  (sg_stack st) (sg_store st) Hinv Hs) as (I & G & K).
      split; [exact I | split; [exact G|]]. intros j [Hj|Hj]; [lia | apply K; exact Hj].
  - split; [exact Hinv | split; [apply grows_refl | intros; apply keeps_refl]].
Qed.

Lemma section_step_spec (body : str) (m : rematch) (nxt : nat) (st : seg_state) :
  levels_increase (sg_store st) -> stack_ok (sg_store st) (sg_stack st) ->
  match_of BlockPat.section_pattern body m ->
  let st' := section_step body m nxt st in
  levels_increase (sg_store st') /\ stack_ok (sg_store st') (sg_stack st')
  /\ grows (sg_store st) (sg_store st')
  /\ (forall j, m_start m <= current_pos st \/ current_section (sg_stack st) <> Some j ->
                keeps j (sg_store st) (sg_store st'))
  /\ current_pos st' = nxt
  /\ exists i, length (sg_store st) <= i < length (sg_store st')
               /\ section_node_of body (sg_store st') m i.
Proof.
  intros Hinv Hs Hm.
  destruct (section_pattern_groups body m Hm) as (k & Hg & Htext).
  assert (Hname : group 1 m = section_name k) by (unfold group; rewrite Hg; reflexivity).
  destruct (pre_content_step_props body m st Hinv Hs) as (I1 & G1 & K1).
  pose proof (stack_ok_grows _ _ _ Hs G1) as S1.
  pose proof (open_section_spec (strip (slice body (m_end m) nxt)) m (sg_stack st)
                (pre_content_step body m st) k I1 S1 Hname) as Hopen.
  unfold section_step.
  destruct (open_section _ m (sg_stack st) (pre_content_step body m st)) as [h2 s2].
  simpl in Hopen |- *.
  destruct Hopen as (I2 & S2 & G2 & K2 & L2 & node & p & parent & Hn & Hty & Hlv & Ht & Hp & Hc).
  split; [exact I2|]. split; [exact S2|].
  split; [eapply grows_trans; eassumption|].
  split; [intros j Hj; eapply keeps_trans; [apply K1; exact Hj | apply K2]|].
  split; [reflexivity|].
  exists (length (pre_content_step body m st)).
  split; [destruct G1; lia|].
  exists k, node, p, parent. rewrite (match_of_slice _ _ _ Hm). auto 10.
Qed.

Lemma section_loop_spec (body : str) (matches : list rematch) (st : seg_state) :
  Forall (match_of BlockPat.section_pattern body) matches ->
  levels_increase (sg_store st) -> stack_ok (sg_store st) (sg_stack st) ->
  (forall m rest, matches = m :: rest -> current_pos st = m_start m) ->
  let st' := section_loop body matches st in
  levels_increase (sg_store st') /\ stack_ok (sg_store st') (sg_stack st')
  /\ grows (sg_store st) (sg_store st')
  /\ (forall j, keeps j (sg_store st) (sg_store st'))
  /\ (matches <> [] -> current_pos st' = length body)
  /\ exists ids, Forall2 (section_node_of body (sg_store st')) matches ids
                 /\ Forall (fun i => length (sg_store st) <= i) ids /\ NoDup ids.
Proof.
  intros Hms. revert st. induction Hms as [|m rest Hm Hrest IH]; intros st Hinv Hs Hpos; simpl.
  - split; [exact Hinv|]. split; [exact Hs|]. split; [apply grows_refl|].
    split; [intros; apply keeps_refl|]. split; [congruence|].
    exists []. repeat constructor.
  - set (nxt := match rest with m' :: _ => m_start m' | [] => length body end).
    destruct (section_step_spec body m nxt st Hinv Hs Hm)
      as (I1 & S1 & G1 & K1 & P1 & i & Hi & Hnode).
    destruct (IH (section_step body m nxt st) I1 S1)
      as (I2 & S2 & G2 & K2 & P2 & ids & Hids & Hge & Hnd).
    { intros m' rest' ->. exact P1. }
    split; [exact I2|]. split; [exact S2|].
    split; [eapply grows_trans; eassumption|].
    split.
    { intros j. eapply keeps_trans; [apply K1 | apply K2].
      left. rewrite (Hpos m rest eq_refl). lia. }
    split.
    { intros _. destruct rest as [|m' rest']; [exact P1 | apply P2; discriminate]. }
    exists (i :: ids). split; [|split].
    + constructor; [|exact Hids].
      apply (section_node_of_later body _ _ m i Hnode G2 (K2 i)).
    + constructor; [lia|]. eapply Forall_impl; [exact Hge|].
      intros x Hx. cbv beta in Hx. destruct G1 as [L _]. lia.
    + constructor; [|exact Hnd]. intros Hin.
      rewrite Forall_forall in Hge. specialize (Hge i Hin). lia.
Qed.

(** The segmenter on a store that holds the root, of level 0, alone. *)
Lemma segmenter_spec (body : str) (root : MindMapNode) :
  level root = 0%Z -> children root = [] ->
  let h := _parse_with_regex_fallback body [root] in
  levels_increase h /\ grows [root] h
  /\ exists ids, Forall2 (section_node_of body h) (finditer BlockPat.section_pattern body) ids
                 /\ NoDup ids.
Proof.
  intros Hlv Hkids. unfold _parse_with_regex_fallback.
  pose proof (finditer_sound BlockPat.section_pattern body) as Hms.
  set (st0 := SegState [root] {[ 0%Z := 0 ]} 0).
  assert (I0 : levels_increase (sg_store st0)).
  { intros i n c Hi Hc. destruct i as [|i]; [|discriminate]. injection Hi as <-.
    rewrite Hkids in Hc. inversion Hc. }
  assert (S0 : stack_ok (sg_store st0) (sg_stack st0)).
  { split; [apply lookup_singleton_eq|]. intros l j Hj. simpl in Hj.
    apply lookup_singleton_Some in Hj as [<- <-]. exists root. auto. }
  destruct (finditer BlockPat.section_pattern body) as [|m rest] eqn:E.
  - simpl. destruct (0 <? length body); [destruct (is_empty _)|].
    + split; [exact I0 | split; [apply grows_refl|]]. exists []. repeat constructor.
    + destruct (add_content_props (strip (drop 0 body)) (sg_stack st0) (sg_store st0) I0 S0)
        as (I & G & _).
      split; [exact I | split; [exact G|]]. exists []. repeat constructor.
    + split; [exact I0 | split; [apply grows_refl|]]. exists []. repeat constructor.
  - inversion Hms as [|? ? Hm Hrest]; subst.
    change (section_loop body (m :: rest) st0)
      with (section_loop body rest
              (section_step body m (match rest with m' :: _ => m_start m' | [] => length body end)
                            st0)).
    set (nxt := match rest with m' :: _ => m_start m' | [] => length body end).
    destruct (section_step_spec body m nxt st0 I0 S0 Hm)
      as (I1 & S1 & G1 & _ & P1 & i & Hi & Hnode).
    destruct (section_loop_spec body rest (section_step body m nxt st0) Hrest I1 S1)
      as (I2 & S2 & G2 & K2 & P2 & ids & Hids & Hge & Hnd).
    { intros m' rest' ->. exact P1. }
    assert (Hend : current_pos (section_loop body rest (section_step body m nxt st0))
                   = length body).
    { destruct rest as [|m' rest']; [exact P1 | apply P2; discriminate]. }
    rewrite Hend, Nat.ltb_irrefl.
    split; [exact I2|]. split; [eapply grows_trans; eassumption|].
    exists (i :: ids). split.
    + constructor; [|exact Hids].
      apply (section_node_of_later body _ _ m i Hnode G2 (K2 i)).
    + constructor; [|exact Hnd]. intros Hin.
      rewrite Forall_forall in Hge. specialize (Hge i Hin). lia.
Qed.

(** A chapter command alone is not located, and a paragraph command in a
    section followed by plain text becomes a block of that section, one
    level below it. *)
Example chapter_alone_and_paragraph_in_section :
  parse (lit "\chapter{One}Text")
  = [ mkNode (lit "LaTeX Document") [] (lit "document") [] 0 ]
  /\ parse (lit "\section{S}\paragraph{P}text")
     = [ mkNode (lit "S") [] (lit "document") [1] 0;
         mkNode (lit "S") [] (lit "section") [2] 2;
         mkNode (lit "P") (lit "text") (lit "paragraph") [] 3 ].
Proof. split; vm_compute; reflexivity. Qed.

(** ** The root of the tree *)

(** The part of C6 that holds for every document: in the store [parse]
    leaves, every child is deeper than its parent, and the root has level 0. *)
Lemma parse_levels_increase (tex_content : str) :
  levels_increase (parse tex_content)
  /\ exists root, parse tex_content !! 0 = Some root /\ level root = 0%Z
                  /\ title root = document_title tex_content.
Proof.
  unfold parse.
  destruct (segmenter_spec (_extract_document_body tex_content)
              (mkNode (document_title tex_content) [] (lit "document") [] 0))
    as (I & [_ G] & _); auto.
  split; [exact I|].
  destruct (G 0 _ eq_refl) as (root & Hroot & Ht & Hl & _).
  exists root. auto.
Qed.



Example title_from_declaration :
  parse (lit "\title{A fine~paper}\section{Intro}") !! 0
  = Some (mkNode (lit "A fine paper") [] (lit "document") [1] 0).
Proof. vm_compute. reflexivity. Qed.

(** ** The sanitizer on plain text *)

(** *** Patterns that cannot match *)

Lemma finditer_none (r : regex) (text : str) :
  (forall m, match_of r text m -> False) -> finditer r text = [].
Proof.
  intros Hno. pose proof (finditer_sound r text) as H.
  destruct (finditer r text) as [|m l]; [reflexivity|].
  inversion H; subst. exfalso. eauto.
Qed.

Lemma re_sub_with_none (S : Type) (r : regex) (repl : S -> rematch -> S * str) (s : S)
    (text : str) :
  finditer r text = [] -> re_sub_with r repl s text = (s, text).
Proof. intros H. unfold re_sub_with. rewrite H. reflexivity. Qed.

Lemma re_sub_none (r : regex) (repl : rematch -> str) (text : str) :
  finditer r text = [] -> re_sub r repl text = text.
Proof. intros H. unfold re_sub. rewrite re_sub_with_none by exact H. reflexivity. Qed.

(** The first character of a match lies in the text. *)
Lemma match_of_first (r : regex) (text : str) (m : rematch) (c : N) (w : str) :
  match_of r text m -> m_text m = c :: w -> c ∈ text.
Proof.
  intros Hm Hw. pose proof (match_of_slice r text m Hm) as Hs.
  rewrite Hw in Hs. unfold slice in Hs.
  assert (Hin : c ∈ take (m_end m - m_start m) (drop (m_start m) text))
    by (rewrite Hs; constructor).
  apply elem_of_take in Hin as (i & Hi & _).
  rewrite lookup_drop in Hi. eapply list_elem_of_lookup_2. exact Hi.
Qed.

Lemma plain_no_markup (t : str) (c : N) : plain t -> c ∈ t -> is_markup c = false.
Proof. unfold plain. rewrite Forall_forall. auto. Qed.

(** A pattern that begins with a markup character finds nothing in plain
    text. *)
Lemma finditer_plain (r : regex) (c : N) (t : str) :
  is_markup c = true ->
  (forall b w e, Matches r b w e -> exists w', w = c :: w') ->
  plain t -> finditer r t = [].
Proof.
  intros Hc Hfirst Hplain. apply finditer_none. intros m Hm.
  pose proof Hm as (b & e & HM & _).
  destruct (Hfirst _ _ _ HM) as (w' & Hw).
  pose proof (match_of_first r t m c w' Hm Hw) as Hin.
  rewrite (plain_no_markup t c Hplain Hin) in Hc. discriminate.
Qed.

Lemma Matches_chr_first (c : N) (r : regex) (b : mstate) (w : str) (e : mstate) :
  Matches (Seq (Chr c) r) b w e -> exists w', w = c :: w'.
Proof.
  intros H. apply Matches_seq_inv in H as (w1 & s1 & w2 & -> & H1 & _).
  apply Matches_chr_inv in H1 as [-> _]. eauto.
Qed.

Lemma Matches_paren_math_first (b : mstate) (w : str) (e : mstate) :
  Matches Pat.paren_math b w e -> exists w', w = BACKSLASH :: w'.
Proof.
  unfold Pat.paren_math, Opt. intros H.
  apply Matches_seq_inv in H as (w1 & s1 & w2 & -> & H1 & H2).
  apply Matches_chr_first in H2 as (w' & ->).
  inversion H1 as [| | |? ? ? ? ? Ha|? ? ? ? ? Hb| | | | | | | | |]; subst.
  - apply Matches_chr_inv in Ha as [-> _]. eauto.
  - inversion Hb; subst. eauto.
Qed.

(** *** Patterns that scan the text by runs *)

Lemma search_at_skip (r : regex) (pos : nat) (prev : option N) (c : N) (tl : str) :
  match_here r pos prev (c :: tl) = None ->
  search_at r pos prev (c :: tl) = search_at r (S pos) (Some c) tl.
Proof. intros H. simpl. rewrite H. reflexivity. Qed.

Lemma finditer_from_skip (r : regex) (text : str) (f pos : nat) (prev : option N)
    (c : N) (tl : str) :
  c :: tl = drop pos text -> pos < length text ->
  match_here r pos prev (c :: tl) = None ->
  finditer_from r (S f) pos prev (c :: tl) = finditer_from r (S f) (S pos) (Some c) tl.
Proof.
  intros Hrest Hpos Hnone. cbn [finditer_from]. rewrite (search_at_skip _ _ _ _ _ Hnone).
  destruct (search_at r (S pos) (Some c) tl) as [m|] eqn:E; [|reflexivity].
  apply search_at_sound with (text := text) in E as [Hm Hs]; [| |lia].
  2:{ replace (S pos) with (pos + 1) by lia. rewrite <- drop_drop, <- Hrest. reflexivity. }
  assert (Hend : m_start m <= m_end m) by (destruct Hm as (? & ? & ? & ? & ? & ? & ? & ? & ?); lia).
  replace (m_end m - pos) with (S (m_end m - S pos)) by lia.
  cbn [drop]. destruct (m_end m - S pos) as [|i]; reflexivity.
Qed.

Lemma sub_matches_skip (repl : unit -> rematch -> unit * str) (text : str) (pos : nat)
    (c : N) (tl : str) (ms : list rematch) :
  c :: tl = drop pos text ->
  Forall (fun m => S pos <= m_start m) ms ->
  snd (sub_matches repl tt text pos ms) = c :: snd (sub_matches repl tt text (S pos) ms).
Proof.
  intros Hrest Hms. destruct ms as [|m ms]; simpl.
  - rewrite <- Hrest. f_equal.
    replace (S pos) with (pos + 1) by lia. rewrite <- drop_drop, <- Hrest. reflexivity.
  - inversion Hms as [|? ? Hm _]; subst.
    destruct (repl tt m) as [u new]. destruct (sub_matches repl u text (m_end m) ms) as [u' out].
    simpl. unfold slice. rewrite <- Hrest.
    replace (m_start m - pos) with (S (m_start m - S pos)) by lia.
    replace (S pos) with (pos + 1) by lia. rewrite <- drop_drop, <- Hrest. reflexivity.
Qed.

Lemma re_sub_scans_from (r : regex) (mlen : str -> option nat) (new : str) (text : str) :
  scans_by r mlen ->
  forall k rest f1 f2 pos prev,
    length rest <= k -> rest = drop pos text -> pos <= length text ->
    length rest < f1 -> length rest < f2 ->
    snd (sub_matches (fun (_ : unit) (_ : rematch) => (tt, new)) tt text pos
                     (finditer_from r f1 pos prev rest))
    = replace_runs mlen new f2 rest.
Proof.
  intros [Hhere Hlen]. induction k as [|k IH]; intros rest f1 f2 pos prev Hk Hrest Hpos Hf1 Hf2.
  - destruct rest; [|simpl in Hk; lia].
    destruct f1 as [|f1]; [lia|]. destruct f2 as [|f2]; [lia|].
    cbn [finditer_from search_at replace_runs]. rewrite Hhere.
    destruct (mlen []) as [n|] eqn:E; [apply Hlen in E; simpl in E; lia|].
    simpl. rewrite <- Hrest. reflexivity.
  - destruct f1 as [|f1]; [lia|]. destruct f2 as [|f2]; [lia|].
    cbn [replace_runs]. destruct (mlen rest) as [n|] eqn:E.
    + pose proof (Hlen _ _ E) as Hn.
      cbn [finditer_from].
      assert (Hs : search_at r pos prev rest = Some (ReMatch pos (pos + n) (take n rest) [])).
      { destruct rest; simpl; rewrite Hhere, E; reflexivity. }
      rewrite Hs. cbn [m_start m_end].
      replace (pos <? pos + n) with true by (symmetry; apply Nat.ltb_lt; lia).
      replace (pos + n - pos) with n by lia.
      cbn [sub_matches m_start m_end].
      rewrite <- (IH (drop n rest) f1 f2 (pos + n)
                     (match n with O => prev | S i => rest !! i end)).
      * destruct (sub_matches _ tt text (pos + n) _) as [u out].
        unfold slice. rewrite Nat.sub_diag. reflexivity.
      * rewrite length_drop. lia.
      * rewrite Hrest, drop_drop. reflexivity.
      * apply (f_equal length) in Hrest. rewrite length_drop in Hrest. lia.
      * rewrite length_drop. lia.
      * rewrite length_drop. lia.
    + destruct rest as [|c tl].
      * cbn [finditer_from search_at]. rewrite Hhere, E. simpl. rewrite <- Hrest. reflexivity.
      * assert (Hlt : pos < length text).
        { apply (f_equal length) in Hrest. rewrite length_drop in Hrest. simpl in Hrest. lia. }
        assert (Hnone : match_here r pos prev (c :: tl) = None) by (rewrite Hhere, E; reflexivity).
        assert (Htl : tl = drop (S pos) text).
        { replace (S pos) with (pos + 1) by lia. rewrite <- drop_drop, <- Hrest. reflexivity. }
        rewrite (finditer_from_skip r text f1 pos prev c tl Hrest Hlt Hnone).
        rewrite (sub_matches_skip _ text pos c tl _ Hrest).
        -- f_equal. simpl in Hk, Hf1, Hf2. apply IH; try assumption; lia.
        -- rewrite Htl. eapply Forall_impl; [apply finditer_from_sound; lia|].
           simpl. tauto.
Qed.

Lemma re_sub_scans (r : regex) (mlen : str -> option nat) (new : str) (text : str) :
  scans_by r mlen ->
  re_sub r (fun _ => new) text = replace_runs mlen new (S (length text)) text.
Proof.
  intros H. unfold re_sub, re_sub_with, finditer.
  apply (re_sub_scans_from r mlen new text H (length text) text _ _ 0 None); auto; lia.
Qed.

Lemma scans_tilde : scans_by Pat.tilde tilde_length.
Proof.
  split.
  - intros pos prev rest. unfold match_here, Pat.tilde, Chr, tilde_length. cbn [rmatch ms_rest].
    destruct rest as [|c tl]; [reflexivity|].
    destruct (TILDE =? c)%N; [|reflexivity].
    unfold mk_match, advance. cbn [ms_pos ms_rest ms_groups].
    replace (S pos - pos) with 1 by lia. replace (pos + 1) with (S pos) by lia. reflexivity.
  - intros rest n H. unfold tilde_length in H. destruct rest as [|c tl]; [discriminate|].
    destruct (TILDE =? c)%N; [|discriminate]. injection H as <-. simpl. lia.
Qed.

Lemma replace_runs_tilde (fuel : nat) (t : str) :
  length t < fuel -> replace_runs tilde_length [SPACE] fuel t = map detilde t.
Proof.
  revert t. induction fuel as [|f IH]; intros t Hf; [lia|].
  destruct t as [|c tl]; [reflexivity|]. simpl in Hf.
  cbn [replace_runs tilde_length map]. unfold detilde at 1. rewrite (N.eqb_sym c TILDE).
  destruct (TILDE =? c)%N; cbn [drop app]; rewrite ?drop_0, IH by lia; reflexivity.
Qed.

(** A greedy run of one class, with nothing to match after it, takes the
    whole run. *)
Lemma rstar_class_run (p : N -> bool) (fuel : nat) (st : mstate) :
  length (ms_rest st) < fuel ->
  rstar (rmatch (Cls p)) true fuel st Some
  = Some (MState (ms_pos st + run_length p (ms_rest st))
                 (match run_length p (ms_rest st) with
                  | O => ms_prev st
                  | S i => ms_rest st !! i
                  end)
                 (drop (run_length p (ms_rest st)) (ms_rest st)) (ms_groups st)).
Proof.
  revert st. induction fuel as [|f IH]; intros st Hf; [lia|].
  destruct st as [pos prev rest gs]. cbn [ms_rest ms_pos ms_prev ms_groups] in *.
  cbn [rstar rmatch ms_rest].
  destruct rest as [|c tl].
  - simpl. rewrite Nat.add_0_r. reflexivity.
  - cbn [run_length]. destruct (p c).
    + unfold advance. cbn [ms_pos ms_groups].
      replace (pos <? S pos) with true by (symmetry; apply Nat.ltb_lt; lia).
      simpl in Hf. rewrite IH by (simpl; lia). cbn [ms_pos ms_rest ms_prev ms_groups drop].
      replace (pos + S (run_length p tl)) with (S pos + run_length p tl) by lia.
      destruct (run_length p tl); reflexivity.
    + simpl. rewrite Nat.add_0_r. reflexivity.
Qed.

Lemma run_length_le (p : N -> bool) (t : str) : run_length p t <= length t.
Proof. induction t as [|c tl IH]; simpl; [lia|]. destruct (p c); simpl; lia. Qed.

Lemma rmatch_plus_class (p : N -> bool) (st : mstate) :
  rmatch (Plus true (Cls p)) st Some
  = match ms_rest st with
    | c :: tl =>
        if p c then rstar (rmatch (Cls p)) true (S (length tl)) (advance c tl st) Some
        else None
    | [] => None
    end.
Proof. reflexivity. Qed.

Lemma scans_spaces : scans_by Pat.spaces spaces_length.
Proof.
  split.
  - intros pos prev rest. unfold match_here, Pat.spaces, spaces_length.
    rewrite rmatch_plus_class. cbn [ms_rest].
    destruct rest as [|c tl]; [reflexivity|].
    cbn [run_length]. destruct (is_space c); [|reflexivity].
    unfold advance. cbn [ms_pos ms_groups ms_rest].
    rewrite rstar_class_run by (simpl; lia).
    unfold mk_match. cbn [ms_pos ms_rest ms_groups].
    replace (S pos + run_length is_space tl - pos) with (S (run_length is_space tl)) by lia.
    replace (pos + S (run_length is_space tl)) with (S pos + run_length is_space tl) by lia.
    reflexivity.
  - intros rest n H. unfold spaces_length in H.
    pose proof (run_length_le is_space rest).
    destruct (run_length is_space rest); [discriminate|]. injection H as <-. lia.
Qed.

Lemma collapse_after_run (t : str) :
  collapse true t = collapse false (drop (run_length is_space t) t).
Proof.
  induction t as [|c tl IH]; [reflexivity|]. simpl.
  destruct (is_space c) eqn:E; [exact IH|]. simpl. rewrite E. reflexivity.
Qed.

Lemma replace_runs_spaces (fuel : nat) (t : str) :
  length t < fuel -> replace_runs spaces_length [SPACE] fuel t = collapse false t.
Proof.
  revert t. induction fuel as [|f IH]; intros t Hf; [lia|].
  destruct t as [|c tl]; [reflexivity|]. simpl in Hf.
  cbn [replace_runs]. unfold spaces_length. cbn [run_length collapse].
  destruct (is_space c).
  - cbn [drop app]. rewrite IH by (rewrite length_drop; lia).
    rewrite collapse_after_run. reflexivity.
  - rewrite IH by lia. reflexivity.
Qed.

(** On plain text, the sanitizer is the whitespace normalization. *)
Lemma strip_commands_plain (t : str) :
  plain t -> strip_commands t = collapse false (map detilde t).
Proof.
  intros Hplain. unfold strip_commands.
  rewrite (re_sub_none Pat.command_with_arg).
  2:{ apply (finditer_plain _ BACKSLASH); [reflexivity | | exact Hplain].
      intros b w e. apply Matches_chr_first. }
  rewrite (re_sub_none Pat.bare_command).
  2:{ apply (finditer_plain _ BACKSLASH); [reflexivity | | exact Hplain].
      intros b w e. apply Matches_chr_first. }
  rewrite (re_sub_none Pat.braces).
  2:{ apply (finditer_plain _ LBRACE); [reflexivity | | exact Hplain].
      intros b w e. apply Matches_chr_first. }
  rewrite (re_sub_none Pat.line_break).
  2:{ apply (finditer_plain _ BACKSLASH); [reflexivity | | exact Hplain].
      intros b w e. apply Matches_chr_first. }
  rewrite (re_sub_scans _ _ _ _ scans_tilde), replace_runs_tilde by lia.
  rewrite (re_sub_scans _ _ _ _ scans_spaces), replace_runs_spaces by lia.
  reflexivity.
Qed.

Lemma clean_plain (t : str) : plain t -> _clean_latex_text t = normalize t.
Proof.
  intros Hplain. unfold _clean_latex_text.
  rewrite (re_sub_with_none _ Pat.dollar_math).
  2:{ apply (finditer_plain _ DOLLAR); [reflexivity | | exact Hplain].
      intros b w e. apply Matches_chr_first. }
  rewrite (re_sub_with_none _ Pat.paren_math).
  2:{ apply (finditer_plain _ BACKSLASH); [reflexivity | | exact Hplain].
      intros b w e. apply Matches_paren_math_first. }
  simpl. rewrite strip_commands_plain by exact Hplain. reflexivity.
Qed.

(** *** Whitespace normalization is idempotent *)

Lemma lstrip_suffix (s : str) : exists ws, s = ws ++ lstrip s.
Proof.
  induction s as [|c tl [ws IH]]; [exists []; reflexivity|]. simpl.
  destruct (is_space c).
  - exists (c :: ws). simpl. congruence.
  - exists []. reflexivity.
Qed.

Lemma rstrip_prefix (s : str) : exists ws, s = rstrip s ++ ws.
Proof.
  unfold rstrip. destruct (lstrip_suffix (reverse s)) as [ws H].
  exists (reverse ws). rewrite <- reverse_app, <- H, reverse_involutive. reflexivity.
Qed.

Lemma Forall_lstrip (P : N -> Prop) (s : str) : Forall P s -> Forall P (lstrip s).
Proof.
  intros H. destruct (lstrip_suffix s) as [ws E]. rewrite E in H.
  apply Forall_app in H. tauto.
Qed.

Lemma Forall_rstrip (P : N -> Prop) (s : str) : Forall P s -> Forall P (rstrip s).
Proof.
  intros H. destruct (rstrip_prefix s) as [ws E]. rewrite E in H.
  apply Forall_app in H. tauto.
Qed.

Lemma Forall_strip (P : N -> Prop) (s : str) : Forall P s -> Forall P (strip s).
Proof. intros H. apply Forall_rstrip, Forall_lstrip, H. Qed.

Lemma Forall_collapse (P : N -> Prop) (b : bool) (s : str) :
  P SPACE -> Forall P s -> Forall P (collapse b s).
Proof.
  intros Hsp H. revert b. induction H as [|c tl Hc _ IH]; intros b; simpl; [constructor|].
  destruct (is_space c); [destruct b|]; auto.
Qed.

Lemma lstrip_starts_black (s : str) : starts_black (lstrip s).
Proof.
  induction s as [|c tl IH]; simpl; [exact I|].
  destruct (is_space c) eqn:E; [exact IH | exact E].
Qed.

Lemma lstrip_black (s : str) : starts_black s -> lstrip s = s.
Proof. destruct s as [|c tl]; simpl; [reflexivity|]. intros ->. reflexivity. Qed.

Lemma rstrip_black (s : str) : starts_black (reverse s) -> rstrip s = s.
Proof. intros H. unfold rstrip. rewrite lstrip_black by exact H. apply reverse_involutive. Qed.

Lemma rstrip_ends_black (s : str) : starts_black (reverse (rstrip s)).
Proof. unfold rstrip. rewrite reverse_involutive. apply lstrip_starts_black. Qed.

Lemma rstrip_starts_black (s : str) : starts_black s -> starts_black (rstrip s).
Proof.
  intros H. destruct (rstrip_prefix s) as [ws E].
  destruct (rstrip s) as [|c tl]; [exact I|].
  rewrite E in H. exact H.
Qed.

Lemma strip_strip (s : str) : strip (strip s) = strip s.
Proof.
  unfold strip at 1. rewrite lstrip_black.
  - apply rstrip_black. unfold strip. apply rstrip_ends_black.
  - unfold strip. apply rstrip_starts_black, lstrip_starts_black.
Qed.

Lemma tidy_collapse (b : bool) (s : str) : tidy b (collapse b s).
Proof.
  revert b. induction s as [|c tl IH]; intros b; simpl; [exact I|].
  destruct (is_space c) eqn:E.
  - destruct b; [apply IH|]. simpl. change (is_space SPACE) with true. cbv iota.
    repeat split. apply IH.
  - simpl. rewrite E. apply IH.
Qed.

Lemma collapse_tidy (b : bool) (s : str) : tidy b s -> collapse b s = s.
Proof.
  revert b. induction s as [|c tl IH]; intros b H; simpl in *; [reflexivity|].
  destruct (is_space c).
  - destruct H as (-> & -> & H). rewrite (IH true H). reflexivity.
  - rewrite (IH false H). reflexivity.
Qed.

Lemma tidy_lstrip (b : bool) (s : str) : tidy b s -> tidy false (lstrip s).
Proof.
  revert b. induction s as [|c tl IH]; intros b H; simpl in *; [exact I|].
  destruct (is_space c) eqn:E.
  - destruct H as (_ & _ & H). apply (IH true H).
  - simpl. rewrite E. exact H.
Qed.

Lemma tidy_prefix (b : bool) (s1 s2 : str) : tidy b (s1 ++ s2) -> tidy b s1.
Proof.
  revert b. induction s1 as [|c tl IH]; intros b H; simpl in *; [exact I|].
  destruct (is_space c).
  - destruct H as (? & ? & H). split; [assumption|]. split; [assumption|]. apply (IH true H).
  - apply (IH false H).
Qed.

Lemma tidy_strip (b : bool) (s : str) : tidy b s -> tidy false (strip s).
Proof.
  intros H. apply tidy_lstrip in H. unfold strip.
  destruct (rstrip_prefix (lstrip s)) as [ws E]. rewrite E in H.
  apply tidy_prefix in H. exact H.
Qed.

Lemma detilde_fixed (s : str) : Forall (fun c => c <> TILDE) s -> map detilde s = s.
Proof.
  induction 1 as [|c tl Hc _ IH]; simpl; [reflexivity|].
  unfold detilde at 1. apply N.eqb_neq in Hc. rewrite Hc, IH. reflexivity.
Qed.

Lemma detilde_no_tilde (s : str) : Forall (fun c => c <> TILDE) (map detilde s).
Proof.
  induction s as [|c tl IH]; simpl; constructor; [|exact IH].
  unfold detilde. destruct (c =? TILDE)%N eqn:E; [discriminate | apply N.eqb_neq; exact E].
Qed.

Lemma normalize_normalize (t : str) : normalize (normalize t) = normalize t.
Proof.
  unfold normalize at 1.
  assert (Hnt : Forall (fun c => c <> TILDE) (normalize t)).
  { unfold normalize. apply Forall_strip, Forall_collapse; [discriminate|].
    apply detilde_no_tilde. }
  rewrite detilde_fixed by exact Hnt.
  rewrite collapse_tidy.
  - unfold normalize. apply strip_strip.
  - unfold normalize. eapply tidy_strip. apply tidy_collapse.
Qed.

Lemma detilde_markup (c : N) : is_markup c = false -> is_markup (detilde c) = false.
Proof. unfold detilde. destruct (c =? TILDE)%N; [reflexivity | auto]. Qed.

Lemma plain_normalize (t : str) : plain t -> plain (normalize t).
Proof.
  unfold plain, normalize. intros H.
  apply Forall_strip, Forall_collapse; [reflexivity|].
  apply Forall_fmap. eapply Forall_impl; [exact H|]. intros c. apply detilde_markup.
Qed.

Lemma plain_check (t : str) : forallb (fun c => negb (is_markup c)) t = true -> plain t.
Proof.
  intros H. unfold plain. apply Forall_forall. intros c Hc.
  rewrite forallb_forall in H. apply list_elem_of_In in Hc.
  apply H in Hc. destruct (is_markup c); [discriminate | reflexivity].
Qed.

(** C9.  On text without backslash, brace or dollar sign, the sanitizer is
    the whitespace normalization (a tilde counts as a space, every run of
    whitespace becomes one space, the ends are trimmed), and sanitizing the
    result again returns it unchanged. *)
Theorem sanitizer_idempotent_on_plain_text (t : str) :
  plain t ->
  _clean_latex_text t = normalize t
  /\ plain (_clean_latex_text t)
  /\ _clean_latex_text (_clean_latex_text t) = _clean_latex_text t.
Proof.
  intros H. rewrite (clean_plain t H).
  split; [reflexivity|]. split; [apply plain_normalize; exact H|].
  rewrite clean_plain by (apply plain_normalize; exact H).
  apply normalize_normalize.
Qed.

Lemma sanitizer_idempotent_on_plain_text_witness :
  _clean_latex_text (lit "  Hello   wide~world. ") = lit "Hello wide world."
  /\ _clean_latex_text (lit "Hello wide world.") = lit "Hello wide world.".
Proof.
  assert (Hplain : plain (lit "  Hello   wide~world. "))
    by (apply plain_check; reflexivity).
  destruct (sanitizer_idempotent_on_plain_text (lit "  Hello   wide~world. ") Hplain)
    as (H1 & _ & H2).
  assert (Hn : normalize (lit "  Hello   wide~world. ") = lit "Hello wide world.")
    by (vm_compute; reflexivity).
  rewrite H1, Hn in H2. split; [rewrite H1; exact Hn | exact H2].
Defined.

(** ** A command of the section family is found

    The scan does find a command of the section family that no backslash
    precedes. *)

Lemma skip_cons (n : nat) (pos : nat) (prev : option N) (c : N) (tl : str)
    (gs : list (nat * str)) :
  skip (S n) (MState pos prev (c :: tl) gs) = skip n (MState (S pos) (Some c) tl gs).
Proof. reflexivity. Qed.

Lemma skip_app (w : str) (pos : nat) (prev : option N) (rest : str) (gs : list (nat * str)) :
  skip (length w) (MState pos prev (w ++ rest) gs)
  = MState (pos + length w) (match reverse w with c :: _ => Some c | [] => prev end) rest gs.
Proof.
  revert pos prev. induction w as [|c w IH]; intros pos prev.
  - simpl. rewrite Nat.add_0_r. destruct rest; reflexivity.
  - cbn [length app]. rewrite skip_cons, IH. f_equal; [lia|].
    rewrite reverse_cons. destruct (reverse w); reflexivity.
Qed.

Lemma starts_with_app (w rest : str) : starts_with w (w ++ rest) = true.
Proof. induction w as [|c w IH]; simpl; [reflexivity|]. rewrite N.eqb_refl. exact IH. Qed.

Lemma rmatch_lits (s : str) (st : mstate) (k : mstate -> option mstate) :
  rmatch (Lits s) st k
  = if starts_with s (ms_rest st) then k (skip (length s) st) else None.
Proof.
  revert st. induction s as [|c s IH]; intros [pos prev rest gs].
  - simpl. destruct rest; reflexivity.
  - assert (Hchr : forall k', rmatch (Chr c) (MState pos prev rest gs) k'
                    = match rest with
                      | c' :: tl => if (c =? c')%N then k' (MState (S pos) (Some c') tl gs)
                                    else None
                      | [] => None
                      end) by reflexivity.
    destruct s as [|c2 s].
    + change (Lits [c]) with (Chr c). rewrite Hchr. cbn [ms_rest starts_with].
      destruct rest as [|c' tl]; [reflexivity|].
      destruct (c =? c')%N; [|reflexivity]. rewrite andb_true_r. reflexivity.
    + change (Lits (c :: c2 :: s)) with (Seq (Chr c) (Lits (c2 :: s))).
      cbn [rmatch]. rewrite Hchr. cbn [ms_rest].
      destruct rest as [|c' tl]; [reflexivity|].
      change (starts_with (c :: c2 :: s) (c' :: tl))
        with ((c =? c')%N && starts_with (c2 :: s) tl).
      destruct (c =? c')%N; [|reflexivity]. rewrite IH. cbn [ms_rest andb].
      destruct (starts_with (c2 :: s) tl); reflexivity.
Qed.

(** A greedy repetition of a word takes every copy when the rest of the
    pattern matches after the last one. *)
Lemma rstar_lits_greedy (s : str) (n : nat) (r' : str) (fuel pos : nat) (prev : option N)
    (gs : list (nat * str)) (k : mstate -> option mstate) (e : mstate) :
  s <> [] -> starts_with s r' = false -> n < fuel ->
  (forall prev', k (MState (pos + n * length s) prev' r' gs) = Some e) ->
  rstar (rmatch (Lits s)) true fuel (MState pos prev (concat (replicate n s) ++ r') gs) k
  = Some e.
Proof.
  intros Hs Hr'. revert fuel pos prev.
  induction n as [|n IH]; intros fuel pos prev Hf Hk;
    (destruct fuel as [|f]; [lia|]); cbn [rstar replicate concat].
  - rewrite rmatch_lits. cbn [ms_rest app]. rewrite Hr'.
    rewrite <- (Hk prev). do 2 f_equal. simpl. lia.
  - rewrite rmatch_lits. cbn [ms_rest]. rewrite <- app_assoc, starts_with_app, skip_app.
    cbn [ms_pos].
    assert (Hlen : 0 < length s) by (destruct s; [congruence | simpl; lia]).
    replace (pos <? pos + length s) with true by (symmetry; apply Nat.ltb_lt; lia).
    rewrite IH; [reflexivity | lia |].
    intros prev'. rewrite <- (Hk prev'). do 2 f_equal. simpl. lia.
Qed.

(** A greedy run of a class stops at the end of the run when the rest of
    the pattern matches there. *)
Lemma rstar_class_greedy (p : N -> bool) (run r' : str) (fuel pos : nat) (prev : option N)
    (gs : list (nat * str)) (k : mstate -> option mstate) (e : mstate) :
  Forall (fun c => p c = true) run -> starts_black_for p r' -> length run < fuel ->
  (forall prev', k (MState (pos + length run) prev' r' gs) = Some e) ->
  rstar (rmatch (Cls p)) true fuel (MState pos prev (run ++ r') gs) k = Some e.
Proof.
  intros Hrun Hr'. revert fuel pos prev.
  induction Hrun as [|c run Hc _ IH]; intros fuel pos prev Hf Hk;
    (destruct fuel as [|f]; [simpl in Hf; lia|]); cbn [rstar rmatch ms_rest app].
  - destruct r' as [|c' tl].
    + rewrite <- (Hk prev). do 2 f_equal. simpl. lia.
    + simpl in Hr'. rewrite Hr'. rewrite <- (Hk prev). do 2 f_equal. simpl. lia.
  - rewrite Hc. unfold advance. cbn [ms_pos ms_groups].
    replace (pos <? S pos) with true by (symmetry; apply Nat.ltb_lt; lia).
    simpl in Hf. rewrite IH; [reflexivity | lia |].
    intros prev'. rewrite <- (Hk prev'). do 2 f_equal. simpl. lia.
Qed.

Lemma length_copies (n : nat) (s : str) : length (concat (replicate n s)) = n * length s.
Proof.
  induction n as [|n IH]; [reflexivity|].
  change (concat (replicate (S n) s)) with (s ++ concat (replicate n s)).
  rewrite length_app, IH. simpl. lia.
Qed.

Lemma rmatch_chr_cons (c : N) (pos : nat) (prev : option N) (tl : str)
    (gs : list (nat * str)) (k : mstate -> option mstate) :
  rmatch (Chr c) (MState pos prev (c :: tl) gs) k = k (MState (S pos) (Some c) tl gs).
Proof. unfold Chr. cbn [rmatch ms_rest]. rewrite N.eqb_refl. reflexivity. Qed.

Lemma rmatch_seq (a b : regex) (st : mstate) (k : mstate -> option mstate) :
  rmatch (Seq a b) st k = rmatch a st (fun st' => rmatch b st' k).
Proof. reflexivity. Qed.

Lemma rmatch_grp (n : nat) (a : regex) (st : mstate) (k : mstate -> option mstate) :
  rmatch (Grp n a) st k = rmatch a st (fun st' => k (close_group n st st')).
Proof. reflexivity. Qed.

Lemma rmatch_star (g : bool) (a : regex) (st : mstate) (k : mstate -> option mstate) :
  rmatch (Star g a) st k = rstar (rmatch a) g (S (length (ms_rest st))) st k.
Proof. reflexivity. Qed.

(** At a command of the section family with a non-empty argument, the
    sectioning pattern matches, with the name and the argument as groups. *)
Lemma section_command_match_here (k : nat) (arg post : str) (pos : nat) :
  arg <> [] -> Forall (fun c => c <> RBRACE) arg ->
  exists m,
    (forall prev,
        match_here BlockPat.section_pattern pos prev
                   ([BACKSLASH] ++ section_name k ++ [LBRACE] ++ arg ++ [RBRACE] ++ post)
        = Some m)
    /\ m_start m = pos /\ m_groups m = [(2, arg); (1, section_name k)].
Proof.
  intros Harg Hno. destruct arg as [|a arg']; [congruence|].
  inversion Hno as [|? ? Ha Hno']; subst.
  set (name := section_name k).
  set (E := MState (S (S (S (S pos + k * 3 + 7)) + length arg')) (Some RBRACE) post
                   [(2, a :: arg'); (1, name)]).
  assert (H : forall prev, rmatch BlockPat.section_pattern
                (MState pos prev ([BACKSLASH] ++ name ++ [LBRACE] ++ (a :: arg')
                                   ++ [RBRACE] ++ post) []) Some = Some E).
  { intros prev. unfold BlockPat.section_pattern. cbn [app].
    rewrite rmatch_seq, rmatch_chr_cons, rmatch_seq, rmatch_grp.
    rewrite rmatch_seq, rmatch_star. cbn [ms_rest].
    unfold name at 1 2, section_name. rewrite <- !app_assoc.
    unfold Word. change (length (lit "sub")) with 3.
    apply rstar_lits_greedy; [discriminate | reflexivity | |].
    { rewrite length_app, length_copies. change (length (lit "sub")) with 3. lia. }
    intros prev1. change (length (lit "sub")) with 3.
    rewrite rmatch_seq, rmatch_star.
    apply (rstar_lits_greedy (lit "sub") 0
             (lit "section" ++ [LBRACE] ++ (a :: arg') ++ [RBRACE] ++ post));
      [discriminate | reflexivity | cbn [ms_rest]; lia |].
    intros prev2. rewrite rmatch_lits. cbn [ms_rest]. rewrite starts_with_app, skip_app.
    change (length (lit "section")) with 7.
    unfold close_group. cbn [ms_pos ms_prev ms_rest ms_groups].
    change (0 * length (lit "sub")) with 0.
    replace (S pos + k * 3 + 0 + 7 - S pos) with (length name)
      by (unfold name, section_name; rewrite length_app, length_copies;
          change (length (lit "sub")) with 3; change (length (lit "section")) with 7; lia).
    rewrite take_app_length.
    cbn [app]. rewrite rmatch_seq, rmatch_chr_cons, rmatch_seq, rmatch_grp.
    unfold Plus, NotChr. rewrite rmatch_seq. cbn [rmatch ms_rest] .
    assert (Hpa : negb (a =? RBRACE)%N = true)
      by (apply negb_true_iff, N.eqb_neq; exact Ha).
    rewrite Hpa. unfold advance. cbn [ms_pos ms_groups].
    apply rstar_class_greedy.
    - eapply Forall_impl; [exact Hno'|]. intros c Hc. apply negb_true_iff, N.eqb_neq. exact Hc.
    - reflexivity.
    - cbn [ms_rest]. rewrite length_app. simpl. lia.
    - intros prev3. unfold close_group. cbn [ms_pos ms_prev ms_rest ms_groups].
      replace (S (S (S pos + k * 3 + 0 + 7)) + length arg' - S (S pos + k * 3 + 0 + 7))
        with (length (a :: arg')) by (simpl; lia).
      change (a :: arg' ++ RBRACE :: post) with ((a :: arg') ++ RBRACE :: post).
      rewrite take_app_length, rmatch_chr_cons. unfold E. do 2 f_equal. lia. }
  exists (mk_match (MState pos None ([BACKSLASH] ++ name ++ [LBRACE] ++ (a :: arg')
                                      ++ [RBRACE] ++ post) []) E).
  split; [|split; reflexivity].
  intros prev. unfold match_here. rewrite H. reflexivity.
Qed.

Lemma match_here_not_backslash (pos : nat) (prev : option N) (c : N) (tl : str) :
  c <> BACKSLASH -> match_here BlockPat.section_pattern pos prev (c :: tl) = None.
Proof.
  intros Hc. unfold match_here, BlockPat.section_pattern. rewrite rmatch_seq.
  unfold Chr at 1. cbn [rmatch ms_rest].
  replace (BACKSLASH =? c)%N with false; [reflexivity|].
  symmetry. apply N.eqb_neq. congruence.
Qed.

Lemma search_at_found (r : regex) (pos : nat) (prev : option N) (rest : str) (m : rematch) :
  match_here r pos prev rest = Some m -> search_at r pos prev rest = Some m.
Proof. intros H. destruct rest; simpl; rewrite H; reflexivity. Qed.

Lemma search_at_after (pre rest : str) (pos : nat) (prev : option N) (m : rematch) :
  Forall (fun c => c <> BACKSLASH) pre ->
  (forall prev', match_here BlockPat.section_pattern (pos + length pre) prev' rest = Some m) ->
  search_at BlockPat.section_pattern pos prev (pre ++ rest) = Some m.
Proof.
  intros Hpre. revert pos prev. induction Hpre as [|c pre Hc _ IH]; intros pos prev Hm.
  - apply search_at_found. rewrite <- (Hm prev). simpl. rewrite Nat.add_0_r. reflexivity.
  - cbn [app]. rewrite search_at_skip by (apply match_here_not_backslash; exact Hc).
    apply IH. intros prev'. rewrite <- (Hm prev'). cbn [length].
    replace (S pos + length pre) with (pos + S (length pre)) by lia. reflexivity.
Qed.

(** The first command of the section family is the first match of the
    scan, when no backslash comes before it. *)
Lemma first_section_command_found (k : nat) (pre arg post : str) :
  Forall (fun c => c <> BACKSLASH) pre -> arg <> [] -> Forall (fun c => c <> RBRACE) arg ->
  exists m rest,
    finditer BlockPat.section_pattern
             (pre ++ [BACKSLASH] ++ section_name k ++ [LBRACE] ++ arg ++ [RBRACE] ++ post)
    = m :: rest
    /\ m_start m = length pre /\ group 1 m = section_name k /\ group 2 m = arg.
Proof.
  intros Hpre Harg Hno.
  destruct (section_command_match_here k arg post (0 + length pre) Harg Hno)
    as (m & Hm & Hstart & Hgroups).
  pose proof (search_at_after pre _ 0 None m Hpre Hm) as Hsearch.
  unfold finditer. cbn [finditer_from]. rewrite Hsearch.
  eexists m, _. split; [reflexivity|].
  split; [exact Hstart|]. unfold group. rewrite Hgroups. split; reflexivity.
Qed.

Lemma Forall_neq_check (x : N) (l : str) :
  forallb (fun c => negb (c =? x)%N) l = true -> Forall (fun c => c <> x) l.
Proof.
  intros H. apply Forall_forall. intros c Hc. rewrite forallb_forall in H.
  apply list_elem_of_In, H, negb_true_iff, N.eqb_neq in Hc. exact Hc.
Qed.

Lemma section_name_inj (k k' : nat) : section_name k = section_name k' -> k = k'.
Proof.
  intros H. apply (f_equal length) in H. unfold section_name in H.
  rewrite !length_app, !length_copies in H. change (length (lit "sub")) with 3 in H. lia.
Qed.

(** X22.  The commands of the section family.  For every document, the
    matches of the sectioning pattern that the left-to-right scan of the
    body returns have one node each, different matches different nodes: the
    node has the matched command name ([sub] any number of times, then
    [section]) as kind, the sanitized argument as title, a parent, and the
    level 2 for section, 3 for subsection, 4 for subsubsection (2 for longer
    names).  In terms of the text: when the body begins, after text without
    a backslash, with such a command with a non-empty argument free of
    closing braces, the tree has a node with that name as kind, the level of
    the name and the sanitized argument as title. *)
Theorem sections_are_located (tex_content : str) :
  (exists ids,
      Forall2 (section_node_of (_extract_document_body tex_content) (parse tex_content))
              (finditer BlockPat.section_pattern (_extract_document_body tex_content)) ids
      /\ NoDup ids)
  /\ (forall k pre arg post,
        _extract_document_body tex_content
        = pre ++ [BACKSLASH] ++ section_name k ++ [LBRACE] ++ arg ++ [RBRACE] ++ post ->
        Forall (fun c => c <> BACKSLASH) pre -> arg <> [] ->
        Forall (fun c => c <> RBRACE) arg ->
        exists i node,
          parse tex_content !! i = Some node
          /\ node_type node = section_name k /\ level node = section_level k
          /\ title node = _clean_latex_text arg).
Proof.
  assert (Hall : exists ids,
      Forall2 (section_node_of (_extract_document_body tex_content) (parse tex_content))
              (finditer BlockPat.section_pattern (_extract_document_body tex_content)) ids
      /\ NoDup ids).
  { unfold parse.
    destruct (segmenter_spec (_extract_document_body tex_content)
                (mkNode (document_title tex_content) [] (lit "document") [] 0))
      as (_ & _ & H); auto. }
  split; [exact Hall|].
  intros k pre arg post Hbody Hpre Harg Hno.
  destruct Hall as (ids & Hids & _). rewrite Hbody in Hids.
  destruct (first_section_command_found k pre arg post Hpre Harg Hno)
    as (m & rest & Hfind & _ & Hg1 & Hg2).
  rewrite Hfind in Hids. apply Forall2_cons_inv_l in Hids as (i & ids' & Hnode & _ & _).
  destruct Hnode as (k' & node & p & parent & _ & Hg1' & Hn & Hty & Hlv & Ht & _).
  assert (k' = k) by (apply section_name_inj; congruence). subst k'.
  exists i, node. rewrite <- Hg2. auto.
Qed.

Lemma sections_are_located_witness :
  exists i node,
    parse (lit "Notes.\subsection{Back~ground}More text.") !! i = Some node
    /\ node_type node = lit "subsection" /\ level node = 3%Z
    /\ title node = lit "Back ground".
Proof.
  destruct (sections_are_located (lit "Notes.\subsection{Back~ground}More text."))
    as [_ H].
  destruct (H 1 (lit "Notes.") (lit "Back~ground") (lit "More text.")) as (i & node & Hn).
  - reflexivity.
  - apply Forall_neq_check. reflexivity.
  - discriminate.
  - apply Forall_neq_check. reflexivity.
  - exists i, node. exact Hn.
Defined.

(** * More about the code *)

(** ** The object graph is a tree *)

Lemma built_trans (h1 h2 h3 : store) : built h1 h2 -> built h2 h3 -> built h1 h3.
Proof.
  intros H12 H23. induction H23 as [|h2 h3 p node _ IH Hp Hk|h2 h3 c i _ IH].
  - exact H12.
  - apply built_attach; auto.
  - apply built_merge; auto.
Qed.

Lemma built_length (h h' : store) : built h h' -> length h <= length h'.
Proof.
  induction 1 as [|h h' p node _ IH Hp Hk|h h' c i _ IH].
  - lia.
  - rewrite length_attach. lia.
  - rewrite length_alter. exact IH.
Qed.

Lemma built_attach_all (p : nat) (ns : list MindMapNode) (h : store) :
  p < length h -> Forall (fun n => children n = []) ns -> built h (attach_all p ns h).
Proof.
  unfold attach_all. intros Hp Hns. revert h Hp.
  induction Hns as [|node ns Hnode _ IH]; intros h Hp; simpl; [constructor|].
  eapply built_trans; [|apply IH; rewrite length_attach; lia].
  apply built_attach; [constructor | exact Hp | exact Hnode].
Qed.

Lemma built_structured_content (span : str) (i : nat) (h : store) :
  i < length h -> built h (_add_structured_content_to_section span i h).
Proof.
  intros Hi. rewrite add_structured_content_spec by exact Hi.
  apply built_attach_all; [exact Hi|].
  apply Forall_forall. intros n Hn. apply list_elem_of_fmap_1 in Hn as (e & -> & _).
  apply (element_node_fresh (level_of h i) e).
Qed.

Lemma built_fold (A : Type) (f : store -> A -> store) (cur : nat) (l : list A) (h : store) :
  (forall h x, cur < length h -> built h (f h x)) ->
  cur < length h -> built h (foldl f h l).
Proof.
  intros Hf. revert h. induction l as [|x l IH]; intros h Hcur; simpl; [constructor|].
  eapply built_trans; [apply Hf; exact Hcur|].
  apply IH. pose proof (built_length _ _ (Hf h x Hcur)). lia.
Qed.

Lemma built_loose_theorem (cur : nat) (m : rematch) (h : store) :
  cur < length h -> built h (loose_theorem cur m h).
Proof.
  intros Hcur. unfold loose_theorem. destruct (h !! cur) as [n|]; [|constructor].
  destruct (_ && _).
  - apply built_merge. constructor.
  - apply built_attach; [constructor | exact Hcur | reflexivity].
Qed.

Lemma built_loose_equation (cur : nat) (m : rematch) (h : store) :
  cur < length h -> built h (loose_equation cur m h).
Proof.
  intros Hcur. unfold loose_equation.
  apply built_attach; [constructor | exact Hcur | reflexivity].
Qed.

Lemma built_add_content (span : str) (s : stack) (h : store) :
  stack_ok h s -> built h (_add_content_to_current_section span s h).
Proof.
  intros Hs. destruct (current_section_valid h s Hs) as (cur & Hcur & Hlt).
  unfold _add_content_to_current_section. rewrite Hcur.
  eapply built_trans.
  - apply (built_fold _ (fun h m => loose_theorem cur m h) cur); [|exact Hlt].
    intros h0 x Hx. apply built_loose_theorem. exact Hx.
  - apply (built_fold _ (fun h m => loose_equation cur m h) cur).
    + intros h0 x Hx. apply built_loose_equation. exact Hx.
    + pose proof (built_length h _
        (built_fold _ (fun h m => loose_theorem cur m h) cur
           (finditer BlockPat.theorem_env span) h
           (fun h0 x Hx => built_loose_theorem cur x h0 Hx) Hlt)). lia.
Qed.

Lemma built_pre_content (body : str) (m : rematch) (st : seg_state) :
  stack_ok (sg_store st) (sg_stack st) -> built (sg_store st) (pre_content_step body m st).
Proof.
  intros Hs. unfold pre_content_step.
  destruct (current_pos st <? m_start m); [|constructor].
  destruct (is_empty _); [constructor|]. apply built_add_content. exact Hs.
Qed.

Lemma built_open_section (section_content : str) (m : rematch) (s : stack) (h : store)
    (k : nat) :
  stack_ok h s -> group 1 m = section_name k ->
  built h (open_section section_content m s h).1.
Proof.
  intros [H0 Hs] Hname. unfold open_section. rewrite Hname, section_level_get.
  pose proof (section_level_range k) as Hrange.
  set (lv := section_level k) in *.
  destruct (find_parent_found s 0 (Z.to_nat lv) (lv - 1) H0) as [Hpl [p Hp]]; [lia | lia |].
  set (pl := find_parent s (Z.to_nat lv) (lv - 1)) in *.
  destruct (0 <=? pl)%Z eqn:Epl; [|apply Z.leb_gt in Epl; lia].
  rewrite Hp. destruct (Hs pl p Hp) as (parent & Hparent & _).
  assert (Hplt : p < length h) by (eapply lookup_lt_Some; exact Hparent).
  set (node := mkNode (_clean_latex_text (group 2 m)) (_extract_main_text section_content)
                      (section_name k) [] lv).
  assert (B1 : built h (add_child p (length h) (new_node (title node) (content node)
                                                          (node_type node) (level node) h))).
  { apply (built_attach h h p node); [constructor | exact Hplt | reflexivity]. }
  cbn [fst]. destruct (is_empty (_extract_remaining_content section_content)).
  - exact B1.
  - eapply built_trans; [exact B1|]. apply built_structured_content.
    unfold add_child, new_node. rewrite length_alter, length_app. simpl. lia.
Qed.

Lemma built_section_step (body : str) (m : rematch) (nxt : nat) (st : seg_state) :
  levels_increase (sg_store st) -> stack_ok (sg_store st) (sg_stack st) ->
  match_of BlockPat.section_pattern body m ->
  built (sg_store st) (sg_store (section_step body m nxt st)).
Proof.
  intros Hinv Hs Hm.
  destruct (section_pattern_groups body m Hm) as (k & Hg & _).
  assert (Hname : group 1 m = section_name k) by (unfold group; rewrite Hg; reflexivity).
  destruct (pre_content_step_props body m st Hinv Hs) as (_ & G1 & _).
  pose proof (stack_ok_grows _ _ _ Hs G1) as S1.
  pose proof (built_open_section (strip (slice body (m_end m) nxt)) m (sg_stack st)
                (pre_content_step body m st) k S1 Hname) as B2.
  unfold section_step.
  destruct (open_section _ m (sg_stack st) (pre_content_step body m st)) as [h2 s2].
  simpl in *. eapply built_trans; [apply built_pre_content; exact Hs | exact B2].
Qed.

Lemma built_section_loop (body : str) (matches : list rematch) (st : seg_state) :
  Forall (match_of BlockPat.section_pattern body) matches ->
  levels_increase (sg_store st) -> stack_ok (sg_store st) (sg_stack st) ->
  built (sg_store st) (sg_store (section_loop body matches st))
  /\ stack_ok (sg_store (section_loop body matches st))
              (sg_stack (section_loop body matches st)).
Proof.
  intros Hms. revert st. induction Hms as [|m rest Hm _ IH]; intros st Hinv Hs; simpl.
  - split; [constructor | exact Hs].
  - set (nxt := match rest with m' :: _ => m_start m' | [] => length body end).
    destruct (section_step_spec body m nxt st Hinv Hs Hm) as (I1 & S1 & _).
    destruct (IH (section_step body m nxt st) I1 S1) as [B2 S2].
    split; [|exact S2].
    exact (built_trans _ _ _ (built_section_step body m nxt st Hinv Hs Hm) B2).
Qed.

(** The segmenter only ever appends fresh objects below objects already in
    the store, or merges a definition. *)
Lemma built_segmenter (body : str) (root : MindMapNode) :
  level root = 0%Z -> children root = [] ->
  built [root] (_parse_with_regex_fallback body [root]).
Proof.
  intros Hlv Hkids. unfold _parse_with_regex_fallback.
  set (st0 := SegState [root] {[ 0%Z := 0 ]} 0).
  assert (I0 : levels_increase (sg_store st0)).
  { intros i n c Hi Hc. destruct i as [|i]; [|discriminate]. injection Hi as <-.
    rewrite Hkids in Hc. inversion Hc. }
  assert (S0 : stack_ok (sg_store st0) (sg_stack st0)).
  { split; [apply lookup_singleton_eq|]. intros l j Hj. simpl in Hj.
    apply lookup_singleton_Some in Hj as [<- <-]. exists root. auto. }
  destruct (built_section_loop body (finditer BlockPat.section_pattern body) st0
              (finditer_sound _ _) I0 S0) as [B S].
  destruct (_ <? _); [|exact B].
  destruct (is_empty _); [exact B|].
  eapply built_trans; [exact B|]. apply built_add_content. exact S.
Qed.

Lemma children_with_definition_alter (c : str) (i : nat) (h : store) :
  map children (alter (with_definition c) i h) = map children h.
Proof.
  revert i. induction h as [|n h IH]; intros [|i]; simpl; try reflexivity.
  f_equal. apply IH.
Qed.

Lemma child_refs_with_child (c p : nat) (h : store) :
  p < length h -> Permutation (child_refs (alter (with_child c) p h)) (c :: child_refs h).
Proof.
  unfold child_refs. revert p. induction h as [|n h IH]; intros p Hp; simpl in Hp; [lia|].
  destruct p as [|p]; simpl.
  - rewrite <- app_assoc. simpl. symmetry. apply Permutation_middle.
  - apply Permutation_trans with (children n ++ c :: concat (map children h)).
    + apply Permutation_app_head. apply IH. lia.
    + symmetry. apply Permutation_middle.
Qed.

Lemma child_refs_attach (p : nat) (node : MindMapNode) (h : store) :
  p < length h -> children node = [] ->
  Permutation (child_refs (attach p node h)) (child_refs h ++ [length h]).
Proof.
  intros Hp Hk. unfold attach, add_child.
  rewrite child_refs_with_child by (rewrite length_app; simpl; lia).
  unfold child_refs. rewrite map_app, concat_app. simpl. rewrite Hk. simpl.
  rewrite app_nil_r. apply Permutation_cons_append.
Qed.

Lemma built_child_refs (h h' : store) :
  built h h' ->
  Permutation (child_refs h') (child_refs h ++ seq (length h) (length h' - length h)).
Proof.
  induction 1 as [h|h h' p node B IH Hp Hk|h h' c i B IH].
  - rewrite Nat.sub_diag. simpl. rewrite app_nil_r. reflexivity.
  - pose proof (built_length _ _ B) as Hle.
    rewrite child_refs_attach by assumption. rewrite IH, length_attach.
    replace (S (length h') - length h) with (S (length h' - length h)) by lia.
    rewrite seq_S, app_assoc. replace (length h + (length h' - length h)) with (length h') by lia.
    reflexivity.
  - unfold child_refs. rewrite children_with_definition_alter, length_alter. exact IH.
Qed.

Lemma built_children_later (h h' : store) :
  built h h' -> children_later h -> children_later h'.
Proof.
  induction 1 as [h|h h' p node B IH Hp Hk|h h' c i B IH]; intros H0.
  - exact H0.
  - specialize (IH H0). intros i n c Hi Hc. rewrite length_attach.
    unfold attach, add_child in Hi.
    destruct (decide (i = p)) as [->|Hne].
    + rewrite list_lookup_alter_eq in Hi.
      rewrite lookup_app_l in Hi by exact Hp.
      destruct (h' !! p) as [n0|] eqn:E; [|discriminate]. simpl in Hi. injection Hi as <-.
      simpl in Hc. apply elem_of_app in Hc as [Hc|Hc].
      * pose proof (IH p n0 c E Hc). lia.
      * apply list_elem_of_singleton in Hc as ->. lia.
    + rewrite list_lookup_alter_ne in Hi by congruence.
      destruct (decide (i < length h')) as [Hlt|Hge].
      * rewrite lookup_app_l in Hi by exact Hlt. pose proof (IH i n c Hi Hc). lia.
      * rewrite lookup_app_r in Hi by lia.
        destruct (i - length h') as [|k]; [|discriminate]. injection Hi as <-.
        rewrite Hk in Hc. inversion Hc.
  - specialize (IH H0). intros j n d Hj Hd. rewrite length_alter.
    destruct (decide (j = i)) as [->|Hne].
    + rewrite list_lookup_alter_eq in Hj.
      destruct (h' !! i) as [n0|] eqn:E; [|discriminate]. simpl in Hj. injection Hj as <-.
      exact (IH i n0 d E Hd).
    + rewrite list_lookup_alter_ne in Hj by congruence. exact (IH j n d Hj Hd).
Qed.

Lemma built_parse (tex_content : str) :
  built [mkNode (document_title tex_content) [] (lit "document") [] 0] (parse tex_content).
Proof. unfold parse. apply built_segmenter; reflexivity. Qed.

Lemma children_later_root (root : MindMapNode) : children root = [] -> children_later [root].
Proof.
  intros Hk i n c Hi Hc. destruct i as [|i]; [|discriminate]. injection Hi as <-.
  rewrite Hk in Hc. inversion Hc.
Qed.

Lemma to_tree_enough_fuel (h : store) :
  children_later h ->
  forall fuel i, i < length h -> length h - i <= fuel -> is_Some (to_tree fuel h i).
Proof.
  intros Hlater. induction fuel as [|f IH]; intros i Hi Hfuel; [lia|].
  simpl. destruct (lookup_lt_is_Some_2 h i Hi) as [n Hn]. rewrite Hn.
  assert (Hkids : is_Some (mapM (to_tree f h) (children n))).
  { apply mapM_is_Some. apply Forall_forall. intros c Hc.
    pose proof (Hlater i n c Hn Hc). apply IH; lia. }
  destruct Hkids as [kids ->]. eauto.
Qed.

(** X1. Whatever the input, every child reference of the store that
    [parse] leaves points to an object of the store created after its
    parent: the object graph has no cycle and no dangling child. *)
Theorem parse_children_created_later (tex_content : str) :
  children_later (parse tex_content).
Proof.
  apply (built_children_later _ _ (built_parse tex_content)).
  apply children_later_root. reflexivity.
Qed.

(** X2. Whatever the input, the children lists of the store that [parse]
    leaves name every object other than the root exactly once: each parsed
    node has one parent and is attached once. *)
Theorem parse_one_parent_each (tex_content : str) :
  Permutation (child_refs (parse tex_content)) (seq 1 (length (parse tex_content) - 1)).
Proof.
  exact (built_child_refs _ _ (built_parse tex_content)).
Qed.

(** X3. Reading the tree below the root, as [to_dict] does, ends for every
    input: with as many steps as the store has objects, [to_tree] returns
    a tree whose root carries the document title. *)
Theorem parse_tree_is_read (tex_content : str) :
  exists c ty kids,
    to_tree (length (parse tex_content)) (parse tex_content) 0
    = Some (Tree (document_title tex_content) c ty 0 kids).
Proof.
  destruct (parse_levels_increase tex_content) as (_ & root & Hroot & Hlv & Ht).
  assert (Hlen : 0 < length (parse tex_content)) by (eapply lookup_lt_Some; exact Hroot).
  destruct (to_tree_enough_fuel _ (built_children_later _ _ (built_parse tex_content)
              (children_later_root (mkNode (document_title tex_content) [] (lit "document") [] 0)
                 eq_refl)) (length (parse tex_content)) 0 Hlen)
    as [t Ht']; [lia|].
  destruct (length (parse tex_content)) as [|f]; [lia|].
  simpl in Ht' |- *. rewrite Hroot in Ht' |- *.
  destruct (mapM (to_tree f (parse tex_content)) (children root)) as [kids|]; [|discriminate].
  exists (content root), (node_type root), kids. rewrite Ht, Hlv. reflexivity.
Qed.

Lemma child_refs_parent (h : store) (c : nat) :
  c ∈ child_refs h -> exists j n, h !! j = Some n /\ c ∈ children n.
Proof.
  unfold child_refs. intros Hc. apply list_elem_of_In, in_concat in Hc as (l & Hl & Hc).
  apply in_map_iff in Hl as (n & <- & Hn).
  apply list_elem_of_In, list_elem_of_lookup_1 in Hn as [j Hj].
  exists j, n. split; [exact Hj | apply list_elem_of_In; exact Hc].
Qed.

(** X4. Whatever the input, in the store that [parse] leaves the level
    grows strictly from every object to each of its children, the root has
    level 0 and every other object has a positive level. *)
Theorem parse_levels (tex_content : str) :
  levels_increase (parse tex_content)
  /\ forall i n, parse tex_content !! i = Some n ->
                 (i = 0 -> level n = 0%Z) /\ (0 < i -> (0 < level n)%Z).
Proof.
  destruct (parse_levels_increase tex_content) as (Hinc & root & Hroot & Hlv & _).
  split; [exact Hinc|].
  pose proof (built_children_later _ _ (built_parse tex_content)
                (children_later_root (mkNode (document_title tex_content) [] (lit "document") [] 0)
                   eq_refl)) as Hlater.
  pose proof (built_child_refs _ _ (built_parse tex_content)) as Hperm.
  simpl in Hperm. set (h := parse tex_content) in *.
  intros i. induction (lt_wf i) as [i _ IH]. intros n Hn.
  split.
  - intros ->. congruence.
  - intros Hpos.
    assert (Hi : i ∈ child_refs h).
    { rewrite Hperm. apply elem_of_seq. apply lookup_lt_Some in Hn. lia. }
    destruct (child_refs_parent h i Hi) as (j & p & Hp & Hc).
    destruct (Hlater j p i Hp Hc) as [Hji _].
    destruct (Hinc j p i Hp Hc) as (n' & Hn' & Hlt).
    assert (n' = n) as -> by congruence.
    destruct (IH j Hji p Hp) as [Hzero Hposj].
    destruct j as [|j]; [rewrite Hzero in Hlt by reflexivity; exact Hlt|].
    specialize (Hposj ltac:(lia)). lia.
Qed.

(** ** The section stack *)

Lemma find_parent_skips (s : stack) (fuel : nat) (x l : Z) :
  (find_parent s fuel x < l <= x)%Z -> s !! l = None.
Proof.
  revert x. induction fuel as [|f IH]; intros x Hl; simpl in Hl; [lia|].
  destruct (0 <=? x)%Z; simpl in Hl; [|lia].
  destruct (bool_decide (s !! x = None)) eqn:E; [|lia].
  apply bool_decide_eq_true in E.
  destruct (decide (l = x)) as [->|Hne]; [exact E|]. apply (IH (x - 1)%Z). lia.
Qed.

Lemma attach_other (p j : nat) (node : MindMapNode) (h : store) :
  j <> p -> j < length h -> attach p node h !! j = h !! j.
Proof.
  intros Hne Hj. unfold attach, add_child.
  rewrite list_lookup_alter_ne by congruence. apply lookup_app_l. exact Hj.
Qed.

Lemma attach_all_other (p j : nat) (ns : list MindMapNode) (h : store) :
  j <> p -> j < length h -> attach_all p ns h !! j = h !! j.
Proof.
  unfold attach_all. intros Hne. revert h. induction ns as [|node ns IH]; intros h Hj; simpl.
  - reflexivity.
  - rewrite IH by (rewrite length_attach; lia). apply attach_other; assumption.
Qed.

(** X5. The nesting rule of the segmenter.  A section command of level
    [lv] is put last among the children of the object that the stack holds
    at the greatest level below [lv]; afterwards the stack holds the new
    object at [lv], nothing deeper, and what it held above. *)
Theorem section_goes_below_nearest_open_level (section_content : str) (m : rematch)
    (s : stack) (h : store) (k : nat) :
  stack_ok h s -> group 1 m = section_name k ->
  let lv := section_level k in
  let r := open_section section_content m s h in
  (exists pl p parent,
      (0 <= pl < lv)%Z /\ s !! pl = Some p
      /\ (forall l, (pl < l < lv)%Z -> s !! l = None)
      /\ r.1 !! p = Some parent /\ last (children parent) = Some (length h))
  /\ r.2 !! lv = Some (length h)
  /\ (forall l, (lv < l)%Z -> r.2 !! l = None)
  /\ (forall l, (l < lv)%Z -> r.2 !! l = s !! l).
Proof.
  intros [H0 Hs] Hname. unfold open_section. rewrite Hname, section_level_get.
  pose proof (section_level_range k) as Hrange.
  set (lv := section_level k) in *.
  destruct (find_parent_found s 0 (Z.to_nat lv) (lv - 1) H0) as [Hpl [p Hp]]; [lia | lia |].
  pose proof (fun l => find_parent_skips s (Z.to_nat lv) (lv - 1) l) as Hskip.
  set (pl := find_parent s (Z.to_nat lv) (lv - 1)) in *.
  destruct (0 <=? pl)%Z eqn:Epl; [|apply Z.leb_gt in Epl; lia].
  rewrite Hp. destruct (Hs pl p Hp) as (parent & Hparent & _).
  assert (Hplt : p < length h) by (eapply lookup_lt_Some; exact Hparent).
  cbn [fst snd]. split; [|split; [|split]].
  - exists pl, p, (with_child (length h) parent).
    split; [lia|]. split; [exact Hp|]. split; [intros l Hl; apply Hskip; lia|].
    assert (P1 : add_child p (length h)
                   (new_node (_clean_latex_text (group 2 m)) (_extract_main_text section_content)
                      (section_name k) lv h) !! p = Some (with_child (length h) parent)).
    { unfold add_child, new_node.
      rewrite list_lookup_alter_eq, lookup_app_l, Hparent by exact Hplt. reflexivity. }
    split; [|simpl; apply last_snoc].
    destruct (is_empty _); [exact P1|].
    rewrite add_structured_content_spec
      by (unfold add_child, new_node; rewrite length_alter, length_app; simpl; lia).
    rewrite attach_all_other; [exact P1 | lia |].
    unfold add_child, new_node. rewrite length_alter, length_app. simpl. lia.
  - apply clear_deeper_lookup. split; [apply lookup_insert_eq | simpl; lia].
  - intros l Hl. apply eq_None_not_Some. intros [j Hj].
    apply clear_deeper_lookup in Hj as [_ Hle]. lia.
  - intros l Hl. apply option_eq. intros j. rewrite clear_deeper_lookup.
    rewrite lookup_insert_ne by lia. split; [tauto | intros; split; [assumption | lia]].
Qed.

Lemma section_goes_below_nearest_open_level_witness :
  (open_section (lit "Text.")
     (ReMatch 0 20 (lit "\subsubsection{Deep}") [(2, lit "Deep"); (1, lit "subsubsection")])
     (<[2%Z := 1]> {[ 0%Z := 0 ]})
     [mkNode (lit "Doc") [] (lit "document") [1] 0; mkNode (lit "One") [] (lit "section") [] 2]).2
  !! 4%Z = Some 2.
Proof.
  destruct (section_goes_below_nearest_open_level (lit "Text.")
              (ReMatch 0 20 (lit "\subsubsection{Deep}")
                 [(2, lit "Deep"); (1, lit "subsubsection")])
              (<[2%Z := 1]> {[ 0%Z := 0 ]})
              [mkNode (lit "Doc") [] (lit "document") [1] 0;
               mkNode (lit "One") [] (lit "section") [] 2] 2) as (_ & H & _).
  - split; [reflexivity|]. intros l j Hl.
    apply lookup_insert_Some in Hl as [[<- <-]|[_ Hl]].
    + eexists. split; reflexivity.
    + apply lookup_singleton_Some in Hl as [<- <-]. eexists. split; reflexivity.
  - reflexivity.
  - exact H.
Defined.

(** ** The outline renderer *)






Lemma group_sentences_spec (sentences current_paragraph formatted : list str) :
  length current_paragraph < 3 ->
  exists groups,
    group_sentences sentences current_paragraph formatted
    = formatted ++ map (join [SPACE]) groups
    /\ concat groups = current_paragraph ++ map strip sentences
    /\ Forall (fun g => 1 <= length g <= 3) groups.
Proof.
  revert current_paragraph formatted.
  induction sentences as [|sentence tl IH]; intros cur formatted Hcur; cbn [group_sentences map].
  - destruct cur as [|s cur].
    + exists []. simpl. rewrite app_nil_r. auto.
    + exists [s :: cur]. simpl. rewrite !app_nil_r.
      split; [reflexivity|]. split; [reflexivity|]. constructor; [simpl in *; lia | constructor].
  - destruct ((3 <=? length (cur ++ [strip sentence])) || has_marker sentence) eqn:E.
    + destruct (IH [] (formatted ++ [join [SPACE] (cur ++ [strip sentence])])) as (gs & H1 & H2 & H3);
        [simpl; lia|].
      exists ((cur ++ [strip sentence]) :: gs). rewrite H1. simpl. rewrite H2. simpl.
      rewrite <- !app_assoc. simpl. split; [reflexivity|]. split; [reflexivity|].
      constructor; [|exact H3]. rewrite length_app. simpl. lia.
    + apply orb_false_iff in E as [E _]. apply Nat.leb_gt in E.
      destruct (IH (cur ++ [strip sentence]) formatted E) as (gs & H1 & H2 & H3).
      exists gs. rewrite H1, H2, <- app_assoc. auto.
Qed.

(** X7. The paragraphs of [_format_text_for_display]: the sentences that
    the split gives are stripped and grouped, in their order and without
    loss, into paragraphs of one to three sentences; the sentences of a
    paragraph are joined by a blank and the paragraphs by two line breaks. *)
Theorem display_text_paragraphs (text : str) :
  exists groups,
    _format_text_for_display text = join (lit "<br><br>") (map (join [SPACE]) groups)
    /\ concat groups = map strip (re_split sentence_break text)
    /\ Forall (fun g => 1 <= length g <= 3) groups.
Proof.
  unfold _format_text_for_display.
  destruct (group_sentences_spec (re_split sentence_break text) [] []) as (gs & H1 & H2 & H3);
    [simpl; lia|].
  exists gs. rewrite H1. auto.
Qed.

(** ** The order of the blocks *)

Lemma ascending_snoc (l : list nat) (x : nat) :
  ascending l -> Forall (fun a => a <= x) l -> ascending (l ++ [x]).
Proof.
  induction l as [|a l IH]; simpl; intros Hl Hx; [split; [constructor | exact I]|].
  destruct Hl as [Ha Hl]. apply Forall_cons in Hx as [Hax Hx]. split; [|apply IH; assumption].
  apply Forall_app. split; [exact Ha | repeat constructor; exact Hax].
Qed.

Lemma insert_by_start_elem (x y : element) (l : list element) :
  y ∈ insert_by_start x l -> y = x \/ y ∈ l.
Proof.
  induction l as [|z l IH]; simpl.
  - intros H. apply list_elem_of_singleton in H. auto.
  - destruct (e_start x <=? e_start z).
    + intros H. apply elem_of_cons in H as [H|H]; auto.
    + intros H. apply elem_of_cons in H as [H|H]; [right; apply elem_of_cons; auto|].
      destruct (IH H) as [->|Hy]; [auto | right; apply elem_of_cons; auto].
Qed.

Lemma insert_by_start_ascending (x : element) (l : list element) :
  ascending (map e_start l) -> ascending (map e_start (insert_by_start x l)).
Proof.
  induction l as [|z l IH]; simpl; intros Hl; [split; [constructor | exact I]|].
  destruct Hl as [Hz Hl]. destruct (e_start x <=? e_start z) eqn:E.
  - apply Nat.leb_le in E. simpl. split; [|split; assumption].
    constructor; [exact E|]. eapply Forall_impl; [exact Hz|]. simpl. intros b Hb. lia.
  - apply Nat.leb_gt in E. simpl. split; [|apply IH; exact Hl].
    apply Forall_forall. intros b Hb.
    apply list_elem_of_In, in_map_iff in Hb as (y & <- & Hy). apply list_elem_of_In in Hy.
    apply insert_by_start_elem in Hy as [->|Hy]; [lia|].
    rewrite Forall_forall in Hz. apply Hz. apply list_elem_of_In, in_map.
    apply list_elem_of_In. exact Hy.
Qed.

Lemma sort_by_start_ascending (l : list element) : ascending (map e_start (sort_by_start l)).
Proof.
  induction l as [|x l IH]; simpl; [exact I|]. apply insert_by_start_ascending. exact IH.
Qed.

Lemma update_last_starts (f : element -> element) (l : list element) :
  (forall e, e_start (f e) = e_start e) ->
  map e_start (update_last f l) = map e_start l.
Proof.
  intros Hf. destruct l as [|x l] using rev_ind; [reflexivity|].
  rewrite update_last_snoc, !map_app. simpl. rewrite Hf. reflexivity.
Qed.

Lemma attach_before_starts (span : str) (last_end : nat) (e : element) (enhanced : list element) :
  map e_start (attach_before span last_end e enhanced) = map e_start enhanced.
Proof.
  unfold attach_before.
  repeat match goal with
         | |- context [if ?b then _ else _] => destruct b
         | |- context [match ?x with _ => _ end] => destruct x
         end;
    try reflexivity; apply update_last_starts; reflexivity.
Qed.

Lemma attach_after_starts (span : str) (e : element) (next_start : nat)
    (enhanced : list element) :
  map e_start (attach_after span e next_start enhanced) = map e_start enhanced
  \/ (map e_start (attach_after span e next_start enhanced) = map e_start enhanced ++ [e_end e]
      /\ e_end e < next_start).
Proof.
  unfold attach_after.
  destruct (is_prose (strip (slice span (e_end e) next_start))) eqn:Hprose; [|auto].
  destruct (is_empty _); [auto|].
  destruct (e_type e); try (left; apply update_last_starts; reflexivity);
    (right; rewrite map_app; split; [reflexivity|];
     destruct (decide (e_end e < next_start)) as [Hlt|Hge]; [exact Hlt|];
     exfalso; unfold slice in Hprose;
     replace (next_start - e_end e) with 0 in Hprose by lia;
     rewrite take_0 in Hprose; discriminate Hprose).
Qed.

Lemma enhance_ascending (span : str) (elements : list element) :
  forall last_end enhanced,
    ascending (map e_start elements) ->
    Forall (fun e => e_start e <= e_end e) elements ->
    ascending (map e_start enhanced) ->
    (forall a b, a ∈ map e_start enhanced -> b ∈ map e_start elements -> a <= b) ->
    ascending (map e_start (enhance span elements last_end enhanced)).
Proof.
  induction elements as [|e rest IH]; intros last_end enhanced Hsorted Hspan Hasc Hbound;
    cbn [enhance]; [exact Hasc|].
  simpl in Hsorted. destruct Hsorted as [Hhead Hrest]. apply Forall_cons in Hspan as [He Hspan].
  set (next_start := match rest with e' :: _ => e_start e' | [] => length span end).
  set (enhanced2 := attach_before span last_end e enhanced ++ [e]).
  assert (S2 : map e_start enhanced2 = map e_start enhanced ++ [e_start e]).
  { unfold enhanced2. rewrite map_app, attach_before_starts. reflexivity. }
  assert (A2 : ascending (map e_start enhanced2)).
  { rewrite S2. apply ascending_snoc; [exact Hasc|]. apply Forall_forall. intros a Ha.
    apply Hbound; [exact Ha | simpl; left]. }
  assert (Hnext : forall b, b ∈ map e_start rest -> next_start <= b).
  { intros b Hb. destruct rest as [|e' rest']; [inversion Hb|]. simpl in Hb, Hrest.
    apply elem_of_cons in Hb as [->|Hb]; [reflexivity|].
    destruct Hrest as [Hle _]. rewrite Forall_forall in Hle. apply Hle. exact Hb. }
  rewrite Forall_forall in Hhead.
  apply IH; [exact Hrest | exact Hspan | |].
  - destruct (attach_after_starts span e next_start enhanced2) as [->|[-> Hlt]]; [exact A2|].
    apply ascending_snoc; [exact A2|]. rewrite S2. apply Forall_forall. intros a Ha.
    apply elem_of_app in Ha as [Ha|Ha].
    + specialize (Hbound a (e_start e) Ha ltac:(simpl; left)). lia.
    + apply list_elem_of_singleton in Ha as ->. exact He.
  - intros a b Ha Hb.
    assert (Hold : forall a, a ∈ map e_start enhanced2 -> a <= b).
    { intros a' Ha'. rewrite S2 in Ha'. apply elem_of_app in Ha' as [Ha'|Ha'].
      - apply Hbound; [exact Ha' | simpl; right; exact Hb].
      - apply list_elem_of_singleton in Ha' as ->. apply Hhead. exact Hb. }
    destruct (attach_after_starts span e next_start enhanced2) as [Heq|[Heq Hlt]];
      rewrite Heq in Ha; [apply Hold; exact Ha|].
    apply elem_of_app in Ha as [Ha|Ha]; [apply Hold; exact Ha|].
    apply list_elem_of_singleton in Ha as ->. specialize (Hnext b Hb). lia.
Qed.

Lemma match_of_span (r : regex) (text : str) (m : rematch) :
  match_of r text m -> m_start m <= m_end m.
Proof. intros (b & e & _ & _ & _ & _ & Hend & _). lia. Qed.

Lemma finditer_span (r : regex) (text : str) (m : rematch) :
  In m (finditer r text) -> m_start m <= m_end m.
Proof.
  intros Hm. pose proof (finditer_sound r text) as Hs. rewrite Forall_forall in Hs.
  apply (match_of_span r text). apply Hs. apply list_elem_of_In. exact Hm.
Qed.

Lemma all_elements_span (span : str) :
  Forall (fun e => e_start e <= e_end e) (all_elements span).
Proof.
  rewrite all_elements_perm. rewrite !Forall_app. split; [|split]; apply Forall_forall; intros e He;
    apply list_elem_of_In in He.
  - unfold equation_elements, equation_matches in He.
    apply in_flat_map in He as (m & Hm & He). apply in_flat_map in Hm as (r & _ & Hm).
    unfold equation_element in He. destruct (is_empty _); [inversion He|].
    destruct He as [<-|[]]. simpl. eapply finditer_span. exact Hm.
  - unfold theorem_elements in He. apply in_map_iff in He as (m & <- & Hm).
    simpl. eapply finditer_span. exact Hm.
  - unfold paragraph_elements in He. apply in_flat_map in He as (m & Hm & He).
    unfold paragraph_element in He. destruct (is_empty _); [inversion He|].
    destruct He as [<-|[]]. simpl. eapply finditer_span. exact Hm.
Qed.

(** X8. The blocks of a section come in the order of the text.  The
    objects that the block extractor appends are the nodes of its elements,
    in the order of the elements, which is the order of their start
    positions in the content, whatever the kinds of the blocks. *)
Theorem blocks_in_text_order (span : str) (i : nat) (h : store) :
  i < length h ->
  ascending (map e_start (enhanced_elements span))
  /\ new_nodes h (_add_structured_content_to_section span i h)
     = map (element_node (level_of h i + 1)) (enhanced_elements span)
  /\ exists section,
       h !! i = Some section
       /\ _add_structured_content_to_section span i h !! i
          = Some (with_children (seq (length h) (length (enhanced_elements span))) section).
Proof.
  intros Hi. split; [|split].
  - unfold enhanced_elements. apply enhance_ascending.
    + apply sort_by_start_ascending.
    + apply all_elements_span.
    + exact I.
    + intros a b Ha. inversion Ha.
  - apply new_nodes_structured. exact Hi.
  - destruct (lookup_lt_is_Some_2 h i Hi) as [section Hsec]. exists section.
    split; [exact Hsec|].
    rewrite add_structured_content_spec, attach_all_valid by exact Hi.
    rewrite lookup_app_l by (rewrite length_alter; exact Hi).
    rewrite list_lookup_alter_eq, Hsec, length_map. reflexivity.
Qed.

Lemma blocks_in_text_order_witness :
  ascending (map e_start (enhanced_elements (lit "$$x$$ and \begin{theorem}T\end{theorem}")))
  /\ new_nodes [mkNode (lit "S") [] (lit "section") [] 2]
       (_add_structured_content_to_section (lit "$$x$$ and \begin{theorem}T\end{theorem}") 0
          [mkNode (lit "S") [] (lit "section") [] 2])
     = [ mkNode (lit "Key Equation") (lit "$$x$$ and") (lit "equation_with_explanation") [] 3;
         mkNode (lit "Theorem") (lit "T") (lit "theorem") [] 3 ].
Proof.
  destruct (blocks_in_text_order (lit "$$x$$ and \begin{theorem}T\end{theorem}") 0
              [mkNode (lit "S") [] (lit "section") [] 2]) as (H1 & H2 & _).
  - simpl. lia.
  - split; [exact H1|]. rewrite H2. vm_compute. reflexivity.
Defined.

(** ** Occurrences of a word *)

Lemma starts_with_true (p s : str) : starts_with p s = true <-> exists y, s = p ++ y.
Proof.
  revert s. induction p as [|a p IH]; intros s; simpl.
  - split; [intros _; exists s; reflexivity | reflexivity].
  - destruct s as [|b s].
    + split; [discriminate | intros [y Hy]; discriminate Hy].
    + rewrite andb_true_iff, IH, N.eqb_eq. split.
      * intros [-> [y ->]]. exists y. reflexivity.
      * intros [y Hy]. injection Hy as -> ->. split; [reflexivity | exists y; reflexivity].
Qed.

Lemma contains_false (w a : str) (i : nat) :
  contains w a = false -> starts_with w (drop i a) = false.
Proof.
  revert i. induction a as [|c a IH]; intros i H; simpl in H; apply orb_false_iff in H as [H1 H2].
  - rewrite drop_nil. exact H1.
  - destruct i as [|i]; [exact H1 | simpl; apply IH; exact H2].
Qed.

(** A word whose first character does not occur again in it cannot begin
    inside a text without the word and run on into an occurrence that
    follows the text. *)
Lemma no_straddle (c : N) (w' a b : str) (i : nat) :
  c ∉ w' -> contains (c :: w') a = false -> i < length a ->
  starts_with (c :: w') (drop i a ++ (c :: w') ++ b) = false.
Proof.
  intros Hc Ha Hi. apply not_true_is_false. intros H.
  apply starts_with_true in H as [y Hy].
  pose proof (contains_false _ a i Ha) as Hno.
  apply app_eq_app in Hy as [l [[Hd Hw]|[Hw Hd]]].
  - apply not_true_iff_false in Hno. apply Hno. apply starts_with_true. exists l. exact Hd.
  - destruct (drop i a) as [|c0 d] eqn:Ed.
    { apply (f_equal length) in Ed. rewrite length_drop in Ed. simpl in Ed. lia. }
    simpl in Hw. injection Hw as <- Hw'. destruct l as [|c1 l].
    + apply not_true_iff_false in Hno. apply Hno. apply starts_with_true. exists [].
      rewrite app_nil_r in Hw'. rewrite app_nil_r, Hw'. reflexivity.
    + simpl in Hd. injection Hd as <- _. apply Hc. rewrite Hw'.
      apply elem_of_app. right. left.
Qed.

(** ** The document environment is found *)

(** A lazy [.*?] stops at the first position where the rest of the pattern
    matches. *)
Lemma rstar_any_lazy (w rest : str) (gs : list (nat * str)) (k : mstate -> option mstate) :
  forall fuel pos prev,
    length w < fuel ->
    (forall i prev', i < length w -> k (MState (pos + i) prev' (drop i w ++ rest) gs) = None) ->
    (forall prev', k (MState (pos + length w) prev' rest gs) <> None) ->
    exists prev',
      rstar (rmatch AnyChar) false fuel (MState pos prev (w ++ rest) gs) k
      = k (MState (pos + length w) prev' rest gs).
Proof.
  induction w as [|c w IH]; intros fuel pos prev Hfuel Hnone Hsome;
    (destruct fuel as [|f]; [simpl in Hfuel; lia|]); cbn [rstar app].
  - exists prev. simpl. rewrite Nat.add_0_r in *.
    destruct (k (MState pos prev rest gs)) eqn:E; [reflexivity|].
    exfalso. exact (Hsome prev E).
  - pose proof (Hnone 0 prev ltac:(simpl; lia)) as H0.
    rewrite Nat.add_0_r in H0. simpl in H0. rewrite H0.
    change (rmatch AnyChar (MState pos prev (c :: w ++ rest) gs))
      with (fun k' : mstate -> option mstate => k' (MState (S pos) (Some c) (w ++ rest) gs)).
    cbn beta. cbn [ms_pos].
    replace (pos <? S pos) with true by (symmetry; apply Nat.ltb_lt; lia).
    destruct (IH f (S pos) (Some c)) as [prev' Hprev'].
    + simpl in Hfuel. lia.
    + intros i prev' Hi. replace (S pos + i) with (pos + S i) by lia.
      apply (Hnone (S i) prev'). simpl. lia.
    + intros prev'. replace (S pos + length w) with (pos + length (c :: w)) by (simpl; lia).
      apply Hsome.
    + exists prev'. rewrite Hprev'. simpl. replace (pos + S (length w)) with (S pos + length w) by lia.
      reflexivity.
Qed.

Lemma search_at_first (r : regex) (pre rest : str) (m : rematch) :
  forall pos prev,
    (forall i prev', i < length pre -> match_here r (pos + i) prev' (drop i pre ++ rest) = None) ->
    (forall prev', match_here r (pos + length pre) prev' rest = Some m) ->
    search_at r pos prev (pre ++ rest) = Some m.
Proof.
  induction pre as [|c pre IH]; intros pos prev Hnone Hsome.
  - apply search_at_found. rewrite <- (Hsome prev). simpl. rewrite Nat.add_0_r. reflexivity.
  - cbn [app]. rewrite search_at_skip.
    + apply IH.
      * intros i prev' Hi. replace (S pos + i) with (pos + S i) by lia.
        apply (Hnone (S i) prev'). simpl. lia.
      * intros prev'. rewrite <- (Hsome prev'). cbn [length].
        replace (S pos + length pre) with (pos + S (length pre)) by lia. reflexivity.
    + pose proof (Hnone 0 prev ltac:(simpl; lia)) as H0. rewrite Nat.add_0_r in H0. exact H0.
Qed.

Lemma lits_match_here_none (B : str) (r : regex) (pos : nat) (prev : option N) (rest : str) :
  B <> [] -> starts_with B rest = false -> match_here (Lits B +> r) pos prev rest = None.
Proof.
  intros HB H. unfold match_here. rewrite rmatch_seq, rmatch_lits. cbn [ms_rest]. rewrite H.
  reflexivity.
Qed.

(** The pattern [B(.*?)E] at the beginning of [B ++ body ++ E ++ post],
    when [E] begins nowhere in [body]. *)
Lemma lazy_env_match_here (B E body post : str) (pos : nat) (prev : option N) :
  (forall i, i < length body -> starts_with E (drop i body ++ E ++ post) = false) ->
  match_here (Lits B +> Grp 1 (Star false AnyChar) +> Lits E) pos prev (B ++ body ++ E ++ post)
  = Some (ReMatch pos (pos + length B + length body + length E)
            (take (pos + length B + length body + length E - pos) (B ++ body ++ E ++ post))
            [(1, body)]).
Proof.
  intros Hbody. unfold match_here.
  rewrite rmatch_seq, rmatch_lits. cbn [ms_rest]. rewrite starts_with_app, skip_app.
  set (p1 := match reverse B with c :: _ => Some c | [] => prev end).
  rewrite rmatch_seq, rmatch_grp, rmatch_star. cbn [ms_rest].
  set (k := fun st' : mstate =>
              rmatch (Lits E)
                (close_group 1 (MState (pos + length B) p1 (body ++ E ++ post) []) st') Some).
  destruct (rstar_any_lazy body (E ++ post) [] k (S (length (body ++ E ++ post)))
              (pos + length B) p1) as [p2 Hp2].
  - rewrite length_app. lia.
  - intros i prev' Hi. unfold k. rewrite rmatch_lits. cbn [close_group ms_rest].
    rewrite (Hbody i Hi). reflexivity.
  - intros prev'. unfold k. rewrite rmatch_lits. cbn [close_group ms_rest].
    rewrite starts_with_app. discriminate.
  - rewrite Hp2. unfold k. rewrite rmatch_lits. cbn [close_group ms_rest ms_pos].
    rewrite starts_with_app. unfold close_group. cbn [ms_pos ms_rest ms_groups ms_prev].
    rewrite skip_app. unfold mk_match. cbn [ms_pos ms_rest ms_groups].
    replace (pos + length B + length body - (pos + length B)) with (length body) by lia.
    rewrite take_app_length. reflexivity.
Qed.

Lemma env_body_found (B' E' pre body post : str) :
  BACKSLASH ∉ B' -> BACKSLASH ∉ E' ->
  contains (BACKSLASH :: B') pre = false -> contains (BACKSLASH :: E') body = false ->
  exists m,
    re_search (Lits (BACKSLASH :: B') +> Grp 1 (Star false AnyChar) +> Lits (BACKSLASH :: E'))
              (pre ++ (BACKSLASH :: B') ++ body ++ (BACKSLASH :: E') ++ post) = Some m
    /\ m_start m = length pre /\ group 1 m = body.
Proof.
  intros HB HE Hpre Hbody.
  set (B := BACKSLASH :: B'). set (E := BACKSLASH :: E').
  exists (ReMatch (0 + length pre) (0 + length pre + length B + length body + length E)
            (take (0 + length pre + length B + length body + length E - (0 + length pre))
                  (B ++ body ++ E ++ post))
            [(1, body)]).
  split; [|split; reflexivity].
  unfold re_search. apply search_at_first.
  - intros i prev' Hi. apply lits_match_here_none; [discriminate|].
    apply no_straddle; assumption.
  - intros prev'. apply lazy_env_match_here. intros i Hi. apply no_straddle; assumption.
Qed.

(** X9. The document environment.  When the file is a preamble without
    the opening command, then the opening command, a body without the closing
    command, and the closing command (and whatever follows),
    [_extract_document_body] returns exactly the body. *)
Theorem document_body_between_markers (pre body post : str) :
  contains (lit "\begin{document}") pre = false ->
  contains (lit "\end{document}") body = false ->
  _extract_document_body
    (pre ++ lit "\begin{document}" ++ body ++ lit "\end{document}" ++ post) = body.
Proof.
  intros Hpre Hbody. unfold _extract_document_body.
  destruct (env_body_found (lit "begin{document}") (lit "end{document}") pre body post)
    as (m & Hm & _ & Hg); try assumption.
  - intros H. apply list_elem_of_In in H. vm_compute in H. intuition discriminate.
  - intros H. apply list_elem_of_In in H. vm_compute in H. intuition discriminate.
  - change (BACKSLASH :: lit "begin{document}") with (lit "\begin{document}") in Hm.
    change (BACKSLASH :: lit "end{document}") with (lit "\end{document}") in Hm.
    change (Lits (lit "\begin{document}") +> Grp 1 (Star false AnyChar)
              +> Lits (lit "\end{document}"))%re with BlockPat.document_env in Hm.
    rewrite Hm. exact Hg.
Qed.

Lemma document_body_between_markers_witness :
  _extract_document_body
    (lit "\documentclass{article}" ++ lit "\begin{document}" ++ lit "Hello \emph{you}."
       ++ lit "\end{document}" ++ lit " trailing")
  = lit "Hello \emph{you}.".
Proof.
  apply (document_body_between_markers (lit "\documentclass{article}") (lit "Hello \emph{you}.")
           (lit " trailing")); reflexivity.
Defined.

(** ** Text without commands *)

Lemma finditer_absent (r : regex) (c : N) (t : str) :
  (forall b w e, Matches r b w e -> exists w', w = c :: w') -> c ∉ t -> finditer r t = [].
Proof.
  intros Hfirst Hc. apply finditer_none. intros m Hm.
  pose proof Hm as (b & e & HM & _).
  destruct (Hfirst _ _ _ HM) as (w' & Hw).
  exact (Hc (match_of_first r t m c w' Hm Hw)).
Qed.

Lemma re_search_absent (r : regex) (c : N) (t : str) :
  (forall b w e, Matches r b w e -> exists w', w = c :: w') -> c ∉ t -> re_search r t = None.
Proof.
  intros Hfirst Hc. unfold re_search. destruct (search_at r 0 None t) as [m|] eqn:E; [|reflexivity].
  exfalso. apply (search_at_sound r t t 0 None m) in E as [Hm _]; [|reflexivity|lia].
  pose proof Hm as (b & e & HM & _).
  destruct (Hfirst _ _ _ HM) as (w' & Hw).
  exact (Hc (match_of_first r t m c w' Hm Hw)).
Qed.

Lemma erase_absent (r : regex) (c : N) (t : str) :
  (forall b w e, Matches r b w e -> exists w', w = c :: w') -> c ∉ t -> erase r t = t.
Proof. intros Hfirst Hc. apply re_sub_none. apply (finditer_absent r c); assumption. Qed.

Lemma Matches_word_first (c : N) (word s : str) (r : regex) (b : mstate) (w : str)
    (e : mstate) :
  Matches (Seq (Lits word) r) b w e -> word = c :: s -> exists w', w = c :: w'.
Proof.
  intros H ->. apply Matches_seq_inv in H as (w1 & s1 & w2 & -> & H1 & _).
  apply Matches_lits_inv in H1 as [-> _]. simpl. eauto.
Qed.

Ltac backslash_first :=
  let H := fresh in
  intros ? ? ? H;
  first [ exact (Matches_chr_first _ _ _ _ _ H)
        | eapply (Matches_word_first BACKSLASH); [exact H | reflexivity] ].

(** X10. A text without any backslash gives the bare root: the body is the
    stripped text, no title is found, and no node is made for the prose, so
    the tree is the root alone, titled "LaTeX Document". *)
Theorem text_without_commands_gives_bare_root (tex_content : str) :
  BACKSLASH ∉ tex_content ->
  _extract_document_body tex_content = strip tex_content
  /\ parse tex_content = [mkNode (lit "LaTeX Document") [] (lit "document") [] 0].
Proof.
  intros Hno.
  assert (Hbody : _extract_document_body tex_content = strip tex_content).
  { unfold _extract_document_body.
    rewrite (re_search_absent _ BACKSLASH tex_content)
      by first [exact Hno | backslash_first].
    rewrite (erase_absent (BlockPat.line_of "documentclass") BACKSLASH tex_content)
      by first [exact Hno | backslash_first].
    rewrite (erase_absent (BlockPat.line_of "usepackage") BACKSLASH tex_content)
      by first [exact Hno | backslash_first].
    rewrite (erase_absent (BlockPat.declaration "title") BACKSLASH tex_content)
      by first [exact Hno | backslash_first].
    rewrite (erase_absent (BlockPat.declaration "author") BACKSLASH tex_content)
      by first [exact Hno | backslash_first].
    rewrite (erase_absent (BlockPat.declaration "date") BACKSLASH tex_content)
      by first [exact Hno | backslash_first].
    rewrite (erase_absent BlockPat.maketitle BACKSLASH tex_content)
      by first [exact Hno | backslash_first].
    rewrite (erase_absent (BlockPat.line_of "newtheorem") BACKSLASH tex_content)
      by first [exact Hno | backslash_first].
    reflexivity. }
  split; [exact Hbody|].
  assert (Htitle : document_title tex_content = lit "LaTeX Document").
  { unfold document_title, _extract_document_title.
    rewrite (re_search_absent BlockPat.title_decl BACKSLASH tex_content)
      by first [exact Hno | backslash_first].
    rewrite (re_search_absent BlockPat.first_section BACKSLASH tex_content)
      by first [exact Hno | backslash_first].
    reflexivity. }
  unfold parse. rewrite Hbody, Htitle.
  assert (Hstrip : BACKSLASH ∉ strip tex_content).
  { intros Hin. assert (HF : Forall (fun c => c <> BACKSLASH) (strip tex_content)).
    { apply Forall_strip. apply Forall_forall. intros c Hc ->. exact (Hno Hc). }
    rewrite Forall_forall in HF. exact (HF _ Hin eq_refl). }
  unfold _parse_with_regex_fallback.
  rewrite (finditer_absent _ BACKSLASH (strip tex_content))
    by first [exact Hstrip | backslash_first].
  cbn [section_loop current_pos sg_store sg_stack].
  destruct (0 <? length (strip tex_content)); [|reflexivity].
  destruct (is_empty _); [reflexivity|].
  unfold _add_content_to_current_section.
  change (current_section {[ 0%Z := 0 ]}) with (Some 0).
  assert (Hrest : BACKSLASH ∉ strip (drop 0 (strip tex_content))).
  { intros Hin. assert (HF : Forall (fun c => c <> BACKSLASH) (strip (drop 0 (strip tex_content)))).
    { apply Forall_strip. rewrite drop_0. apply Forall_forall. intros c Hc ->. exact (Hstrip Hc). }
    rewrite Forall_forall in HF. exact (HF _ Hin eq_refl). }
  rewrite (finditer_absent BlockPat.theorem_env BACKSLASH)
    by first [exact Hrest | backslash_first].
  rewrite (finditer_absent BlockPat.equation_env BACKSLASH)
    by first [exact Hrest | backslash_first].
  reflexivity.
Qed.

Lemma text_without_commands_gives_bare_root_witness :
  parse (lit "Just some words. $$x^2$$ And more.")
  = [mkNode (lit "LaTeX Document") [] (lit "document") [] 0].
Proof.
  apply (text_without_commands_gives_bare_root (lit "Just some words. $$x^2$$ And more.")).
  intros H. apply list_elem_of_In in H. vm_compute in H. intuition discriminate.
Defined.

(** ** A formula between dollar signs *)

Lemma finditer_whole (r : regex) (text : str) (m : rematch) :
  text <> [] ->
  match_here r 0 None text = Some m -> m_end m = length text ->
  (forall pos prev, match_here r pos prev [] = None) ->
  finditer r text = [m].
Proof.
  intros Htext Hm Hend Hnil. unfold finditer. cbn [finditer_from].
  rewrite (search_at_found _ _ _ _ _ Hm).
  destruct (match_here_sound r text 0 None m ltac:(lia) Hm) as [_ Hstart].
  assert (Hlen : 0 < length text) by (destruct text; [congruence | simpl; lia]).
  replace (m_start m <? m_end m) with true by (symmetry; apply Nat.ltb_lt; lia).
  rewrite Hend, Nat.sub_0_r, drop_all.
  destruct (length text) as [|f]; [lia|]. cbn [finditer_from search_at]. rewrite Hnil.
  reflexivity.
Qed.

Lemma replace_whole (old new : str) : old <> [] -> replace old new old = new.
Proof.
  intros Hold. unfold replace. destruct old as [|c tl]; [congruence|].
  pose proof (starts_with_app (c :: tl) []) as Hself. rewrite app_nil_r in Hself.
  cbn [replace_fuel]. rewrite Hself, drop_all.
  destruct (length (c :: tl)); simpl; apply app_nil_r.
Qed.

Lemma dollar_math_match_here (formula post : str) (pos : nat) (prev : option N) :
  formula <> [] -> Forall (fun c => c <> DOLLAR) formula ->
  match_here Pat.dollar_math pos prev ([DOLLAR] ++ formula ++ [DOLLAR] ++ post)
  = Some (ReMatch pos (S (S pos) + length formula)
            (take (S (S pos) + length formula - pos) ([DOLLAR] ++ formula ++ [DOLLAR] ++ post))
            [(1, formula)]).
Proof.
  intros Hne Hno. destruct formula as [|a formula']; [congruence|].
  inversion Hno as [|? ? Ha Hno']; subst.
  assert (H : rmatch Pat.dollar_math
                (MState pos prev ([DOLLAR] ++ (a :: formula') ++ [DOLLAR] ++ post) []) Some
              = Some (MState (S (S pos) + length (a :: formula')) (Some DOLLAR) post
                        [(1, a :: formula')])).
  { unfold Pat.dollar_math. cbn [app].
    rewrite rmatch_seq, rmatch_chr_cons, rmatch_seq, rmatch_grp.
    unfold Plus, NotChr. rewrite rmatch_seq. cbn [rmatch ms_rest].
    assert (Hpa : negb (a =? DOLLAR)%N = true) by (apply negb_true_iff, N.eqb_neq; exact Ha).
    rewrite Hpa. unfold advance. cbn [ms_pos ms_groups].
    apply rstar_class_greedy.
    - eapply Forall_impl; [exact Hno'|]. intros c Hc. apply negb_true_iff, N.eqb_neq. exact Hc.
    - reflexivity.
    - cbn [ms_rest]. rewrite length_app. simpl. lia.
    - intros prev3. unfold close_group. cbn [ms_pos ms_prev ms_rest ms_groups].
      replace (S (S pos) + length formula' - S pos) with (length (a :: formula'))
        by (simpl; lia).
      change (a :: formula' ++ DOLLAR :: post) with ((a :: formula') ++ DOLLAR :: post).
      rewrite take_app_length, rmatch_chr_cons. do 2 f_equal. simpl. lia. }
  unfold match_here. rewrite H. reflexivity.
Qed.

(** X11. A formula between dollar signs goes through the sanitizer
    untouched: when the text is one dollar sign, a non-empty formula without
    dollar sign and one dollar sign, [_clean_latex_text] returns the text as it
    is, whatever commands, braces, tildes or blanks the formula holds. *)
Theorem dollar_formula_is_preserved (formula : str) :
  formula <> [] -> Forall (fun c => c <> DOLLAR) formula ->
  _clean_latex_text ([DOLLAR] ++ formula ++ [DOLLAR]) = [DOLLAR] ++ formula ++ [DOLLAR].
Proof.
  intros Hne Hno. set (text := [DOLLAR] ++ formula ++ [DOLLAR]).
  pose proof (dollar_math_match_here formula [] 0 None Hne Hno) as Hm.
  rewrite app_nil_r in Hm. fold text in Hm.
  assert (Hlen : length text = S (S 0) + length formula).
  { unfold text. rewrite !length_app. simpl. lia. }
  rewrite <- Hlen, Nat.sub_0_r, firstn_all in Hm.
  assert (Hiter : finditer Pat.dollar_math text = [ReMatch 0 (length text) text [(1, formula)]]).
  { apply finditer_whole; [discriminate | exact Hm | reflexivity | reflexivity]. }
  assert (H1 : re_sub_with Pat.dollar_math replace_math [] text = ([text], placeholder 0)).
  { unfold re_sub_with. rewrite Hiter.
    cbn [sub_matches replace_math m_text m_start m_end length app].
    unfold slice. rewrite drop_all. cbn [take drop app Nat.sub].
    rewrite app_nil_r. reflexivity. }
  unfold _clean_latex_text. rewrite H1.
  rewrite (re_sub_with_none _ Pat.paren_math) by (vm_compute; reflexivity).
  replace (strip_commands (placeholder 0)) with (placeholder 0) by (vm_compute; reflexivity).
  cbn [restore_math]. rewrite replace_whole by discriminate.
  unfold strip. rewrite lstrip_black by reflexivity.
  apply rstrip_black. unfold text. rewrite !reverse_app. reflexivity.
Qed.

Lemma dollar_formula_is_preserved_witness :
  _clean_latex_text ([DOLLAR] ++ lit "\frac{a}{b}  ~ \emph{x}" ++ [DOLLAR])
  = [DOLLAR] ++ lit "\frac{a}{b}  ~ \emph{x}" ++ [DOLLAR].
Proof.
  apply (dollar_formula_is_preserved (lit "\frac{a}{b}  ~ \emph{x}")).
  - discriminate.
  - apply Forall_neq_check. reflexivity.
Defined.

(** ** A command with an argument, in prose *)

Lemma match_of_drop (r : regex) (text : str) (m : rematch) :
  match_of r text m -> exists rest, drop (m_start m) text = m_text m ++ rest.
Proof.
  intros Hm. pose proof (match_of_slice r text m Hm) as Hs. unfold slice in Hs.
  exists (drop (m_end m - m_start m) (drop (m_start m) text)).
  rewrite <- Hs. symmetry. apply take_drop.
Qed.

Lemma match_of_at (r : regex) (text : str) (m : rematch) (i : nat) (c : N) :
  match_of r text m -> m_text m !! i = Some c -> text !! (m_start m + i) = Some c.
Proof.
  intros Hm Hc. destruct (match_of_drop r text m Hm) as [rest Hrest].
  rewrite <- lookup_drop, Hrest. apply lookup_app_l_Some. exact Hc.
Qed.

(** A pattern finds one match only, when it fails before a position,
    matches there, and no match begins at or after the end of that match. *)
Lemma finditer_single (r : regex) (pre rest : str) (m : rematch) :
  (forall i prev', i < length pre -> match_here r (0 + i) prev' (drop i pre ++ rest) = None) ->
  (forall prev', match_here r (0 + length pre) prev' rest = Some m) ->
  m_start m < m_end m ->
  (forall m', match_of r (pre ++ rest) m' -> m_end m <= m_start m' -> False) ->
  finditer r (pre ++ rest) = [m].
Proof.
  intros Hnone Hsome Hlt Hlast. unfold finditer. cbn [finditer_from].
  pose proof (search_at_first r pre rest m 0 None Hnone Hsome) as Hsearch.
  rewrite Hsearch.
  apply (search_at_sound r (pre ++ rest) (pre ++ rest) 0 None m) in Hsearch as [Hm _];
    [|reflexivity|lia].
  assert (Hend : m_end m <= length (pre ++ rest))
    by (destruct Hm as (? & ? & _ & _ & _ & _ & _ & _ & Hle); exact Hle).
  replace (m_start m <? m_end m) with true by (symmetry; apply Nat.ltb_lt; exact Hlt).
  f_equal. rewrite Nat.sub_0_r.
  pose proof (finditer_from_sound r (pre ++ rest) (length (pre ++ rest)) (m_end m)
                (match m_end m with
                 | 0 => None
                 | S i => (pre ++ rest) !! i
                 end) Hend) as Hs.
  destruct (finditer_from _ _ _ _ _) as [|m' l]; [reflexivity|].
  apply Forall_cons in Hs as [[Hm' Hle] _]. exfalso. exact (Hlast m' Hm' Hle).
Qed.

Lemma rmatch_cls_cons (p : N -> bool) (c : N) (pos : nat) (prev : option N) (tl : str)
    (gs : list (nat * str)) (k : mstate -> option mstate) :
  rmatch (Cls p) (MState pos prev (c :: tl) gs) k
  = if p c then k (MState (S pos) (Some c) tl gs) else None.
Proof. reflexivity. Qed.

Lemma rmatch_opt_chr_skip (c x : N) (pos : nat) (prev : option N) (tl : str)
    (gs : list (nat * str)) (k : mstate -> option mstate) :
  c <> x ->
  rmatch (Opt (Chr c)) (MState pos prev (x :: tl) gs) k = k (MState pos prev (x :: tl) gs).
Proof.
  intros Hne. unfold Opt, Chr. cbn [rmatch ms_rest].
  replace (c =? x)%N with false by (symmetry; apply N.eqb_neq; exact Hne). reflexivity.
Qed.

Lemma command_with_arg_match_here (name arg post : str) (pos : nat) (prev : option N) :
  name <> [] -> Forall (fun c => is_letter c = true) name ->
  Forall (fun c => c <> RBRACE) arg ->
  match_here Pat.command_with_arg pos prev
             ([BACKSLASH] ++ name ++ [LBRACE] ++ arg ++ [RBRACE] ++ post)
  = Some (ReMatch pos (pos + length name + length arg + 3)
            (take (pos + length name + length arg + 3 - pos)
                  ([BACKSLASH] ++ name ++ [LBRACE] ++ arg ++ [RBRACE] ++ post))
            [(1, arg)]).
Proof.
  intros Hne Hname Harg. destruct name as [|a name']; [congruence|].
  inversion Hname as [|? ? Ha Hname']; subst.
  assert (H : rmatch Pat.command_with_arg
                (MState pos prev ([BACKSLASH] ++ (a :: name') ++ [LBRACE] ++ arg
                                   ++ [RBRACE] ++ post) []) Some
              = Some (MState (pos + length (a :: name') + length arg + 3) (Some RBRACE) post
                        [(1, arg)])).
  { unfold Pat.command_with_arg. cbn [app].
    rewrite rmatch_seq, rmatch_chr_cons, rmatch_seq. unfold Plus. rewrite rmatch_seq.
    rewrite rmatch_cls_cons, Ha, rmatch_star. cbn [ms_rest].
    apply rstar_class_greedy; [exact Hname' | reflexivity | |].
    { rewrite length_app. simpl. lia. }
    intros prev1. rewrite rmatch_seq, rmatch_opt_chr_skip by discriminate.
    rewrite rmatch_seq, rmatch_chr_cons, rmatch_seq, rmatch_grp, rmatch_star.
    unfold NotChr. cbn [ms_rest].
    apply rstar_class_greedy.
    - eapply Forall_impl; [exact Harg|]. intros c Hc. apply negb_true_iff, N.eqb_neq. exact Hc.
    - reflexivity.
    - rewrite length_app. simpl. lia.
    - intros prev2. unfold close_group. cbn [ms_pos ms_prev ms_rest ms_groups].
      replace (S (S (S pos) + length name') + length arg - S (S (S pos) + length name'))
        with (length arg) by lia.
      rewrite take_app_length. cbn [app]. rewrite rmatch_chr_cons.
      do 2 f_equal. simpl. lia. }
  unfold match_here. rewrite H. reflexivity.
Qed.

Lemma Matches_paren_math_head (b : mstate) (w : str) (e : mstate) :
  Matches Pat.paren_math b w e ->
  exists x w', w = BACKSLASH :: x :: w' /\ (x = BACKSLASH \/ x = chr "(").
Proof.
  unfold Pat.paren_math, Opt. intros H.
  apply Matches_seq_inv in H as (w1 & s1 & w2 & -> & H1 & H2).
  apply Matches_seq_inv in H2 as (wa & s2 & wb & -> & Ha & Hb).
  apply Matches_chr_inv in Ha as [-> _]. apply Matches_chr_first in Hb as (w' & ->).
  inversion H1 as [| | |? ? ? ? ? Hl|? ? ? ? ? Hr| | | | | | | | |]; subst.
  - apply Matches_chr_inv in Hl as [-> _]. simpl. eauto.
  - inversion Hr; subst. simpl. eauto.
Qed.

Lemma finditer_paren_math_none (text : str) :
  (forall i x, text !! i = Some BACKSLASH -> text !! S i = Some x ->
               x <> BACKSLASH /\ x <> chr "(") ->
  finditer Pat.paren_math text = [].
Proof.
  intros Hno. apply finditer_none. intros m Hm.
  pose proof Hm as (b & e & HM & _).
  destruct (Matches_paren_math_head _ _ _ HM) as (x & w' & Hw & Hx).
  pose proof (match_of_at _ text m 0 BACKSLASH Hm ltac:(rewrite Hw; reflexivity)) as H0.
  pose proof (match_of_at _ text m 1 x Hm ltac:(rewrite Hw; reflexivity)) as H1.
  rewrite Nat.add_0_r in H0. replace (m_start m + 1) with (S (m_start m)) in H1 by lia.
  destruct (Hno _ _ H0 H1) as [Hb Hp]. destruct Hx; congruence.
Qed.

Lemma lookup_only (pre tail : str) (c : N) (i : nat) :
  c ∉ pre -> c ∉ tail -> (pre ++ c :: tail) !! i = Some c -> i = length pre.
Proof.
  intros Hpre Htail Hi. destruct (lt_eq_lt_dec i (length pre)) as [[Hlt|Heq]|Hgt].
  - rewrite lookup_app_l in Hi by exact Hlt. apply list_elem_of_lookup_2 in Hi. contradiction.
  - exact Heq.
  - rewrite lookup_app_r in Hi by lia.
    destruct (i - length pre) as [|k] eqn:E; [lia|]. simpl in Hi.
    apply list_elem_of_lookup_2 in Hi. contradiction.
Qed.

Lemma match_here_chr_mismatch (c x : N) (r : regex) (pos : nat) (prev : option N) (tl : str) :
  c <> x -> match_here (Chr c +> r) pos prev (x :: tl) = None.
Proof.
  intros Hc. unfold match_here. rewrite rmatch_seq. unfold Chr. rewrite rmatch_cls_cons.
  replace (c =? x)%N with false by (symmetry; apply N.eqb_neq; exact Hc). reflexivity.
Qed.

Lemma plain_not (t : str) (c : N) : is_markup c = true -> plain t -> c ∉ t.
Proof.
  intros Hc Hplain Hin. rewrite (plain_no_markup t c Hplain Hin) in Hc. discriminate.
Qed.

Lemma letters_not (t : str) (c : N) :
  is_letter c = false -> Forall (fun x => is_letter x = true) t -> c ∉ t.
Proof.
  intros Hc Ht Hin. rewrite Forall_forall in Ht. rewrite (Ht c Hin) in Hc. discriminate.
Qed.

(** X12. A command with an argument, in prose.  When the text is plain
    text, then a backslash, a name made of letters, and a plain argument
    between braces, then plain text, the sanitizer replaces the command by its
    argument: the result is the whitespace normalization of the text with the
    backslash, the name and the two braces taken out. *)
Theorem command_is_replaced_by_its_argument (pre name arg post : str) :
  name <> [] -> Forall (fun c => is_letter c = true) name ->
  plain pre -> plain arg -> plain post ->
  _clean_latex_text (pre ++ [BACKSLASH] ++ name ++ [LBRACE] ++ arg ++ [RBRACE] ++ post)
  = normalize (pre ++ arg ++ post).
Proof.
  intros Hne Hname Hpre Harg Hpost.
  set (tail := name ++ [LBRACE] ++ arg ++ [RBRACE] ++ post).
  set (text := pre ++ [BACKSLASH] ++ tail).
  assert (Hplain : plain (pre ++ arg ++ post)).
  { unfold plain. rewrite !Forall_app. auto. }
  assert (Htail : forall c, is_markup c = true -> is_letter c = false ->
                            c <> LBRACE -> c <> RBRACE -> c ∉ tail).
  { intros c Hm Hl H1 H2 Hin. unfold tail in Hin.
    rewrite !elem_of_app, !list_elem_of_singleton in Hin.
    destruct Hin as [Hin|[Hin|[Hin|[Hin|Hin]]]]; try congruence.
    - exact (letters_not name c Hl Hname Hin).
    - exact (plain_not arg c Hm Harg Hin).
    - exact (plain_not post c Hm Hpost Hin). }
  assert (Hback : forall i, text !! i = Some BACKSLASH -> i = length pre).
  { intros i Hi. apply (lookup_only pre tail BACKSLASH i); [| |exact Hi].
    - apply plain_not; [reflexivity | exact Hpre].
    - apply Htail; [reflexivity | reflexivity | discriminate | discriminate]. }
  assert (H1 : finditer Pat.dollar_math text = []).
  { apply (finditer_absent _ DOLLAR); [intros b w e; apply Matches_chr_first|].
    unfold text. rewrite !elem_of_app, list_elem_of_singleton.
    intros [Hin|[Hin|Hin]]; [|discriminate Hin|].
    - exact (plain_not pre DOLLAR eq_refl Hpre Hin).
    - revert Hin. apply Htail; [reflexivity | reflexivity | discriminate | discriminate]. }
  assert (H2 : finditer Pat.paren_math text = []).
  { apply finditer_paren_math_none. intros i x Hi Hx.
    apply Hback in Hi as ->. unfold text in Hx.
    rewrite lookup_app_r in Hx by lia.
    replace (S (length pre) - length pre) with 1 in Hx by lia.
    destruct name as [|a name']; [congruence|]. simpl in Hx. injection Hx as <-.
    apply Forall_cons in Hname as [Ha _].
    split; intros ->; discriminate Ha. }
  assert (H3 : re_sub Pat.command_with_arg (group 1) text = pre ++ arg ++ post).
  { assert (Hno : Forall (fun c => c <> RBRACE) arg).
    { apply Forall_forall. intros c Hc ->. exact (plain_not arg RBRACE eq_refl Harg Hc). }
    unfold re_sub, re_sub_with, text.
    rewrite (finditer_single _ pre ([BACKSLASH] ++ tail)
               (ReMatch (0 + length pre) (0 + length pre + length name + length arg + 3)
                  (take (0 + length pre + length name + length arg + 3 - (0 + length pre))
                        ([BACKSLASH] ++ tail))
                  [(1, arg)])).
    - cbn [sub_matches m_start m_end snd fst]. unfold slice, group. cbn [m_groups group_lookup].
      cbn [Nat.eqb default id]. rewrite drop_0, Nat.add_0_l, Nat.sub_0_r, take_app_length.
      f_equal. f_equal. unfold tail.
      replace (pre ++ [BACKSLASH] ++ name ++ [LBRACE] ++ arg ++ [RBRACE] ++ post)
        with ((pre ++ [BACKSLASH] ++ name ++ [LBRACE] ++ arg ++ [RBRACE]) ++ post)
        by (rewrite <- !app_assoc; reflexivity).
      apply drop_app_length'. rewrite !length_app. simpl. lia.
    - intros i prev' Hi.
      destruct (drop i pre) as [|x d] eqn:Ed.
      { apply (f_equal length) in Ed. rewrite length_drop in Ed. simpl in Ed. lia. }
      apply match_here_chr_mismatch. intros <-.
      apply (plain_not pre BACKSLASH eq_refl Hpre).
      apply (subseteq_drop i pre). rewrite Ed. left.
    - intros prev'. unfold tail. apply command_with_arg_match_here; assumption.
    - cbn [m_start m_end]. lia.
    - intros m' Hm' Hle. pose proof Hm' as (b & e & HM & _).
      apply Matches_chr_first in HM as (w' & Hw).
      pose proof (match_of_at _ _ m' 0 BACKSLASH Hm' ltac:(rewrite Hw; reflexivity)) as H0.
      rewrite Nat.add_0_r in H0. apply Hback in H0. cbn [m_end] in Hle. lia. }
  assert (Hsc : strip_commands text = strip_commands (pre ++ arg ++ post)).
  { unfold strip_commands. rewrite H3.
    rewrite (re_sub_none Pat.command_with_arg (group 1) (pre ++ arg ++ post)); [reflexivity|].
    apply (finditer_plain _ BACKSLASH); [reflexivity | | exact Hplain].
    intros b w e. apply Matches_chr_first. }
  unfold _clean_latex_text.
  rewrite (re_sub_with_none _ Pat.dollar_math) by exact H1.
  rewrite (re_sub_with_none _ Pat.paren_math) by exact H2.
  cbn [restore_math]. rewrite Hsc, strip_commands_plain by exact Hplain. reflexivity.
Qed.

Lemma command_is_replaced_by_its_argument_witness :
  _clean_latex_text (lit "A " ++ [BACKSLASH] ++ lit "emph" ++ [LBRACE] ++ lit "fine  day"
                       ++ [RBRACE] ++ lit " it is.")
  = lit "A fine day it is.".
Proof.
  rewrite (command_is_replaced_by_its_argument (lit "A ") (lit "emph") (lit "fine  day")
             (lit " it is.")).
  - vm_compute. reflexivity.
  - discriminate.
  - repeat constructor.
  - apply plain_check. reflexivity.
  - apply plain_check. reflexivity.
  - apply plain_check. reflexivity.
Defined.

(** ** The split of a section's content *)

Lemma first_start_fold (span : str) (patterns : list regex) :
  forall p0,
    let step := fun pos pattern =>
                  match re_search pattern span with
                  | Some m => if m_start m <? pos then m_start m else pos
                  | None => pos
                  end in
    let pos := foldl step p0 patterns in
    pos <= p0
    /\ (forall r m, r ∈ patterns -> re_search r span = Some m -> pos <= m_start m)
    /\ (pos = p0 \/ exists r m, r ∈ patterns /\ re_search r span = Some m /\ m_start m = pos).
Proof.
  induction patterns as [|r rs IH]; intros p0; cbn zeta.
  - simpl. split; [lia|]. split; [|left; reflexivity]. intros r m Hr. inversion Hr.
  - cbn [foldl].
    set (p1 := match re_search r span with
               | Some m => if m_start m <? p0 then m_start m else p0
               | None => p0
               end).
    destruct (IH p1) as (Hle & Hall & Hsome). cbn zeta in Hle, Hall, Hsome.
    assert (Hp1 : p1 <= p0
                  /\ (forall m, re_search r span = Some m -> p1 <= m_start m)
                  /\ (p1 = p0 \/ exists m, re_search r span = Some m /\ m_start m = p1)).
    { unfold p1. destruct (re_search r span) as [m|].
      - destruct (m_start m <? p0) eqn:E.
        + apply Nat.ltb_lt in E. split; [lia|]. split.
          * intros m' Hm'. injection Hm' as <-. lia.
          * right. exists m. auto.
        + apply Nat.ltb_ge in E. split; [lia|]. split; [|left; reflexivity].
          intros m' Hm'. injection Hm' as <-. exact E.
      - split; [lia|]. split; [discriminate | left; reflexivity]. }
    destruct Hp1 as (Hp1 & Hr & Hfrom).
    split; [lia|]. split.
    + intros r' m Hr' Hm. apply elem_of_cons in Hr' as [->|Hr'].
      * specialize (Hr m Hm). lia.
      * exact (Hall r' m Hr' Hm).
    + destruct Hsome as [Heq|(r' & m & Hr' & Hm & Hs)].
      * destruct Hfrom as [Hp|(m & Hm & Hs)]; [left; congruence|].
        right. exists r, m. split; [left|]. split; [exact Hm | congruence].
      * right. exists r', m. split; [right; exact Hr' | auto].
Qed.

(** X13. The content of a section is split at its first block opener.
    The position is the least start among the first matches of the five
    opener patterns, or the length of the content when none matches; the main
    text is the sanitized, stripped text before it, and the remaining content
    is the stripped text from it on. *)
Theorem content_is_split_at_first_opener (span : str) :
  let pos := first_math_pos span in
  pos <= length span
  /\ (forall r m, r ∈ math_patterns -> re_search r span = Some m -> pos <= m_start m)
  /\ (pos = length span
      \/ exists r m, r ∈ math_patterns /\ re_search r span = Some m /\ m_start m = pos)
  /\ _extract_main_text span = _clean_latex_text (strip (take pos span))
  /\ _extract_remaining_content span = strip (drop pos span).
Proof.
  cbn zeta. destruct (first_start_fold span math_patterns (length span)) as (Hle & Hall & Hsome).
  cbn zeta in Hle, Hall, Hsome. fold (first_math_pos span) in Hle, Hall, Hsome.
  split; [exact Hle|]. split; [exact Hall|]. split; [exact Hsome|]. split.
  - unfold _extract_main_text.
    destruct (strip (take (first_math_pos span) span)) as [|c s]; reflexivity.
  - unfold _extract_remaining_content.
    destruct (first_math_pos span <? length span) eqn:E; [reflexivity|].
    apply Nat.ltb_ge in E. rewrite drop_ge by exact E. reflexivity.
Qed.

(** ** The controls of the page *)

Lemma contains_unfold (w s : str) :
  contains w s = starts_with w s || match s with [] => false | _ :: tl => contains w tl end.
Proof. destruct s; reflexivity. Qed.

Lemma contains_occurrence (w a b : str) : contains w (a ++ w ++ b) = true.
Proof.
  induction a as [|x a IH]; cbn [app].
  - rewrite contains_unfold, starts_with_app. reflexivity.
  - rewrite contains_unfold, IH. apply orb_true_r.
Qed.

Lemma replace_fuel_step (f : nat) (old new : str) (x : N) (s : str) :
  replace_fuel (S f) old new (x :: s)
  = if starts_with old (x :: s)
    then new ++ replace_fuel f old new (drop (length old) (x :: s))
    else x :: replace_fuel f old new s.
Proof. reflexivity. Qed.

Lemma replace_fuel_absent (old new : str) (s : str) :
  forall fuel, contains old s = false -> replace_fuel fuel old new s = s.
Proof.
  induction s as [|c s IH]; intros [|f] H; try reflexivity.
  rewrite contains_unfold in H. apply orb_false_iff in H as [H1 H2].
  rewrite replace_fuel_step, H1, IH by exact H2. reflexivity.
Qed.

Lemma replace_fuel_enough (old new : str) (n : nat) :
  old <> [] ->
  forall f1 f2 s, length s <= n -> length s < f1 -> length s < f2 ->
    replace_fuel f1 old new s = replace_fuel f2 old new s.
Proof.
  intros Hold. induction n as [|n IH]; intros f1 f2 s Hn H1 H2.
  - destruct s; [|simpl in Hn; lia]. destruct f1, f2; reflexivity.
  - destruct f1 as [|f1]; [lia|]. destruct f2 as [|f2]; [lia|].
    destruct s as [|c s]; [reflexivity|]. rewrite !replace_fuel_step. simpl in Hn, H1, H2.
    destruct (starts_with old (c :: s)).
    + f_equal. destruct old as [|o old']; [congruence|]. cbn [length drop].
      pose proof (length_drop s (length old')). apply IH; lia.
    + f_equal. apply IH; lia.
Qed.

(** The first occurrence of a word is replaced, and the replacement goes on
    after it. *)
Lemma replace_first (c : N) (w' new a b : str) :
  c ∉ w' -> contains (c :: w') a = false ->
  replace (c :: w') new (a ++ (c :: w') ++ b) = a ++ new ++ replace (c :: w') new b.
Proof.
  intros Hc Ha. unfold replace.
  generalize (S (length (a ++ (c :: w') ++ b))) (Nat.lt_succ_diag_r (length (a ++ (c :: w') ++ b))).
  induction a as [|x a IH]; intros fuel Hfuel.
  - destruct fuel as [|f]; [lia|].
    change ([] ++ (c :: w') ++ b) with (c :: (w' ++ b)) in *.
    rewrite replace_fuel_step.
    change (c :: (w' ++ b)) with ((c :: w') ++ b) in *.
    rewrite starts_with_app, drop_app_length. cbn [app]. f_equal.
    apply (replace_fuel_enough _ _ (length b)); [discriminate | lia | | lia].
    rewrite length_app in Hfuel. simpl in Hfuel. lia.
  - destruct fuel as [|f]; [lia|].
    pose proof (no_straddle c w' (x :: a) b 0 Hc Ha ltac:(simpl; lia)) as Hno.
    rewrite drop_0 in Hno.
    rewrite contains_unfold in Ha. apply orb_false_iff in Ha as [_ Ha'].
    change ((x :: a) ++ (c :: w') ++ b) with (x :: (a ++ (c :: w') ++ b)) in *.
    rewrite replace_fuel_step, Hno. cbn [app]. f_equal.
    apply IH; [exact Ha'|]. cbn [length] in Hfuel. lia.
Qed.

Lemma starts_with_app_l (w s x : str) : starts_with w s = true -> starts_with w (s ++ x) = true.
Proof.
  intros H. apply starts_with_true in H as [y ->]. rewrite <- app_assoc. apply starts_with_app.
Qed.

Lemma contains_app_l (w s x : str) : contains w (s ++ x) = false -> contains w s = false.
Proof.
  induction s as [|c s IH]; intros H; rewrite contains_unfold in H;
    apply orb_false_iff in H as [H1 H2]; rewrite contains_unfold.
  - destruct (starts_with w []) eqn:E; [|reflexivity].
    apply (starts_with_app_l w [] x) in E. congruence.
  - destruct (starts_with w (c :: s)) eqn:E.
    + apply (starts_with_app_l w (c :: s) x) in E. congruence.
    + cbn [app] in H2. rewrite (IH H2). reflexivity.
Qed.

Lemma body_end_bracket : chr "<" ∉ lit "/body>".
Proof. intros H. apply list_elem_of_In in H. vm_compute in H. intuition discriminate. Qed.

Lemma add_controls_first (controls_html a b : str) :
  contains body_end a = false ->
  add_controls controls_html (a ++ body_end ++ b)
  = a ++ (controls_html ++ [NL] ++ body_end)
      ++ replace body_end (controls_html ++ [NL] ++ body_end) b.
Proof.
  intros Ha. unfold add_controls. rewrite contains_occurrence.
  apply (replace_first (chr "<") (lit "/body>")); [exact body_end_bracket | exact Ha].
Qed.

Lemma add_controls_once (controls_html a b : str) :
  contains body_end a = false -> contains body_end b = false ->
  add_controls controls_html (a ++ body_end ++ b)
  = a ++ controls_html ++ [NL] ++ body_end ++ b.
Proof.
  intros Ha Hb. rewrite add_controls_first by exact Ha.
  unfold replace. rewrite replace_fuel_absent by exact Hb.
  rewrite <- !app_assoc. reflexivity.
Qed.

(** X14. Where the controls go.  On a page without the closing body tag
    the block is put at the end.  On a page with the tag, the block and a
    line break are put right before the first tag, the text before the tag is
    kept as it is, and the text after it is treated in the same way (every
    further tag gets the block too); with one tag only, nothing else in the
    page changes. *)
Theorem controls_go_before_body_end (controls_html a b : str) :
  contains body_end a = false ->
  add_controls controls_html a = a ++ controls_html
  /\ add_controls controls_html (a ++ body_end ++ b)
     = a ++ (controls_html ++ [NL] ++ body_end)
         ++ replace body_end (controls_html ++ [NL] ++ body_end) b
  /\ (contains body_end b = false ->
      add_controls controls_html (a ++ body_end ++ b)
      = a ++ controls_html ++ [NL] ++ body_end ++ b).
Proof.
  intros Ha. split; [|split].
  - unfold add_controls. rewrite Ha. reflexivity.
  - apply add_controls_first. exact Ha.
  - intros Hb. apply add_controls_once; assumption.
Qed.

Lemma controls_go_before_body_end_witness :
  add_controls (lit "<div>controls</div>") (lit "<html><body>map</body></html>")
  = lit "<html><body>map<div>controls</div>" ++ [NL] ++ lit "</body></html>".
Proof.
  destruct (controls_go_before_body_end (lit "<div>controls</div>") (lit "<html><body>map")
              (lit "</html>")) as (_ & _ & H); [reflexivity|].
  exact (H eq_refl).
Defined.

(** X15. The script does not notice its own work: run on a page with one
    closing body tag that it has already treated, it puts the block in a
    second time, before the same tag. *)
Theorem controls_are_added_again (controls_html a b : str) :
  contains body_end (a ++ controls_html ++ [NL]) = false ->
  contains body_end b = false ->
  add_controls controls_html (add_controls controls_html (a ++ body_end ++ b))
  = a ++ controls_html ++ [NL] ++ controls_html ++ [NL] ++ body_end ++ b.
Proof.
  intros Hac Hb. pose proof (contains_app_l _ _ _ Hac) as Ha.
  rewrite (add_controls_once controls_html a b Ha Hb).
  replace (a ++ controls_html ++ [NL] ++ body_end ++ b)
    with ((a ++ controls_html ++ [NL]) ++ body_end ++ b)
    by (rewrite <- !app_assoc; reflexivity).
  rewrite (add_controls_once controls_html _ b Hac Hb).
  rewrite <- !app_assoc. reflexivity.
Qed.

Lemma controls_are_added_again_witness :
  add_controls (lit "<div>controls</div>")
    (add_controls (lit "<div>controls</div>") (lit "<html><body>map</body></html>"))
  = lit "<html><body>map<div>controls</div>" ++ [NL] ++ lit "<div>controls</div>" ++ [NL]
      ++ lit "</body></html>".
Proof.
  exact (controls_are_added_again (lit "<div>controls</div>") (lit "<html><body>map")
           (lit "</html>") eq_refl eq_refl).
Defined.

(** ** What the sanitizer leaves, without math *)

Lemma match_of_elem (r : regex) (text : str) (m : rematch) (c : N) :
  match_of r text m -> c ∈ m_text m -> c ∈ text.
Proof.
  intros Hm Hc. destruct (match_of_drop r text m Hm) as [rest Hrest].
  apply (subseteq_drop (m_start m) text). rewrite Hrest. apply elem_of_app. left. exact Hc.
Qed.

Lemma strip_commands_normal (text : str) :
  exists u, strip_commands text = collapse false (map detilde u).
Proof.
  unfold strip_commands.
  set (u := re_sub Pat.line_break (fun _ => [SPACE])
              (re_sub Pat.braces (group 1)
                 (re_sub Pat.bare_command (fun _ => [])
                    (re_sub Pat.command_with_arg (group 1) text)))).
  exists u.
  rewrite (re_sub_scans _ _ _ _ scans_tilde), replace_runs_tilde by lia.
  rewrite (re_sub_scans _ _ _ _ scans_spaces), replace_runs_spaces by lia.
  reflexivity.
Qed.

(** X16. What the sanitizer leaves, on text without math.  When the text
    has no dollar sign and no opening parenthesis, the result of
    [_clean_latex_text] has no tilde, its whitespace is made of single blanks
    between other characters, and it neither begins nor ends with
    whitespace. *)
Theorem sanitized_text_is_tidy (text : str) :
  DOLLAR ∉ text -> chr "(" ∉ text ->
  tidy false (_clean_latex_text text)
  /\ Forall (fun c => c <> TILDE) (_clean_latex_text text)
  /\ starts_black (_clean_latex_text text)
  /\ starts_black (reverse (_clean_latex_text text)).
Proof.
  intros Hdollar Hparen.
  assert (H1 : finditer Pat.dollar_math text = []).
  { apply (finditer_absent _ DOLLAR); [|exact Hdollar]. intros b w e. apply Matches_chr_first. }
  assert (H2 : finditer Pat.paren_math text = []).
  { apply finditer_none. intros m Hm. pose proof Hm as (b & e & HM & _).
    apply Hparen. apply (match_of_elem _ text m _ Hm).
    unfold Pat.paren_math in HM.
    apply Matches_seq_inv in HM as (w1 & s1 & w2 & -> & _ & HM).
    apply Matches_seq_inv in HM as (wa & s2 & wb & -> & _ & HM).
    apply Matches_chr_first in HM as (w' & ->).
    rewrite !elem_of_app. right. right. left. }
  destruct (strip_commands_normal text) as [u Hu].
  assert (Hout : _clean_latex_text text = strip (collapse false (map detilde u))).
  { unfold _clean_latex_text.
    rewrite (re_sub_with_none _ Pat.dollar_math) by exact H1.
    rewrite (re_sub_with_none _ Pat.paren_math) by exact H2.
    cbn [restore_math]. rewrite Hu. reflexivity. }
  rewrite Hout. split; [|split; [|split]].
  - apply (tidy_strip false). apply tidy_collapse.
  - apply Forall_strip, Forall_collapse; [discriminate | apply detilde_no_tilde].
  - unfold strip. apply rstrip_starts_black, lstrip_starts_black.
  - unfold strip. apply rstrip_ends_black.
Qed.

Lemma sanitized_text_is_tidy_witness :
  tidy false (_clean_latex_text (lit " The~\textbf{big}   {idea} \\ again "))
  /\ _clean_latex_text (lit " The~\textbf{big}   {idea} \\ again ") = lit "The big idea again".
Proof.
  destruct (sanitized_text_is_tidy (lit " The~\textbf{big}   {idea} \\ again ")) as [H _].
  - intros H. apply list_elem_of_In in H. vm_compute in H. intuition discriminate.
  - intros H. apply list_elem_of_In in H. vm_compute in H. intuition discriminate.
  - split; [exact H | vm_compute; reflexivity].
Defined.

(** ** Loose content *)

Lemma drop_alter_lt (f : MindMapNode -> MindMapNode) (cur k : nat) (l : store) :
  cur < k -> drop k (alter f cur l) = drop k l.
Proof.
  revert cur k. induction l as [|n l IH]; intros cur k Hk; [destruct k; reflexivity|].
  destruct k as [|k]; [lia|]. destruct cur as [|cur]; simpl; [reflexivity|].
  apply IH. lia.
Qed.

Lemma drop_attach (cur k : nat) (node : MindMapNode) (l : store) :
  cur < k -> k <= length l -> drop k (attach cur node l) = drop k l ++ [node].
Proof.
  intros Hcur Hk. unfold attach, add_child. rewrite drop_alter_lt by exact Hcur.
  apply drop_app_le. exact Hk.
Qed.

Lemma level_of_alter (f : MindMapNode -> MindMapNode) (i j : nat) (l : store) :
  (forall n, level (f n) = level n) -> level_of (alter f i l) j = level_of l j.
Proof.
  intros Hf. unfold level_of. destruct (decide (i = j)) as [->|Hne].
  - rewrite list_lookup_alter_eq. destruct (l !! j); simpl; [apply Hf | reflexivity].
  - rewrite list_lookup_alter_ne by exact Hne. reflexivity.
Qed.

Lemma level_of_attach_same (cur j : nat) (node : MindMapNode) (l : store) :
  j < length l -> level_of (attach cur node l) j = level_of l j.
Proof.
  intros Hj. unfold attach, add_child. rewrite level_of_alter by reflexivity.
  unfold level_of. rewrite lookup_app_l by exact Hj. reflexivity.
Qed.

Lemma loose_theorems_new (cur k : nat) (ms : list rematch) :
  forall h, cur < k -> k <= length h ->
    exists T,
      drop k (foldl (fun h m => loose_theorem cur m h) h ms) = drop k h ++ T
      /\ length (foldl (fun h m => loose_theorem cur m h) h ms) = length h + length T
      /\ level_of (foldl (fun h m => loose_theorem cur m h) h ms) cur = level_of h cur
      /\ Forall (fun n => exists m, m ∈ ms
                     /\ n = mkNode (title_case (group 1 m)) (_clean_latex_text (group 2 m))
                                   (group 1 m) [] (level_of h cur + 1)) T.
Proof.
  induction ms as [|m ms IH]; intros h Hcur Hk; cbn [foldl].
  - exists []. rewrite app_nil_r. simpl. repeat split; [lia | constructor].
  - assert (Hstep : exists T0,
               drop k (loose_theorem cur m h) = drop k h ++ T0
               /\ length (loose_theorem cur m h) = length h + length T0
               /\ level_of (loose_theorem cur m h) cur = level_of h cur
               /\ Forall (fun n => n = mkNode (title_case (group 1 m))
                                              (_clean_latex_text (group 2 m)) (group 1 m) []
                                              (level_of h cur + 1)) T0).
    { unfold loose_theorem. destruct (h !! cur) as [n|] eqn:En.
      - destruct (_ && _).
        + exists []. rewrite app_nil_r, drop_alter_lt, length_alter by exact Hcur.
          rewrite level_of_alter by reflexivity. simpl. repeat split; [lia | constructor].
        + eexists [_]. rewrite drop_attach, length_attach by assumption.
          rewrite level_of_attach_same by lia. simpl.
          split; [reflexivity|]. split; [lia|]. split; [reflexivity|].
          constructor; [|constructor]. unfold level_of. rewrite En. reflexivity.
      - exists []. rewrite app_nil_r. simpl. repeat split; [lia | constructor]. }
    destruct Hstep as (T0 & D0 & L0 & V0 & F0).
    destruct (IH (loose_theorem cur m h) Hcur ltac:(lia)) as (T & D & L & V & F).
    exists (T0 ++ T). rewrite D, D0, L, L0, V, V0, length_app, <- app_assoc.
    split; [reflexivity|]. split; [lia|]. split; [reflexivity|].
    apply Forall_app. split.
    + eapply Forall_impl; [exact F0|]. intros n ->. exists m. split; [left | reflexivity].
    + eapply Forall_impl; [exact F|]. intros n (m' & Hm' & ->). exists m'.
      split; [right; exact Hm'|]. rewrite V0. reflexivity.
Qed.

Lemma loose_equations_new (cur k : nat) (ms : list rematch) :
  forall h, cur < k -> k <= length h ->
    drop k (foldl (fun h m => loose_equation cur m h) h ms)
    = drop k h ++ map (fun m => mkNode (lit "Equation") (display (strip (group 1 m)))
                                       (lit "equation") [] (level_of h cur + 1)) ms.
Proof.
  induction ms as [|m ms IH]; intros h Hcur Hk; cbn [foldl map].
  - rewrite app_nil_r. reflexivity.
  - assert (D1 : drop k (loose_equation cur m h)
                 = drop k h ++ [mkNode (lit "Equation") (display (strip (group 1 m)))
                                       (lit "equation") [] (level_of h cur + 1)]).
    { unfold loose_equation. apply drop_attach; assumption. }
    assert (V1 : level_of (loose_equation cur m h) cur = level_of h cur).
    { unfold loose_equation. apply level_of_attach_same. lia. }
    assert (L1 : length (loose_equation cur m h) = S (length h)).
    { unfold loose_equation. apply length_attach. }
    rewrite IH by lia. rewrite D1, V1, <- app_assoc. reflexivity.
Qed.

(** X17. The nodes of loose content.  For the text outside any block of a
    section, the equation environments give one "Equation" node each, in
    their order, and these come after all the nodes of the theorem-like
    environments, wherever they stand in the text; a theorem-like node has
    the name of its environment as kind.  All are one level below the current
    section. *)
Theorem loose_content_nodes (span : str) (s : stack) (h : store) :
  stack_ok h s ->
  exists cur T,
    current_section s = Some cur
    /\ new_nodes h (_add_content_to_current_section span s h)
       = T ++ map (fun m => mkNode (lit "Equation") (display (strip (group 1 m)))
                                   (lit "equation") [] (level_of h cur + 1))
                  (finditer BlockPat.equation_env span)
    /\ Forall (fun n => exists m, m ∈ finditer BlockPat.theorem_env span
                   /\ n = mkNode (title_case (group 1 m)) (_clean_latex_text (group 2 m))
                                 (group 1 m) [] (level_of h cur + 1)) T.
Proof.
  intros Hs. destruct (current_section_valid h s Hs) as (cur & Hcur & Hlt).
  destruct (loose_theorems_new cur (length h) (finditer BlockPat.theorem_env span) h Hlt
              ltac:(lia)) as (T & D & L & V & F).
  exists cur, T. split; [exact Hcur|]. split; [|exact F].
  unfold new_nodes, _add_content_to_current_section. rewrite Hcur.
  rewrite loose_equations_new by lia. rewrite D, V, drop_all. reflexivity.
Qed.

Lemma loose_content_nodes_witness :
  exists cur T,
    current_section {[ 0%Z := 0 ]} = Some cur
    /\ new_nodes [mkNode (lit "Doc") (lit "Intro") (lit "document") [] 0]
         (_add_content_to_current_section
            (lit "\begin{equation}x\end{equation}\begin{lemma}L\end{lemma}") {[ 0%Z := 0 ]}
            [mkNode (lit "Doc") (lit "Intro") (lit "document") [] 0])
       = T ++ map (fun m => mkNode (lit "Equation") (display (strip (group 1 m)))
                                   (lit "equation") []
                                   (level_of [mkNode (lit "Doc") (lit "Intro") (lit "document") [] 0]
                                             cur + 1))
                  (finditer BlockPat.equation_env
                     (lit "\begin{equation}x\end{equation}\begin{lemma}L\end{lemma}"))
    /\ Forall (fun n => exists m,
                   m ∈ finditer BlockPat.theorem_env
                         (lit "\begin{equation}x\end{equation}\begin{lemma}L\end{lemma}")
                   /\ n = mkNode (title_case (group 1 m)) (_clean_latex_text (group 2 m))
                                 (group 1 m) []
                                 (level_of [mkNode (lit "Doc") (lit "Intro") (lit "document") [] 0]
                                           cur + 1)) T.
Proof.
  apply loose_content_nodes. split; [reflexivity|]. intros l j Hj.
  apply lookup_singleton_Some in Hj as [<- <-]. eexists. split; reflexivity.
Defined.

(** ** Whitespace at the ends and normalization *)

Lemma lstrip_spaces_app (ws s : str) :
  Forall (fun c => is_space c = true) ws -> lstrip (ws ++ s) = lstrip s.
Proof. induction 1 as [|c ws Hc _ IH]; simpl; [reflexivity|]. rewrite Hc. exact IH. Qed.

Lemma lstrip_split (s : str) :
  exists ws, s = ws ++ lstrip s /\ Forall (fun c => is_space c = true) ws.
Proof.
  induction s as [|c tl (ws & E & F)]; [exists []; split; [reflexivity | constructor]|].
  simpl. destruct (is_space c) eqn:Ec.
  - exists (c :: ws). split; [simpl; congruence | constructor; assumption].
  - exists []. split; [reflexivity | constructor].
Qed.

Lemma lstrip_app_black (a b : str) : starts_black b -> lstrip (a ++ b) = lstrip a ++ b.
Proof.
  intros Hb. induction a as [|c a IH]; simpl; [apply lstrip_black; exact Hb|].
  destruct (is_space c); [exact IH | reflexivity].
Qed.

Lemma rstrip_spaces_app (s ws : str) :
  Forall (fun c => is_space c = true) ws -> rstrip (s ++ ws) = rstrip s.
Proof.
  intros H. unfold rstrip. rewrite reverse_app, lstrip_spaces_app; [reflexivity|].
  apply Forall_reverse. exact H.
Qed.

Lemma rstrip_split (s : str) :
  exists ws, s = rstrip s ++ ws /\ Forall (fun c => is_space c = true) ws.
Proof.
  unfold rstrip. destruct (lstrip_split (reverse s)) as (ws & E & F).
  exists (reverse ws). split; [|apply Forall_reverse; exact F].
  rewrite <- reverse_app, <- E, reverse_involutive. reflexivity.
Qed.

Lemma rstrip_app_black (a b : str) :
  starts_black (reverse a) -> rstrip (a ++ b) = a ++ rstrip b.
Proof.
  intros Ha. unfold rstrip. rewrite reverse_app, lstrip_app_black by exact Ha.
  rewrite reverse_app, reverse_involutive. reflexivity.
Qed.

Lemma strip_app_spaces (s ws : str) :
  Forall (fun c => is_space c = true) ws -> strip (s ++ ws) = strip s.
Proof.
  intros H. unfold strip. destruct (lstrip_split s) as (ws' & E & F).
  rewrite E at 1. rewrite <- app_assoc, lstrip_spaces_app by exact F.
  destruct (lstrip s) as [|c l] eqn:El.
  - simpl. rewrite <- (app_nil_r ws), lstrip_spaces_app by exact H. reflexivity.
  - pose proof (lstrip_starts_black s) as Hb. rewrite El in Hb.
    rewrite lstrip_black by exact Hb. apply rstrip_spaces_app. exact H.
Qed.

Lemma collapse_lstrip (ws s : str) (b b' : bool) :
  Forall (fun c => is_space c = true) ws ->
  lstrip (collapse b (ws ++ s)) = lstrip (collapse b' s).
Proof.
  intros H. revert b. induction H as [|c ws Hc _ IH]; intros b.
  - destruct s as [|c s]; [reflexivity|]. simpl.
    destruct (is_space c); [|reflexivity]. destruct b, b'; reflexivity.
  - simpl. rewrite Hc. destruct b; [apply IH|].
    change (lstrip (SPACE :: collapse true (ws ++ s))) with (lstrip (collapse true (ws ++ s))).
    apply IH.
Qed.

Lemma detilde_spaces (ws : str) :
  Forall (fun c => is_space c = true) ws -> map detilde ws = ws.
Proof.
  induction 1 as [|c ws Hc _ IH]; simpl; [reflexivity|]. rewrite IH. f_equal.
  unfold detilde. destruct (c =? TILDE)%N eqn:E; [|reflexivity].
  apply N.eqb_eq in E. subst. discriminate Hc.
Qed.

Lemma collapse_app_spaces (s ws : str) (b : bool) :
  Forall (fun c => is_space c = true) ws ->
  exists tail, collapse b (s ++ ws) = collapse b s ++ tail
               /\ Forall (fun c => is_space c = true) tail.
Proof.
  intros H. revert b. induction s as [|c s IH]; intros b.
  - exists (collapse b ws). split; [reflexivity|]. apply Forall_collapse; [reflexivity | exact H].
  - simpl. destruct (is_space c).
    + destruct (IH true) as (tail & E & F). exists tail. rewrite E.
      destruct b; split; auto.
    + destruct (IH false) as (tail & E & F). exists tail. rewrite E. split; auto.
Qed.

Lemma normalize_lstrip (t : str) : normalize (lstrip t) = normalize t.
Proof.
  unfold normalize. destruct (lstrip_split t) as (ws & E & F).
  rewrite E at 2. rewrite map_app, (detilde_spaces ws F).
  unfold strip. rewrite (collapse_lstrip ws _ false false F). reflexivity.
Qed.

Lemma normalize_rstrip (t : str) : normalize (rstrip t) = normalize t.
Proof.
  unfold normalize. destruct (rstrip_split t) as (ws & E & F).
  rewrite E at 2. rewrite map_app, (detilde_spaces ws F).
  destruct (collapse_app_spaces (map detilde (rstrip t)) ws false F) as (tail & Ec & Ft).
  rewrite Ec, strip_app_spaces by exact Ft. reflexivity.
Qed.

Lemma normalize_strip (t : str) : normalize (strip t) = normalize t.
Proof. unfold strip. rewrite normalize_rstrip. apply normalize_lstrip. Qed.

(** ** A document made of one section *)

Lemma Matches_lits_first (c : N) (s : str) (b : mstate) (w : str) (e : mstate) :
  Matches (Lits (c :: s)) b w e -> exists w', w = c :: w'.
Proof. intros H. apply Matches_lits_inv in H as [-> _]. eauto. Qed.

Lemma Matches_word_head2 (c x : N) (word s : str) (r : regex) (b : mstate) (w : str)
    (e : mstate) :
  Matches (Seq (Lits word) r) b w e -> word = c :: x :: s -> exists w', w = c :: x :: w'.
Proof.
  intros H ->. apply Matches_seq_inv in H as (w1 & s1 & w2 & -> & H1 & _).
  apply Matches_lits_inv in H1 as [-> _]. simpl. eauto.
Qed.

Lemma Matches_chr_word_head2 (c x : N) (word s : str) (r : regex) (b : mstate) (w : str)
    (e : mstate) :
  Matches (Seq (Chr c) (Seq (Lits word) r)) b w e -> word = x :: s ->
  exists w', w = c :: x :: w'.
Proof.
  intros H ->. apply Matches_seq_inv in H as (w1 & s1 & w2 & -> & H1 & H2).
  apply Matches_chr_inv in H1 as [-> _].
  apply Matches_seq_inv in H2 as (wa & s2 & wb & -> & Ha & _).
  apply Matches_lits_inv in Ha as [-> _]. simpl. eauto.
Qed.

Lemma match_of_head2_absent (r : regex) (text : str) (c x : N) (m : rematch) :
  (forall b w e, Matches r b w e -> exists w', w = c :: x :: w') ->
  (forall i, text !! i = Some c -> text !! S i <> Some x) ->
  match_of r text m -> False.
Proof.
  intros Hhead Hno Hm. pose proof Hm as (b & e & HM & _).
  destruct (Hhead _ _ _ HM) as (w' & Hw).
  pose proof (match_of_at _ text m 0 c Hm ltac:(rewrite Hw; reflexivity)) as H0.
  pose proof (match_of_at _ text m 1 x Hm ltac:(rewrite Hw; reflexivity)) as H1.
  rewrite Nat.add_0_r in H0. replace (m_start m + 1) with (S (m_start m)) in H1 by lia.
  exact (Hno _ H0 H1).
Qed.

Lemma finditer_head2_none (r : regex) (text : str) (c x : N) :
  (forall b w e, Matches r b w e -> exists w', w = c :: x :: w') ->
  (forall i, text !! i = Some c -> text !! S i <> Some x) ->
  finditer r text = [].
Proof.
  intros Hhead Hno. apply finditer_none. intros m.
  apply (match_of_head2_absent r text c x m Hhead Hno).
Qed.

Lemma re_search_head2_none (r : regex) (text : str) (c x : N) :
  (forall b w e, Matches r b w e -> exists w', w = c :: x :: w') ->
  (forall i, text !! i = Some c -> text !! S i <> Some x) ->
  re_search r text = None.
Proof.
  intros Hhead Hno. unfold re_search.
  destruct (search_at r 0 None text) as [m|] eqn:E; [|reflexivity].
  exfalso. apply (search_at_sound r text text 0 None m) in E as [Hm _]; [|reflexivity|lia].
  exact (match_of_head2_absent r text c x m Hhead Hno Hm).
Qed.

Lemma erase_head2_none (r : regex) (text : str) (c x : N) :
  (forall b w e, Matches r b w e -> exists w', w = c :: x :: w') ->
  (forall i, text !! i = Some c -> text !! S i <> Some x) ->
  erase r text = text.
Proof. intros Hhead Hno. apply re_sub_none. apply (finditer_head2_none r text c x); assumption. Qed.

Ltac head2 :=
  let H := fresh in
  intros ? ? ? H;
  first [ eapply (Matches_chr_word_head2 BACKSLASH); [exact H | reflexivity]
        | eapply (Matches_word_head2 BACKSLASH); [exact H | reflexivity] ].

Lemma first_section_match_here (arg post : str) (pos : nat) (prev : option N) :
  arg <> [] -> Forall (fun c => c <> RBRACE) arg ->
  exists m,
    match_here BlockPat.first_section pos prev
               ([BACKSLASH] ++ lit "section" ++ [LBRACE] ++ arg ++ [RBRACE] ++ post) = Some m
    /\ group 1 m = arg.
Proof.
  intros Harg Hno. destruct arg as [|a arg']; [congruence|].
  inversion Hno as [|? ? Ha Hno']; subst.
  assert (H : rmatch BlockPat.first_section
                (MState pos prev ([BACKSLASH] ++ lit "section" ++ [LBRACE] ++ (a :: arg')
                                   ++ [RBRACE] ++ post) []) Some
              = Some (MState (S (S (S pos + 0 + 8)) + length arg') (Some RBRACE) post
                        [(1, a :: arg')])).
  { unfold BlockPat.first_section. cbn [app].
    rewrite rmatch_seq, rmatch_chr_cons, rmatch_seq, rmatch_star. cbn [ms_rest].
    unfold Word.
    apply (rstar_lits_greedy (lit "sub") 0
             (lit "section" ++ [LBRACE] ++ (a :: arg') ++ [RBRACE] ++ post));
      [discriminate | reflexivity | lia |].
    intros prev2. change (0 * length (lit "sub")) with 0.
    rewrite rmatch_seq, rmatch_lits. cbn [ms_rest].
    change (lit "section" ++ [LBRACE] ++ (a :: arg') ++ [RBRACE] ++ post)
      with (lit "section{" ++ (a :: arg') ++ [RBRACE] ++ post).
    rewrite starts_with_app, skip_app. change (length (lit "section{")) with 8.
    cbn [app]. rewrite rmatch_seq, rmatch_grp. unfold Plus, NotChr. rewrite rmatch_seq.
    rewrite rmatch_cls_cons.
    assert (Hpa : negb (a =? RBRACE)%N = true) by (apply negb_true_iff, N.eqb_neq; exact Ha).
    rewrite Hpa, rmatch_star. cbn [ms_rest].
    apply rstar_class_greedy.
    - eapply Forall_impl; [exact Hno'|]. intros c Hc. apply negb_true_iff, N.eqb_neq. exact Hc.
    - reflexivity.
    - rewrite length_app. simpl. lia.
    - intros prev3. unfold close_group. cbn [ms_pos ms_prev ms_rest ms_groups].
      replace (S (S pos + 0 + 8) + length arg' - (S pos + 0 + 8))
        with (length (a :: arg')) by (simpl; lia).
      change (a :: arg' ++ RBRACE :: post) with ((a :: arg') ++ RBRACE :: post).
      rewrite take_app_length, rmatch_chr_cons. do 2 f_equal. }
  eexists. split; [unfold match_here; rewrite H; reflexivity | reflexivity].
Qed.

Lemma main_text_plain (span : str) :
  plain span -> _extract_main_text span = normalize span /\ _extract_remaining_content span = [].
Proof.
  intros Hplain.
  assert (Hb : BACKSLASH ∉ span) by (apply plain_not; [reflexivity | exact Hplain]).
  assert (Hd : DOLLAR ∉ span) by (apply plain_not; [reflexivity | exact Hplain]).
  assert (Hpos : first_math_pos span = length span).
  { unfold first_math_pos, math_patterns. cbn [foldl].
    rewrite (re_search_absent BlockPat.begin_math BACKSLASH span)
      by first [exact Hb | backslash_first].
    rewrite (re_search_absent BlockPat.open_bracket BACKSLASH span)
      by first [exact Hb | intros b w e; apply Matches_lits_first].
    rewrite (re_search_absent BlockPat.double_dollar DOLLAR span)
      by first [exact Hd | intros b w e; apply Matches_lits_first].
    rewrite (re_search_absent BlockPat.paragraph_start BACKSLASH span)
      by first [exact Hb | intros b w e; apply Matches_lits_first].
    rewrite (re_search_absent BlockPat.begin_theorem BACKSLASH span)
      by first [exact Hb | backslash_first].
    reflexivity. }
  split.
  - unfold _extract_main_text. rewrite Hpos, firstn_all.
    destruct (strip span) as [|c s] eqn:E.
    + simpl. rewrite <- normalize_strip, E. reflexivity.
    + cbn [is_empty]. rewrite <- E, clean_plain by (apply Forall_strip; exact Hplain).
      apply normalize_strip.
  - unfold _extract_remaining_content. rewrite Hpos, Nat.ltb_irrefl. reflexivity.
Qed.

Lemma section_then_backslash (arg post : str) (i : nat) :
  plain arg -> plain post -> section_then arg post !! i = Some BACKSLASH -> i = 0.
Proof.
  intros Harg Hpost Hi.
  apply (lookup_only [] (lit "section" ++ [LBRACE] ++ arg ++ [RBRACE] ++ post) BACKSLASH i);
    [intros H; inversion H | | exact Hi].
  rewrite !elem_of_app, !list_elem_of_singleton.
  intros [H|[H|[H|[H|H]]]]; try discriminate H.
  - apply list_elem_of_In in H. vm_compute in H. intuition discriminate.
  - exact (plain_not arg BACKSLASH eq_refl Harg H).
  - exact (plain_not post BACKSLASH eq_refl Hpost H).
Qed.

Lemma section_then_second (arg post : str) (x : N) (i : nat) :
  plain arg -> plain post -> x <> chr "s" ->
  section_then arg post !! i = Some BACKSLASH -> section_then arg post !! S i <> Some x.
Proof.
  intros Harg Hpost Hx Hi. apply section_then_backslash in Hi as ->; [|assumption..].
  intros H. apply Hx. symmetry. injection H as H. exact H.
Qed.

Lemma section_then_match (arg post : str) :
  arg <> [] -> plain arg -> plain post ->
  exists m,
    finditer BlockPat.section_pattern (section_then arg post) = [m]
    /\ m_start m = 0 /\ m_end m = length (section_then arg [])
    /\ group 1 m = lit "section" /\ group 2 m = arg.
Proof.
  intros Hne Harg Hpost.
  assert (Hno : Forall (fun c => c <> RBRACE) arg).
  { apply Forall_forall. intros c Hc ->. exact (plain_not arg RBRACE eq_refl Harg Hc). }
  destruct (section_command_match_here 0 arg post 0 Hne Hno) as (m & Hm & Hstart & Hgroups).
  change ([BACKSLASH] ++ section_name 0 ++ [LBRACE] ++ arg ++ [RBRACE] ++ post)
    with (section_then arg post) in Hm.
  destruct (match_here_sound _ (section_then arg post) 0 None m ltac:(lia) (Hm None))
    as [Hof _].
  assert (Hg2 : group 2 m = arg) by (unfold group; rewrite Hgroups; reflexivity).
  assert (Hg1 : group 1 m = lit "section") by (unfold group; rewrite Hgroups; reflexivity).
  assert (Hend : m_end m = length (section_then arg [])).
  { destruct (section_pattern_groups _ m Hof) as (k & Hk & Htext).
    rewrite Hgroups in Hk. injection Hk as _ Hname.
    destruct Hof as (b & e & _ & _ & _ & _ & He & _).
    rewrite He, Hstart, Htext, <- Hname, Hg2. unfold section_then.
    rewrite !length_app. simpl. lia. }
  exists m. split; [|auto].
  apply (finditer_single _ [] (section_then arg post) m).
  - intros i prev' Hi. simpl in Hi. lia.
  - intros prev'. apply Hm.
  - rewrite Hstart, Hend. unfold section_then. rewrite !length_app. simpl. lia.
  - intros m' Hm' Hle. pose proof Hm' as (b & e & HM & _).
    apply Matches_chr_first in HM as (w' & Hw).
    pose proof (match_of_at _ _ m' 0 BACKSLASH Hm' ltac:(rewrite Hw; reflexivity)) as H0.
    rewrite Nat.add_0_r in H0. apply section_then_backslash in H0; [|assumption..].
    rewrite Hend in Hle. unfold section_then in Hle. rewrite !length_app in Hle.
    simpl in Hle. lia.
Qed.

Lemma segmenter_one_section (arg post : str) (root : MindMapNode) :
  arg <> [] -> plain arg -> plain post ->
  _parse_with_regex_fallback (section_then arg post) [root]
  = [ with_child 1 root;
      mkNode (normalize arg) (normalize post) (lit "section") [] 2 ].
Proof.
  intros Hne Harg Hpost.
  destruct (section_then_match arg post Hne Harg Hpost) as (m & Hfind & Hstart & Hend & Hg1 & Hg2).
  assert (Hlen : length (section_then arg post) = length (section_then arg []) + length post).
  { unfold section_then. rewrite !length_app. simpl. lia. }
  assert (Hslice : slice (section_then arg post) (m_end m) (length (section_then arg post))
                   = post).
  { rewrite Hend, Hlen. unfold slice.
    replace (length (section_then arg []) + length post - length (section_then arg []))
      with (length post) by lia.
    replace (section_then arg post) with (section_then arg [] ++ post)
      by (unfold section_then; rewrite <- !app_assoc; reflexivity).
    rewrite drop_app_length. apply firstn_all. }
  destruct (main_text_plain (strip post) (Forall_strip _ _ Hpost)) as [Hmain Hrem].
  rewrite normalize_strip in Hmain.
  assert (Hparent : find_parent {[ 0%Z := 0 ]} (Z.to_nat 2) (2 - 1) = 0%Z)
    by (vm_compute; reflexivity).
  assert (Hopen : open_section (strip post) m {[ 0%Z := 0 ]} [root]
                  = ([ with_child 1 root;
                       mkNode (normalize arg) (normalize post) (lit "section") [] 2 ],
                     clear_deeper 2 (<[2%Z := 1]> {[ 0%Z := 0 ]}))).
  { unfold open_section. rewrite Hg1, Hg2, Hmain, Hrem, clean_plain by exact Harg.
    change (dict_get SECTION_LEVELS (lit "section") 2) with 2%Z.
    rewrite Hparent. change (0 <=? 0)%Z with true. cbv iota.
    rewrite lookup_singleton_eq. reflexivity. }
  unfold _parse_with_regex_fallback. rewrite Hfind. cbn [section_loop].
  unfold section_step, pre_content_step. cbn [current_pos sg_store sg_stack].
  rewrite Hstart. change (0 <? 0) with false. cbv iota.
  rewrite Hslice, Hopen. cbn [current_pos sg_store sg_stack].
  rewrite Nat.ltb_irrefl. reflexivity.
Qed.

Lemma parse_one_section (arg text : str) :
  arg <> [] -> plain arg -> plain text ->
  parse (section_then arg text)
  = [ mkNode (or_else (Some (normalize arg)) (lit "LaTeX Document")) [] (lit "document") [1] 0;
      mkNode (normalize arg) (normalize text) (lit "section") [] 2 ].
Proof.
  intros Hne Harg Htext.
  set (tex := section_then arg text).
  assert (Hsec : forall x, x <> chr "s" ->
                   forall i, tex !! i = Some BACKSLASH -> tex !! S i <> Some x).
  { intros x Hx i. apply section_then_second; assumption. }
  assert (Hbody : _extract_document_body tex = section_then arg (rstrip text)).
  { unfold _extract_document_body.
    rewrite (re_search_head2_none BlockPat.document_env tex BACKSLASH (chr "b"))
      by first [head2 | apply Hsec; discriminate].
    rewrite (erase_head2_none (BlockPat.line_of "documentclass") tex BACKSLASH (chr "d"))
      by first [head2 | apply Hsec; discriminate].
    rewrite (erase_head2_none (BlockPat.line_of "usepackage") tex BACKSLASH (chr "u"))
      by first [head2 | apply Hsec; discriminate].
    rewrite (erase_head2_none (BlockPat.declaration "title") tex BACKSLASH (chr "t"))
      by first [head2 | apply Hsec; discriminate].
    rewrite (erase_head2_none (BlockPat.declaration "author") tex BACKSLASH (chr "a"))
      by first [head2 | apply Hsec; discriminate].
    rewrite (erase_head2_none (BlockPat.declaration "date") tex BACKSLASH (chr "d"))
      by first [head2 | apply Hsec; discriminate].
    rewrite (erase_head2_none BlockPat.maketitle tex BACKSLASH (chr "m"))
      by first [head2 | apply Hsec; discriminate].
    rewrite (erase_head2_none (BlockPat.line_of "newtheorem") tex BACKSLASH (chr "n"))
      by first [head2 | apply Hsec; discriminate].
    unfold strip. rewrite lstrip_black by reflexivity.
    unfold tex, section_then.
    replace ([BACKSLASH] ++ lit "section" ++ [LBRACE] ++ arg ++ [RBRACE] ++ text)
      with (([BACKSLASH] ++ lit "section" ++ [LBRACE] ++ arg ++ [RBRACE]) ++ text)
      by (rewrite <- !app_assoc; reflexivity).
    rewrite rstrip_app_black by (rewrite !reverse_app; reflexivity).
    rewrite <- !app_assoc. reflexivity. }
  assert (Htitle : document_title tex = or_else (Some (normalize arg)) (lit "LaTeX Document")).
  { unfold document_title, _extract_document_title.
    rewrite (re_search_head2_none BlockPat.title_decl tex BACKSLASH (chr "t"))
      by first [head2 | apply Hsec; discriminate].
    assert (Hno : Forall (fun c => c <> RBRACE) arg).
    { apply Forall_forall. intros c Hc ->. exact (plain_not arg RBRACE eq_refl Harg Hc). }
    destruct (first_section_match_here arg text 0 None Hne Hno) as (m & Hm & Hg).
    unfold re_search. fold (section_then arg text) in Hm. fold tex in Hm.
    rewrite (search_at_found _ _ _ _ _ Hm), Hg, clean_plain by exact Harg. reflexivity. }
  unfold parse. rewrite Hbody, Htitle.
  rewrite segmenter_one_section by (try apply Forall_rstrip; assumption).
  rewrite normalize_rstrip. reflexivity.
Qed.

(** X18. A document made of one section.  When the file is a section
    command with a non-empty plain argument followed by plain text (no
    backslash, brace or dollar sign), [parse] gives the root with one child:
    the section node, at level 2, whose title is the normalized argument and
    whose content is the normalized text.  The root takes the same title, or
    the default title when the normalized argument is empty. *)
Theorem one_section_document (arg text : str) :
  arg <> [] -> plain arg -> plain text ->
  parse (section_then arg text)
  = [ mkNode (or_else (Some (normalize arg)) (lit "LaTeX Document")) [] (lit "document") [1] 0;
      mkNode (normalize arg) (normalize text) (lit "section") [] 2 ].
Proof. exact (parse_one_section arg text). Qed.

Lemma one_section_document_witness :
  parse (lit "\section{Main~ Idea}" ++ lit " It works.  Really. ")
  = [ mkNode (lit "Main Idea") [] (lit "document") [1] 0;
      mkNode (lit "Main Idea") (lit "It works. Really.") (lit "section") [] 2 ].
Proof.
  change (lit "\section{Main~ Idea}" ++ lit " It works.  Really. ")
    with (section_then (lit "Main~ Idea") (lit " It works.  Really. ")).
  rewrite (one_section_document (lit "Main~ Idea") (lit " It works.  Really. ")).
  - vm_compute. reflexivity.
  - discriminate.
  - apply plain_check. reflexivity.
  - apply plain_check. reflexivity.
Defined.

(** ** The declared title is found *)

Lemma braced_argument_match_here (B arg post : str) (pos : nat) (prev : option N) :
  arg <> [] -> Forall (fun c => c <> RBRACE) arg ->
  match_here (Lits B +> Grp 1 (Plus true (NotChr RBRACE)) +> Chr RBRACE) pos prev
             (B ++ arg ++ [RBRACE] ++ post)
  = Some (ReMatch pos (S (pos + length B + length arg))
            (take (S (pos + length B + length arg) - pos) (B ++ arg ++ [RBRACE] ++ post))
            [(1, arg)]).
Proof.
  intros Hne Hno. destruct arg as [|a arg']; [congruence|].
  inversion Hno as [|? ? Ha Hno']; subst.
  assert (H : rmatch (Lits B +> Grp 1 (Plus true (NotChr RBRACE)) +> Chr RBRACE)
                (MState pos prev (B ++ (a :: arg') ++ [RBRACE] ++ post) []) Some
              = Some (MState (S (pos + length B + length (a :: arg'))) (Some RBRACE) post
                        [(1, a :: arg')])).
  { rewrite rmatch_seq, rmatch_lits. cbn [ms_rest]. rewrite starts_with_app, skip_app.
    cbn [app]. rewrite rmatch_seq, rmatch_grp. unfold Plus, NotChr. rewrite rmatch_seq.
    rewrite rmatch_cls_cons.
    assert (Hpa : negb (a =? RBRACE)%N = true) by (apply negb_true_iff, N.eqb_neq; exact Ha).
    rewrite Hpa, rmatch_star. cbn [ms_rest].
    apply rstar_class_greedy.
    - eapply Forall_impl; [exact Hno'|]. intros c Hc. apply negb_true_iff, N.eqb_neq. exact Hc.
    - reflexivity.
    - rewrite length_app. simpl. lia.
    - intros prev3. unfold close_group. cbn [ms_pos ms_prev ms_rest ms_groups].
      replace (S (pos + length B) + length arg' - (pos + length B))
        with (length (a :: arg')) by (simpl; lia).
      change (a :: arg' ++ RBRACE :: post) with ((a :: arg') ++ RBRACE :: post).
      rewrite take_app_length, rmatch_chr_cons. do 2 f_equal. simpl. lia. }
  unfold match_here. rewrite H. reflexivity.
Qed.

(** X19. The declared title is found.  When the file holds a title
    declaration with a non-empty argument without closing brace, and no
    beginning of a title declaration before it, the title extractor returns
    the sanitized argument, whatever comes before and after; the root takes it
    as title unless it is empty. *)
Theorem declared_title_is_found (pre arg post : str) :
  contains (lit "\title{") pre = false ->
  arg <> [] -> Forall (fun c => c <> RBRACE) arg ->
  _extract_document_title (pre ++ lit "\title{" ++ arg ++ [RBRACE] ++ post)
  = Some (_clean_latex_text arg)
  /\ document_title (pre ++ lit "\title{" ++ arg ++ [RBRACE] ++ post)
     = or_else (Some (_clean_latex_text arg)) (lit "LaTeX Document").
Proof.
  intros Hpre Hne Hno.
  assert (Hsearch : re_search BlockPat.title_decl
                      (pre ++ lit "\title{" ++ arg ++ [RBRACE] ++ post)
                    = Some (ReMatch (0 + length pre)
                              (S (0 + length pre + length (lit "\title{") + length arg))
                              (take (S (0 + length pre + length (lit "\title{") + length arg)
                                     - (0 + length pre))
                                    (lit "\title{" ++ arg ++ [RBRACE] ++ post))
                              [(1, arg)])).
  { unfold re_search. apply search_at_first.
    - intros i prev' Hi. apply lits_match_here_none; [discriminate|].
      apply (no_straddle BACKSLASH (lit "title{")); [|exact Hpre|exact Hi].
      intros H. apply list_elem_of_In in H. vm_compute in H. intuition discriminate.
    - intros prev'. apply braced_argument_match_here; assumption. }
  assert (Htitle : _extract_document_title (pre ++ lit "\title{" ++ arg ++ [RBRACE] ++ post)
                   = Some (_clean_latex_text arg)).
  { unfold _extract_document_title. rewrite Hsearch. reflexivity. }
  split; [exact Htitle|]. unfold document_title. rewrite Htitle. reflexivity.
Qed.

Lemma declared_title_is_found_witness :
  document_title (lit "\section{First}" ++ lit "\title{" ++ lit "My~ Notes" ++ [RBRACE]
                    ++ lit "\maketitle")
  = lit "My Notes".
Proof.
  destruct (declared_title_is_found (lit "\section{First}") (lit "My~ Notes")
              (lit "\maketitle")) as [_ H].
  - reflexivity.
  - discriminate.
  - apply Forall_neq_check. reflexivity.
  - rewrite H. vm_compute. reflexivity.
Defined.

(** ** From the file to the outline *)

Lemma plain_no_dollar_start (c : str) : plain c -> starts_with [DOLLAR] c = false.
Proof.
  intros H. destruct c as [|x c]; [reflexivity|]. cbn [starts_with].
  apply Forall_cons in H as [Hx _]. rewrite andb_true_r. apply N.eqb_neq. intros <-.
  discriminate Hx.
Qed.

Lemma format_title_plain (truncate_at : Z) (t c ty : str) :
  plain c ->
  format_title false truncate_at t c ty
  = if is_empty c || str_eqb c t then t
    else if 200 <? length c then t ++ lit ": " ++ take 200 c ++ lit "..."
         else t ++ lit ": " ++ c.
Proof.
  intros Hc. unfold format_title. rewrite (plain_no_dollar_start c Hc), andb_false_r.
  destruct (is_empty c); [reflexivity|]. destruct (str_eqb c t); reflexivity.
Qed.

(** X20. From the file to the outline, for a document made of one
    section.  With a plain argument that does not normalize to the empty
    text, plain text after it, and a depth limit that is not negative, the
    outline in plain mode is the heading with the title and one item: the
    title alone when the normalized text is empty or equal to the title,
    otherwise the title, a colon and the normalized text, cut after 200
    characters and followed by three dots when it is longer. *)
Theorem one_section_outline (arg text : str) (max_depth truncate_at : Z) :
  plain arg -> plain text -> normalize arg <> [] -> (0 <= max_depth)%Z ->
  (fun root => to_markdown root max_depth false truncate_at)
    <$> to_tree 2 (parse (section_then arg text)) 0
  = Some (lit "# " ++ normalize arg ++ [NL; NL] ++ lit "- " ++ normalize arg
            ++ (if is_empty (normalize text) || str_eqb (normalize text) (normalize arg) then []
                else if 200 <? length (normalize text)
                     then lit ": " ++ take 200 (normalize text) ++ lit "..."
                     else lit ": " ++ normalize text)
            ++ [NL]).
Proof.
  intros Harg Htext Hne Hdepth.
  assert (Harg' : arg <> []) by (intros ->; apply Hne; reflexivity).
  rewrite (parse_one_section arg text Harg' Harg Htext).
  destruct (normalize arg) as [|a0 t0] eqn:Et; [congruence|]. rewrite <- Et.
  assert (Hor : or_else (Some (normalize arg)) (lit "LaTeX Document") = normalize arg)
    by (rewrite Et; reflexivity).
  rewrite Hor. cbn [to_tree lookup list_lookup children mapM fmap option_fmap option_map
                    title content node_type level mbind option_bind mret option_ret].
  cbn [to_markdown map concat format_node].
  replace (max_depth <? Z.of_nat 0)%Z with false by (symmetry; apply Z.ltb_ge; simpl; lia).
  rewrite (format_title_plain truncate_at _ _ _ (plain_normalize text Htext)).
  cbn [replicate concat app map]. rewrite !app_nil_r.
  destruct (is_empty (normalize text) || str_eqb (normalize text) (normalize arg)).
  - rewrite app_nil_l. reflexivity.
  - destruct (200 <? length (normalize text)); rewrite <- ?app_assoc; reflexivity.
Qed.

Lemma one_section_outline_witness :
  (fun root => to_markdown root 10 false 100)
    <$> to_tree 2 (parse (section_then (lit "Main~ Idea") (lit " It works.  Really. "))) 0
  = Some (lit "# Main Idea" ++ [NL; NL] ++ lit "- Main Idea: It works. Really." ++ [NL]).
Proof.
  rewrite (one_section_outline (lit "Main~ Idea") (lit " It works.  Really. ") 10 100).
  - vm_compute. reflexivity.
  - apply plain_check. reflexivity.
  - apply plain_check. reflexivity.
  - vm_compute. discriminate.
  - lia.
Defined.

(** ** An equation and the prose after it *)

Lemma re_match_command_start_none (text : str) :
  starts_black_for (N.eqb BACKSLASH) text -> re_match BlockPat.command_start text = None.
Proof.
  intros H. unfold re_match, match_here, BlockPat.command_start.
  rewrite rmatch_seq.
  change (rmatch Bos (MState 0 None text []))
    with (fun k : mstate -> option mstate => k (MState 0 None text [])).
  cbv beta. rewrite rmatch_seq.
  destruct text as [|x tl]; [reflexivity|]. cbn [starts_black_for] in H. unfold Chr.
  rewrite rmatch_cls_cons, H. reflexivity.
Qed.

Lemma is_prose_plain (text : str) : plain text -> is_prose text = negb (is_empty text).
Proof.
  intros H. unfold is_prose. rewrite re_match_command_start_none; [apply andb_true_r|].
  destruct text as [|x tl]; [exact I|]. cbn [starts_black_for].
  apply Forall_cons in H as [Hx _]. apply N.eqb_neq. intros <-. discriminate Hx.
Qed.

Lemma display_equation_finditer (formula prose : str) :
  Forall (fun c => c <> DOLLAR) formula -> DOLLAR ∉ prose ->
  finditer BlockPat.dollar_display (lit "$$" ++ formula ++ lit "$$" ++ prose)
  = [ReMatch 0 (length formula + 4)
        (take (length formula + 4) (lit "$$" ++ formula ++ lit "$$" ++ prose))
        [(1, formula)]].
Proof.
  intros Hf Hp.
  assert (Hm : forall prev,
             match_here BlockPat.dollar_display 0 prev (lit "$$" ++ formula ++ lit "$$" ++ prose)
             = Some (ReMatch 0 (length formula + 4)
                       (take (length formula + 4) (lit "$$" ++ formula ++ lit "$$" ++ prose))
                       [(1, formula)])).
  { intros prev. unfold BlockPat.dollar_display, Word.
    rewrite (lazy_env_match_here (lit "$$") (lit "$$") formula prose 0 prev).
    - change (length (lit "$$")) with 2.
      replace (0 + 2 + length formula + 2) with (length formula + 4) by lia.
      rewrite Nat.sub_0_r. reflexivity.
    - intros i Hi. destruct (drop i formula) as [|x d] eqn:Ed.
      { apply (f_equal length) in Ed. rewrite length_drop in Ed. simpl in Ed. lia. }
      assert (Hx : x <> DOLLAR).
      { rewrite Forall_forall in Hf. apply Hf. apply (subseteq_drop i formula).
        rewrite Ed. left. }
      change (starts_with (lit "$$") ((x :: d) ++ lit "$$" ++ prose))
        with ((DOLLAR =? x)%N && starts_with [DOLLAR] (d ++ lit "$$" ++ prose)).
      replace (DOLLAR =? x)%N with false by (symmetry; apply N.eqb_neq; congruence).
      reflexivity. }
  apply (finditer_single _ [] (lit "$$" ++ formula ++ lit "$$" ++ prose)).
  - intros i prev' Hi. simpl in Hi. lia.
  - intros prev'. apply Hm.
  - cbn [m_start m_end]. lia.
  - intros m' Hm' Hle. cbn [m_end] in Hle. pose proof Hm' as (b & e & HM & _).
    apply (Matches_word_first DOLLAR (lit "$$") [DOLLAR]) in HM as (w' & Hw); [|reflexivity].
    pose proof (match_of_at _ _ m' 0 DOLLAR Hm' ltac:(rewrite Hw; reflexivity)) as H0.
    rewrite Nat.add_0_r, app_nil_l in H0. apply Hp.
    replace (lit "$$" ++ formula ++ lit "$$" ++ prose)
      with ((lit "$$" ++ formula ++ lit "$$") ++ prose) in H0
      by (rewrite <- !app_assoc; reflexivity).
    rewrite lookup_app_r in H0 by (rewrite !length_app; simpl; lia).
    eapply list_elem_of_lookup_2. exact H0.
Qed.

Lemma equation_with_prose_elements (formula prose : str) :
  Forall (fun c => c <> DOLLAR) formula -> BACKSLASH ∉ formula ->
  strip formula <> [] -> plain prose -> normalize prose <> [] ->
  enhanced_elements (lit "$$" ++ formula ++ lit "$$" ++ prose)
  = [mkElement EEquation (strip formula) 0 (length formula + 4) (lit "Key Equation")
       (Some (normalize prose))].
Proof.
  intros Hd Hb Hf Hp Hn.
  set (span := lit "$$" ++ formula ++ lit "$$" ++ prose).
  assert (Hback : BACKSLASH ∉ span).
  { unfold span. rewrite !elem_of_app. intros [H|[H|[H|H]]].
    - apply list_elem_of_In in H. vm_compute in H. intuition discriminate.
    - exact (Hb H).
    - apply list_elem_of_In in H. vm_compute in H. intuition discriminate.
    - exact (plain_not prose BACKSLASH eq_refl Hp H). }
  assert (Hall : all_elements span
                 = [mkElement EEquation (strip formula) 0 (length formula + 4)
                      (lit "Key Equation") None]).
  { unfold all_elements, equation_elements, equation_matches, equation_patterns,
      theorem_elements, paragraph_elements. cbn [flat_map].
    rewrite (finditer_absent BlockPat.math_env BACKSLASH span)
      by first [exact Hback | backslash_first].
    rewrite (finditer_absent BlockPat.bracket_math BACKSLASH span)
      by first [exact Hback | backslash_first].
    rewrite (finditer_absent BlockPat.theorem_env BACKSLASH span)
      by first [exact Hback | backslash_first].
    rewrite (finditer_absent BlockPat.paragraph BACKSLASH span)
      by first [exact Hback | backslash_first].
    unfold span. rewrite (display_equation_finditer formula prose Hd)
      by (apply plain_not; [reflexivity | exact Hp]).
    cbn [app flat_map map]. unfold equation_element, inner_text, lastindex, group.
    cbn [m_groups group_lookup Nat.eqb Nat.leb default id m_start m_end].
    destruct (strip formula) as [|c s] eqn:E; [congruence|]. reflexivity. }
  assert (Hstrip : strip prose <> []).
  { intros E. apply Hn. rewrite <- normalize_strip, E. reflexivity. }
  assert (Hslice : slice span (length formula + 4) (length span) = prose).
  { unfold slice, span.
    replace (lit "$$" ++ formula ++ lit "$$" ++ prose)
      with ((lit "$$" ++ formula ++ lit "$$") ++ prose) by (rewrite <- !app_assoc; reflexivity).
    assert (Hl : length (lit "$$" ++ formula ++ lit "$$") = length formula + 4)
      by (rewrite !length_app; simpl; lia).
    rewrite <- Hl, drop_app_length, length_app, Nat.add_comm, Nat.add_sub. apply firstn_all. }
  unfold enhanced_elements. rewrite Hall. cbn [enhance].
  unfold attach_before. cbn [e_start]. change (0 <? 0) with false. cbv iota.
  unfold attach_after. cbn [e_end e_type app]. rewrite Hslice.
  rewrite is_prose_plain by (apply Forall_strip; exact Hp).
  destruct (strip prose) as [|c s] eqn:E; [congruence|]. cbn [is_empty negb]. rewrite <- E.
  rewrite clean_plain by (apply Forall_strip; exact Hp). rewrite normalize_strip.
  destruct (normalize prose) as [|c' s'] eqn:En; [congruence|]. reflexivity.
Qed.

(** X21. An equation and the prose after it.  When the content given to
    the block extractor is a display formula between double dollar signs (no
    dollar sign and no backslash in it, not blank) followed by plain text that
    does not normalize to nothing, one node is made: an equation with
    explanation, whose content is the stripped formula between double dollar
    signs, a blank, and the normalized text. *)
Theorem equation_takes_the_prose_after_it (formula prose : str) (i : nat) (h : store) :
  i < length h ->
  Forall (fun c => c <> DOLLAR) formula -> BACKSLASH ∉ formula ->
  strip formula <> [] -> plain prose -> normalize prose <> [] ->
  new_nodes h (_add_structured_content_to_section (lit "$$" ++ formula ++ lit "$$" ++ prose) i h)
  = [mkNode (lit "Key Equation") (display (strip formula) ++ [SPACE] ++ normalize prose)
       (lit "equation_with_explanation") [] (level_of h i + 1)].
Proof.
  intros Hi Hd Hb Hf Hp Hn.
  rewrite new_nodes_structured by exact Hi.
  rewrite equation_with_prose_elements by assumption.
  cbn [map]. unfold element_node. cbn [e_type e_explanation e_content].
  destruct (normalize prose) as [|c s]; [congruence | reflexivity].
Qed.

Lemma equation_takes_the_prose_after_it_witness :
  new_nodes [mkNode (lit "S") [] (lit "section") [] 2]
    (_add_structured_content_to_section
       (lit "$$" ++ lit " E = mc^{2} " ++ lit "$$" ++ lit " where m is~the mass. ") 0
       [mkNode (lit "S") [] (lit "section") [] 2])
  = [mkNode (lit "Key Equation") (lit "$$E = mc^{2}$$ where m is the mass.")
       (lit "equation_with_explanation") [] 3].
Proof.
  rewrite (equation_takes_the_prose_after_it (lit " E = mc^{2} ") (lit " where m is~the mass. ") 0
             [mkNode (lit "S") [] (lit "section") [] 2]).
  - vm_compute. reflexivity.
  - simpl. lia.
  - apply Forall_neq_check. reflexivity.
  - intros H. apply list_elem_of_In in H. vm_compute in H. intuition discriminate.
  - vm_compute. discriminate.
  - apply plain_check. reflexivity.
  - vm_compute. discriminate.
Defined.

(** ** The title line in compact mode *)










(** ** Sectioning commands outside the section family *)

Lemma section_name_no_brace (k : nat) : LBRACE ∉ section_name k.
Proof.
  unfold section_name. rewrite elem_of_app. intros [H|H].
  - induction k as [|k IH]; [inversion H|].
    change (concat (replicate (S k) (lit "sub")))
      with (lit "sub" ++ concat (replicate k (lit "sub"))) in H.
    apply elem_of_app in H as [H|H]; [|exact (IH H)].
    apply list_elem_of_In in H. vm_compute in H. intuition discriminate.
  - apply list_elem_of_In in H. vm_compute in H. intuition discriminate.
Qed.

Lemma prefix_unique (c : N) (n1 n2 r1 r2 : str) :
  c ∉ n1 -> c ∉ n2 -> n1 ++ c :: r1 = n2 ++ c :: r2 -> n1 = n2 /\ r1 = r2.
Proof.
  revert n2. induction n1 as [|x n1 IH]; intros [|y n2] H1 H2 E; simpl in E.
  - injection E as ->. split; reflexivity.
  - injection E as <- _. exfalso. apply H2. left.
  - injection E as -> _. exfalso. apply H1. left.
  - injection E as -> E. destruct (IH n2) as [-> ->]; [| |exact E|split; reflexivity].
    + intros H. apply H1. right. exact H.
    + intros H. apply H2. right. exact H.
Qed.

Lemma Matches_section_pattern_name (b : mstate) (w : str) (e : mstate) :
  Matches BlockPat.section_pattern b w e ->
  exists k w', w = [BACKSLASH] ++ section_name k ++ [LBRACE] ++ w'.
Proof.
  unfold BlockPat.section_pattern. intros Hm.
  apply Matches_seq_inv in Hm as (w0 & s0 & w' & -> & H0 & Hm).
  apply Matches_chr_inv in H0 as [-> _].
  apply Matches_seq_inv in Hm as (w1 & s1 & w'' & -> & H1 & Hm).
  apply Matches_grp_inv in H1 as (s1' & H1 & _).
  apply Matches_seq_inv in H1 as (wa & sa & wr & -> & Ha & H1).
  apply Matches_star_lits_inv in Ha as (ka & -> & _).
  apply Matches_seq_inv in H1 as (wb & sb & wc & -> & Hb' & Hc).
  apply Matches_star_lits_inv in Hb' as (kb & -> & _).
  apply Matches_lits_inv in Hc as [-> _].
  apply Matches_seq_inv in Hm as (w2 & s2 & w3 & -> & H2 & _).
  apply Matches_chr_inv in H2 as [-> _].
  exists (ka + kb), w3. unfold section_name.
  rewrite replicate_add, concat_app, <- !app_assoc. reflexivity.
Qed.

Lemma Matches_first_section_name (b : mstate) (w : str) (e : mstate) :
  Matches BlockPat.first_section b w e ->
  exists k w', w = [BACKSLASH] ++ section_name k ++ [LBRACE] ++ w'.
Proof.
  unfold BlockPat.first_section. intros Hm.
  apply Matches_seq_inv in Hm as (w0 & s0 & w' & -> & H0 & Hm).
  apply Matches_chr_inv in H0 as [-> _].
  apply Matches_seq_inv in Hm as (wa & sa & wr & -> & Ha & Hm).
  apply Matches_star_lits_inv in Ha as (k & -> & _).
  apply Matches_seq_inv in Hm as (wb & sb & wc & -> & Hb & _).
  apply Matches_lits_inv in Hb as [-> _].
  exists k, wc. unfold section_name.
  change (lit "section{") with (lit "section" ++ [LBRACE]).
  rewrite <- !app_assoc. reflexivity.
Qed.

(** A pattern of the section family matches nowhere in a text whose only
    backslash opens a command with another name. *)
Lemma other_command_no_match (r : regex) (name tail : str) (m : rematch) :
  (forall b w e, Matches r b w e ->
                 exists k w', w = [BACKSLASH] ++ section_name k ++ [LBRACE] ++ w') ->
  (forall i, ([BACKSLASH] ++ name ++ [LBRACE] ++ tail) !! i = Some BACKSLASH -> i = 0) ->
  LBRACE ∉ name -> (forall k, name <> section_name k) ->
  match_of r ([BACKSLASH] ++ name ++ [LBRACE] ++ tail) m -> False.
Proof.
  intros Hshape Hback Hname Hother Hm.
  pose proof Hm as (b & e & HM & _).
  destruct (Hshape _ _ _ HM) as (k & w' & Hw).
  pose proof (match_of_at _ _ m 0 BACKSLASH Hm ltac:(rewrite Hw; reflexivity)) as H0.
  rewrite Nat.add_0_r in H0. apply Hback in H0.
  destruct (match_of_drop _ _ m Hm) as [rest Hrest].
  rewrite H0, drop_0, Hw in Hrest. cbn [app] in Hrest. injection Hrest as Hrest.
  rewrite <- !app_assoc in Hrest. cbn [app] in Hrest.
  apply (Hother k).
  apply (prefix_unique LBRACE _ _ _ _ Hname (section_name_no_brace k) Hrest).
Qed.

Lemma other_sectioning_command_name (name : str) :
  name ∈ other_sectioning_commands ->
  (LBRACE ∉ name) /\ (BACKSLASH ∉ name) /\ (forall k, name <> section_name k)
  /\ exists n0 name', name = n0 :: name'
       /\ Forall (fun x => n0 <> x)
            [chr "b"; chr "d"; chr "u"; chr "t"; chr "a"; chr "m"; chr "n"].
Proof.
  unfold other_sectioning_commands. intros H.
  assert (Hcases : name = lit "part" \/ name = lit "chapter" \/ name = lit "paragraph"
                   \/ name = lit "subparagraph").
  { apply list_elem_of_In in H. cbn [In] in H.
    destruct H as [H|[H|[H|[H|[]]]]]; symmetry in H; tauto. }
  assert (Hlen : forall k, length (section_name k) = k * 3 + 7).
  { intros k. unfold section_name. rewrite length_app, length_copies. reflexivity. }
  split; [|split; [|split]].
  - intros Hin. apply list_elem_of_In in Hin.
    destruct Hcases as [->|[->|[->| ->]]]; vm_compute in Hin; intuition discriminate.
  - intros Hin. apply list_elem_of_In in Hin.
    destruct Hcases as [->|[->|[->| ->]]]; vm_compute in Hin; intuition discriminate.
  - intros k E. pose proof (Hlen k) as Hk. rewrite <- E in Hk.
    destruct Hcases as [->|[->|[->| ->]]]; simpl in Hk; try lia.
    assert (k = 0) by lia. subst k. discriminate E.
  - destruct Hcases as [->|[->|[->| ->]]]; eexists _, _; (split; [reflexivity|]);
      repeat constructor; discriminate.
Qed.

Lemma command_then_backslash (name arg post : str) (i : nat) :
  name ∈ other_sectioning_commands -> plain arg -> plain post ->
  command_then name arg post !! i = Some BACKSLASH -> i = 0.
Proof.
  intros Hname Harg Hpost Hi.
  destruct (other_sectioning_command_name name Hname) as (_ & Hback & _).
  apply (lookup_only [] (name ++ [LBRACE] ++ arg ++ [RBRACE] ++ post) BACKSLASH i);
    [intros H; inversion H | | exact Hi].
  rewrite !elem_of_app, !list_elem_of_singleton.
  intros [H|[H|[H|[H|H]]]]; try discriminate H.
  - exact (Hback H).
  - exact (plain_not arg BACKSLASH eq_refl Harg H).
  - exact (plain_not post BACKSLASH eq_refl Hpost H).
Qed.

Lemma command_then_second (name arg post : str) (x : N) (i : nat) :
  name ∈ other_sectioning_commands -> plain arg -> plain post ->
  x ∈ [chr "b"; chr "d"; chr "u"; chr "t"; chr "a"; chr "m"; chr "n"] ->
  command_then name arg post !! i = Some BACKSLASH ->
  command_then name arg post !! S i <> Some x.
Proof.
  intros Hname Harg Hpost Hx Hi.
  apply command_then_backslash in Hi as ->; [|assumption..].
  destruct (other_sectioning_command_name name Hname) as (_ & _ & _ & n0 & name' & -> & Hn0).
  rewrite Forall_forall in Hn0. intros H. apply (Hn0 x Hx).
  injection H as H. exact H.
Qed.

Lemma command_then_no_section (r : regex) (name arg post : str) (m : rematch) :
  (forall b w e, Matches r b w e ->
                 exists k w', w = [BACKSLASH] ++ section_name k ++ [LBRACE] ++ w') ->
  name ∈ other_sectioning_commands -> plain arg -> plain post ->
  match_of r (command_then name arg post) m -> False.
Proof.
  intros Hshape Hname Harg Hpost.
  destruct (other_sectioning_command_name name Hname) as (Hbrace & _ & Hother & _).
  apply (other_command_no_match r name (arg ++ [RBRACE] ++ post) m Hshape);
    [|exact Hbrace|exact Hother].
  intros i. apply (command_then_backslash name arg post i); assumption.
Qed.

Ltac in_list := solve [repeat first [left | right]].

Lemma command_then_strip (name arg post : str) :
  strip (command_then name arg post) = command_then name arg (rstrip post).
Proof.
  unfold strip. rewrite lstrip_black by reflexivity. unfold command_then.
  replace ([BACKSLASH] ++ name ++ [LBRACE] ++ arg ++ [RBRACE] ++ post)
    with ((([BACKSLASH] ++ name ++ [LBRACE] ++ arg) ++ [RBRACE]) ++ post)
    by (rewrite <- !app_assoc; reflexivity).
  rewrite rstrip_app_black by (rewrite reverse_app; reflexivity).
  rewrite <- !app_assoc. reflexivity.
Qed.

Lemma parse_other_sectioning_command (name arg text : str) :
  name ∈ other_sectioning_commands -> plain arg -> plain text ->
  parse (command_then name arg text)
  = [mkNode (lit "LaTeX Document") [] (lit "document") [] 0].
Proof.
  intros Hname Harg Htext.
  set (tex := command_then name arg text).
  assert (Hsec : forall post x,
             plain post ->
             x ∈ [chr "b"; chr "d"; chr "u"; chr "t"; chr "a"; chr "m"; chr "n"] ->
             forall i, command_then name arg post !! i = Some BACKSLASH ->
                       command_then name arg post !! S i <> Some x).
  { intros post x Hpost Hx i. apply command_then_second; assumption. }
  assert (Hbody : _extract_document_body tex = command_then name arg (rstrip text)).
  { unfold _extract_document_body.
    rewrite (re_search_head2_none BlockPat.document_env tex BACKSLASH (chr "b"))
      by first [head2 | apply Hsec; [exact Htext | in_list]].
    rewrite (erase_head2_none (BlockPat.line_of "documentclass") tex BACKSLASH (chr "d"))
      by first [head2 | apply Hsec; [exact Htext | in_list]].
    rewrite (erase_head2_none (BlockPat.line_of "usepackage") tex BACKSLASH (chr "u"))
      by first [head2 | apply Hsec; [exact Htext | in_list]].
    rewrite (erase_head2_none (BlockPat.declaration "title") tex BACKSLASH (chr "t"))
      by first [head2 | apply Hsec; [exact Htext | in_list]].
    rewrite (erase_head2_none (BlockPat.declaration "author") tex BACKSLASH (chr "a"))
      by first [head2 | apply Hsec; [exact Htext | in_list]].
    rewrite (erase_head2_none (BlockPat.declaration "date") tex BACKSLASH (chr "d"))
      by first [head2 | apply Hsec; [exact Htext | in_list]].
    rewrite (erase_head2_none BlockPat.maketitle tex BACKSLASH (chr "m"))
      by first [head2 | apply Hsec; [exact Htext | in_list]].
    rewrite (erase_head2_none (BlockPat.line_of "newtheorem") tex BACKSLASH (chr "n"))
      by first [head2 | apply Hsec; [exact Htext | in_list]].
    apply command_then_strip. }
  assert (Htitle : document_title tex = lit "LaTeX Document").
  { unfold document_title, _extract_document_title.
    rewrite (re_search_head2_none BlockPat.title_decl tex BACKSLASH (chr "t"))
      by first [head2 | apply Hsec; [exact Htext | in_list]].
    assert (Hnone : re_search BlockPat.first_section tex = None).
    { unfold re_search.
      destruct (search_at BlockPat.first_section 0 None tex) as [m|] eqn:E; [|reflexivity].
      exfalso.
      apply (search_at_sound _ tex tex 0 None m) in E as [Hm _]; [|reflexivity|lia].
      exact (command_then_no_section _ name arg text m Matches_first_section_name
               Hname Harg Htext Hm). }
    rewrite Hnone. reflexivity. }
  unfold parse. rewrite Hbody, Htitle.
  assert (Hr : plain (rstrip text)) by (apply Forall_rstrip; exact Htext).
  assert (Hrr : plain (rstrip (rstrip text))) by (apply Forall_rstrip; exact Hr).
  unfold _parse_with_regex_fallback.
  rewrite (finditer_none BlockPat.section_pattern (command_then name arg (rstrip text)))
    by (intros m; exact (command_then_no_section _ name arg (rstrip text) m
                           Matches_section_pattern_name Hname Harg Hr)).
  cbn [section_loop current_pos sg_store sg_stack].
  destruct (0 <? length (command_then name arg (rstrip text))); [|reflexivity].
  destruct (is_empty _); [reflexivity|].
  unfold _add_content_to_current_section.
  change (current_section {[ 0%Z := 0 ]}) with (Some 0).
  rewrite drop_0, command_then_strip.
  rewrite (finditer_head2_none BlockPat.theorem_env _ BACKSLASH (chr "b"))
    by first [head2 | apply Hsec; [exact Hrr | in_list]].
  rewrite (finditer_head2_none BlockPat.equation_env _ BACKSLASH (chr "b"))
    by first [head2 | apply Hsec; [exact Hrr | in_list]].
  reflexivity.
Qed.

(** C1, the code against its own table.  [SECTION_LEVELS] gives a level to
    part, chapter, paragraph and subparagraph as it does to the section
    family, but the pattern of the segmenter names the section family only:
    for a document that is one of these four commands with a plain argument
    (no backslash, brace or dollar sign) followed by plain text, [parse]
    gives the root alone, under the default title.  The command is not
    located and no section node is created. *)
Theorem other_sectioning_commands_are_not_located (name arg text : str) :
  name ∈ other_sectioning_commands -> plain arg -> plain text ->
  (exists lvl, (name, lvl) ∈ SECTION_LEVELS)
  /\ parse (command_then name arg text)
     = [mkNode (lit "LaTeX Document") [] (lit "document") [] 0].
Proof.
  intros Hname Harg Htext. split.
  - unfold other_sectioning_commands in Hname. apply list_elem_of_In in Hname.
    cbn [In] in Hname. unfold SECTION_LEVELS.
    destruct Hname as [<-|[<-|[<-|[<-|[]]]]]; eexists; in_list.
  - exact (parse_other_sectioning_command name arg text Hname Harg Htext).
Qed.

Lemma other_sectioning_commands_are_not_located_witness :
  (exists lvl, (lit "chapter", lvl) ∈ SECTION_LEVELS)
  /\ parse (lit "\chapter{One}Text")
     = [mkNode (lit "LaTeX Document") [] (lit "document") [] 0].
Proof.
  change (lit "\chapter{One}Text") with (command_then (lit "chapter") (lit "One") (lit "Text")).
  apply (other_sectioning_commands_are_not_located (lit "chapter") (lit "One") (lit "Text")).
  - unfold other_sectioning_commands. in_list.
  - apply plain_check. reflexivity.
  - apply plain_check. reflexivity.
Defined.

(** Inside a document with sections, the same commands are read as
    ordinary markup of the text around them: the sanitizer keeps their
    argument as words of the section before. *)
Example chapter_between_sections :
  parse (lit "\section{A}\chapter{B}x\section{C}")
  = [ mkNode (lit "A") [] (lit "document") [1; 2] 0;
      mkNode (lit "A") (lit "Bx") (lit "section") [] 2;
      mkNode (lit "C") [] (lit "section") [] 2 ].
Proof. vm_compute. reflexivity. Qed.

(** ** Lists in the content of a section *)

(** C2, the code against its sibling.  The block extractor, which makes
    the nodes below a section on the path [parse] takes, makes no list node:
    for every content span, none of the nodes it creates has the kind
    itemize, enumerate or item.  So a well-formed list after an equation in a
    section leaves no node at all, whereas the list handler of the other
    parser, given the same list, appends the container with its two
    items. *)
Theorem block_extractor_makes_no_list_node
    (span : str) (section_node : nat) (h : store) :
  section_node < length h ->
  (forall node,
      node ∈ new_nodes h (_add_structured_content_to_section span section_node h) ->
      node_type node ∉ [lit "itemize"; lit "enumerate"; lit "item"])
  /\ parse (lit "\section{S}$$x$$\begin{itemize}\item a\item b\end{itemize}")
     = [ mkNode (lit "S") [] (lit "document") [1] 0;
         mkNode (lit "S") [] (lit "section") [2] 2;
         mkNode (lit "Key Equation") (lit "$$x$$") (lit "equation") [] 3 ]
  /\ _handle_list_environment (lit "itemize")
       [ item_macro (lit "\item"); LatexCharsNode (lit " a");
         item_macro (lit "\item"); LatexCharsNode (lit " b") ]
       1 [ mkNode (lit "S") [] (lit "document") [1] 0;
           mkNode (lit "S") [] (lit "section") [] 2 ]
     = [ mkNode (lit "S") [] (lit "document") [1] 0;
         mkNode (lit "S") [] (lit "section") [2] 2;
         mkNode (lit "Itemize List") [] (lit "itemize") [3; 4] 3;
         mkNode (lit "a") (lit "a") (lit "item") [] 4;
         mkNode (lit "b") (lit "b") (lit "item") [] 4 ].
Proof.
  intros Hs. split; [|split; vm_compute; reflexivity].
  intros node. rewrite new_nodes_structured by exact Hs.
  intros Hin. apply list_elem_of_fmap_1 in Hin as (e & -> & _).
  pose proof (element_node_block_kind (level_of h section_node + 1) e) as Hkind.
  intros Hlist. apply list_elem_of_In in Hkind, Hlist.
  unfold block_kinds in Hkind. cbn [In] in Hkind, Hlist.
  destruct Hlist as [E|[E|[E|[]]]]; rewrite <- E in Hkind;
    destruct Hkind as [K|[K|[K|[K|[K|[]]]]]]; discriminate K.
Qed.

Lemma block_extractor_makes_no_list_node_witness :
  Forall (fun node => node_type node ∉ [lit "itemize"; lit "enumerate"; lit "item"])
    (new_nodes [mkNode (lit "S") [] (lit "section") [] 2]
       (_add_structured_content_to_section
          (lit "$$x$$\begin{itemize}\item a\item b\end{itemize}") 0
          [mkNode (lit "S") [] (lit "section") [] 2])).
Proof.
  apply Forall_forall.
  apply (block_extractor_makes_no_list_node
           (lit "$$x$$\begin{itemize}\item a\item b\end{itemize}") 0
           [mkNode (lit "S") [] (lit "section") [] 2]).
  simpl. lia.
Defined.

(** ** Blank display math and empty theorems, in terms of the text *)





(** *** Alternations of literal words *)

Lemma rmatch_alt (a b : regex) (st : mstate) (k : mstate -> option mstate) :
  rmatch (Alt a b) st k
  = match rmatch a st k with Some e => Some e | None => rmatch b st k end.
Proof. reflexivity. Qed.






(** *** An environment pattern at an environment *)







(** *** A span without elements *)








(** *** A blank formula between double dollar signs *)


(** *** A blank formula between brackets *)


(** *** A blank formula in an environment *)






(** *** A theorem-like environment with a blank body *)




